(** * SdsParser: the field-extraction engine of [sds_parser.py]

    A shallow embedding of the pattern catalogue, the field locator, the
    value normalisers, the record assembler and the register store, and the
    properties of them that the specification states.

    Text.  A Python [str] is modelled as a list of characters, a character
    being a code point below 256 (the Latin-1 range, which holds the ASCII
    letters and digits the patterns are written with and the no-break space
    U+00A0 that [normalize_whitespace] replaces).  The character tables
    below ([isspace], [isdigit], [isword], [chr_lower]) are Python's on
    that range.

    Patterns.  The regular expressions of the program are written in an
    abstract syntax and run by a backtracking matcher with the order of
    trial of [re]: alternatives from left to right, repetitions greedy,
    the leftmost position first.

    Files.  The register is modelled by the rows the [csv] module reads
    from it and writes to it; the file system is a finite map from paths to
    files. *)

From Stdlib Require Import Ascii String Arith Lia Bool.
From stdpp Require Import gmap strings list.

Open Scope list_scope.
Open Scope nat_scope.

(* ================================================================== *)
(** * Characters and strings *)

Abbreviation str := (list ascii).

(** A literal of the source, as a list of characters. *)
Definition t (s : string) : str := list_ascii_of_string s.

Definition code (c : ascii) : nat := nat_of_ascii c.
Definition chr (n : nat) : ascii := ascii_of_nat n.

Definition LF : ascii := chr 10.
Definition CR : ascii := chr 13.
Definition TAB : ascii := chr 9.
Definition NBSP : ascii := chr 160.

Definition chr_eqb (a b : ascii) : bool := Ascii.eqb a b.

Definition str_eqb (a b : str) : bool := bool_decide (a = b).

Definition between (lo hi n : nat) : bool := (lo <=? n) && (n <=? hi).

(** [str.isspace] of one character, also the class [\s] of [re]. *)
Definition isspace (c : ascii) : bool :=
  let n := code c in
  between 9 13 n || between 28 32 n || (n =? 133) || (n =? 160).

(** The class [\d] of [re] on [str] patterns: the decimal digits. *)
Definition isdigit (c : ascii) : bool := between 48 57 (code c).

(** The class [\w] of [re] on [str] patterns: alphanumeric or underscore. *)
Definition isword (c : ascii) : bool :=
  let n := code c in
  between 48 57 n || between 65 90 n || between 97 122 n || (n =? 95)
  || (n =? 170) || (n =? 178) || (n =? 179) || (n =? 181) || (n =? 185)
  || (n =? 186) || between 188 190 n || between 192 214 n
  || between 216 246 n || between 248 255 n.

(** [str.lower] of one character. *)
Definition chr_lower (c : ascii) : ascii :=
  let n := code c in
  if between 65 90 n || between 192 214 n || between 216 222 n
  then chr (n + 32) else c.

Definition str_lower (s : str) : str := map chr_lower s.

(** [str.upper].  The sharp s becomes two letters; the capitals of the micro
    sign and of y with diaeresis lie above U+00FF and are left as they are
    (the one call, in [infer_flags], passes a run of the letter i). *)
Definition chr_upper (c : ascii) : str :=
  let n := code c in
  if between 97 122 n || between 224 246 n || between 248 254 n
  then [chr (n - 32)]
  else if n =? 223 then [chr 83; chr 83] else [c].

Definition str_upper (s : str) : str := flat_map chr_upper s.

(** [str.strip()] *)
Fixpoint lstrip (s : str) : str :=
  match s with
  | c :: s' => if isspace c then lstrip s' else s
  | [] => []
  end.

Definition rstrip (s : str) : str := rev (lstrip (rev s)).

Definition str_strip (s : str) : str := rstrip (lstrip s).

(** [s.replace("-", "/")] *)
Definition replace_hyphen (s : str) : str :=
  map (fun c => if chr_eqb c "-" then "/"%char else c) s.

(** [needle in s] *)
Fixpoint is_prefix (p s : str) : bool :=
  match p, s with
  | [], _ => true
  | a :: p', b :: s' => chr_eqb a b && is_prefix p' s'
  | _ :: _, [] => false
  end.

Fixpoint contains (needle s : str) : bool :=
  is_prefix needle s ||
  match s with
  | [] => false
  | _ :: s' => contains needle s'
  end.

(** Truth value of an [Optional[str]]: [None] and the empty string are
    false. *)
Definition truthy (o : option str) : bool :=
  match o with
  | Some (_ :: _) => true
  | _ => false
  end.

(** [x or EMPTY], EMPTY being the empty string. *)
Definition or_empty (o : option str) : str :=
  match o with
  | Some (c :: s) => c :: s
  | _ => []
  end.

(* ================================================================== *)
(** * Regular expressions: the part of [re] the program uses *)

Module Re.

Inductive flag := re_I | re_M | re_S.

Definition flag_eqb (a b : flag) : bool :=
  match a, b with
  | re_I, re_I | re_M, re_M | re_S, re_S => true
  | _, _ => false
  end.

Definition has (f : flag) (fl : list flag) : bool := existsb (flag_eqb f) fl.

(** An item of a bracketed set. *)
Inductive item :=
  | CLit (c : ascii)
  | CRange (lo hi : ascii)
  | CSpace
  | CDigit.

(** Abstract syntax.  Groups carry their number; repetition is greedy. *)
Inductive regex :=
  | Empty
  | Lit (c : ascii)
  | Dot
  | Set_ (neg : bool) (items : list item)
  | Cat (a b : regex)
  | Alt (a b : regex)
  | Rep (lo : nat) (hi : option nat) (a : regex)
  | Grp (i : nat) (a : regex)
  | Bol
  | Eol
  | WordB.

Record Pattern := compile { pat : regex; flags : list flag }.

(** ** Character tests *)

Definition item_mem (it : item) (x : ascii) : bool :=
  match it with
  | CLit c => chr_eqb x c
  | CRange lo hi => between (code lo) (code hi) (code x)
  | CSpace => isspace x
  | CDigit => isdigit x
  end.

(** Under IGNORECASE a set is lowered when compiled and tested on the
    lowered character. *)
Definition item_mem_lowered (it : item) (x : ascii) : bool :=
  match it with
  | CLit c => chr_eqb x (chr_lower c)
  | CRange lo hi =>
      existsb (fun n => chr_eqb x (chr_lower (chr n)))
              (seq (code lo) (S (code hi) - code lo))
  | CSpace => isspace x
  | CDigit => isdigit x
  end.

Definition lit_match (fl : list flag) (c x : ascii) : bool :=
  if has re_I fl then chr_eqb (chr_lower x) (chr_lower c) else chr_eqb x c.

Definition set_match (fl : list flag) (neg : bool) (items : list item)
    (x : ascii) : bool :=
  xorb neg
    (if has re_I fl
     then existsb (fun it => item_mem_lowered it (chr_lower x)) items
     else existsb (fun it => item_mem it x) items).

Definition dot_match (fl : list flag) (x : ascii) : bool :=
  has re_S fl || negb (chr_eqb x LF).

(** ** Matcher state *)

(** [pre] is the text before the current position, last character first;
    [rest] is the text from the current position on; [caps] holds the
    groups, group [i] at index [i]. *)
Record mstate := MState { pre : str; rest : str; caps : list (option str) }.

Definition cont := mstate -> option mstate.

Definition eat (p : ascii -> bool) (k : cont) (s : mstate) : option mstate :=
  match rest s with
  | x :: xs => if p x then k (MState (x :: pre s) xs (caps s)) else None
  | [] => None
  end.

(** The text between two positions of one scan. *)
Definition span (s s' : mstate) : str :=
  take (length (rest s) - length (rest s')) (rest s).

Definition set_cap (i : nat) (v : str) (s : mstate) : mstate :=
  MState (pre s) (rest s) (<[i := Some v]> (caps s)).

Definition at_bol (fl : list flag) (s : mstate) : bool :=
  match pre s with
  | [] => true
  | c :: _ => has re_M fl && chr_eqb c LF
  end.

Definition at_eol (fl : list flag) (s : mstate) : bool :=
  match rest s with
  | [] => true
  | c :: r => chr_eqb c LF && (has re_M fl || match r with [] => true | _ => false end)
  end.

Definition at_boundary (s : mstate) : bool :=
  let before := match pre s with c :: _ => isword c | [] => false end in
  let after := match rest s with c :: _ => isword c | [] => false end in
  xorb before after.

Definition guard (b : bool) (k : cont) (s : mstate) : option mstate :=
  if b then k s else None.

Definition orelse (a b : option mstate) : option mstate :=
  match a with
  | Some r => Some r
  | None => b
  end.

Definition dec_hi (hi : option nat) : option nat :=
  match hi with
  | Some n => Some (Nat.pred n)
  | None => None
  end.

Definition hi_zero (hi : option nat) : bool :=
  match hi with
  | Some 0 => true
  | _ => false
  end.

(** Greedy repetition of [body]: one more round first, the rest of the
    pattern once no further round leads to a match.  A round that consumes
    nothing is not repeated. *)
Fixpoint rep_loop (body : cont -> cont) (fuel lo : nat) (hi : option nat)
    (k : cont) (s : mstate) : option mstate :=
  match fuel with
  | 0 => guard (lo =? 0) k s
  | S fuel' =>
      if hi_zero hi then guard (lo =? 0) k s
      else
        orelse
          (body (fun s' =>
                   if length (rest s') <? length (rest s)
                   then rep_loop body fuel' (Nat.pred lo) (dec_hi hi) k s'
                   else None) s)
          (guard (lo =? 0) k s)
  end.

(** The backtracking matcher, in continuation-passing style: [k] is the
    rest of the pattern. *)
Fixpoint mtch (fl : list flag) (r : regex) (k : cont) (s : mstate)
    {struct r} : option mstate :=
  match r with
  | Empty => k s
  | Lit c => eat (lit_match fl c) k s
  | Dot => eat (dot_match fl) k s
  | Set_ neg items => eat (set_match fl neg items) k s
  | Cat a b => mtch fl a (mtch fl b k) s
  | Alt a b => orelse (mtch fl a k s) (mtch fl b k s)
  | Rep lo hi a => rep_loop (mtch fl a) (S (length (rest s))) lo hi k s
  | Grp i a => mtch fl a (fun s' => k (set_cap i (span s s') s')) s
  | Bol => guard (at_bol fl s) k s
  | Eol => guard (at_eol fl s) k s
  | WordB => guard (at_boundary s) k s
  end.

Fixpoint ngroups (r : regex) : nat :=
  match r with
  | Cat a b | Alt a b => Nat.max (ngroups a) (ngroups b)
  | Rep _ _ a => ngroups a
  | Grp i a => Nat.max i (ngroups a)
  | _ => 0
  end.

(** ** Match objects, [search], [sub] *)

Record rmatch := RMatch { m_from : mstate; m_to : mstate }.

(** [m.group(0)] *)
Definition group0 (m : rmatch) : str := span (m_from m) (m_to m).

(** [m.groups()] *)
Definition groups (m : rmatch) : list (option str) := drop 1 (caps (m_to m)).

(** [m.group(i)] for [i >= 1] *)
Definition group (i : nat) (m : rmatch) : option str :=
  match caps (m_to m) !! i with
  | Some g => g
  | None => None
  end.

(** One attempt at one position.  [must_advance] refuses the empty match
    (it is set by [sub] after an empty match at this position). *)
Definition match_here (p : Pattern) (must_advance : bool) (before after : str)
    : option rmatch :=
  let s0 := MState before after (replicate (S (ngroups (pat p))) None) in
  match mtch (flags p) (pat p)
          (fun s' => if must_advance && (length (rest s') =? length after)
                     then None else Some s') s0 with
  | Some s' => Some (RMatch s0 s')
  | None => None
  end.

(** The leftmost position at which the pattern matches. *)
Fixpoint scan (p : Pattern) (must_advance : bool) (before after : str)
    : option rmatch :=
  match match_here p must_advance before after with
  | Some m => Some m
  | None =>
      match after with
      | [] => None
      | x :: xs => scan p false (x :: before) xs
      end
  end.

(** [p.search(text)] *)
Definition search (p : Pattern) (text : str) : option rmatch :=
  scan p false [] text.

(** [p.match(text)]: at the start of the text only. *)
Definition match_ (p : Pattern) (text : str) : option rmatch :=
  match_here p false [] text.

Fixpoint sub_loop (fuel : nat) (p : Pattern) (repl : str)
    (must_advance : bool) (before after : str) : str :=
  match fuel with
  | 0 => after
  | S fuel' =>
      match scan p must_advance before after with
      | None => after
      | Some m =>
          take (length after - length (rest (m_from m))) after
          ++ repl
          ++ sub_loop fuel' p repl
               (length (rest (m_to m)) =? length (rest (m_from m)))
               (pre (m_to m)) (rest (m_to m))
      end
  end.

(** [p.sub(repl, text)] for a replacement without group references. *)
Definition sub (p : Pattern) (repl text : str) : str :=
  sub_loop (2 * length text + 2) p repl false [] text.

(** ** Writing patterns *)

(** A run of literal characters. *)
Fixpoint lits (s : str) : regex :=
  match s with
  | [] => Empty
  | [c] => Lit c
  | c :: s' => Cat (Lit c) (lits s')
  end.

Definition word (s : string) : regex := lits (t s).

(** Concatenation of a list of pieces. *)
Fixpoint seq_ (l : list regex) : regex :=
  match l with
  | [] => Empty
  | [r] => r
  | r :: l' => Cat r (seq_ l')
  end.

Definition star (r : regex) : regex := Rep 0 None r.
Definition plus (r : regex) : regex := Rep 1 None r.
Definition opt (r : regex) : regex := Rep 0 (Some 1) r.
Definition space : regex := Set_ false [CSpace].
Definition digit : regex := Set_ false [CDigit].

End Re.

(* ================================================================== *)
(** * CONFIGURATION *)

Definition REGISTER_HEADERS : list str :=
  [ t "Product Name";
    t "Vendor / Manufacturer";
    t "Quantity";
    t "Location";
    t "CAS Number";
    t "SDS Available";
    t "Issue Date (DD/MM/YYYY)";
    t "Hazardous Substance";
    t "Dangerous Good";
    t "Dangerous Goods Class";
    t "Description";
    t "Packing group";
    t "Subsidiary Risk(s)";
    t "Consequence";
    t "Likelihood";
    t "Risk Rating";
    t "Safe Work Procedure (SWP) Requirement";
    t "Comments/SWP";
    t "Barcode" ].

Section Catalogue.
Import Re.

(** [\s*[:\-]?\s*], the separator between a label and its value. *)
Definition sep : list regex :=
  [ star space; opt (Set_ false [CLit ":"; CLit "-"]); star space ].

(** [(.+)] *)
Definition value (i : nat) : regex := Grp i (plus Dot).

(** Alternatives, tried from left to right. *)
Fixpoint alts (l : list regex) : regex :=
  match l with
  | [] => Empty
  | [r] => r
  | r :: l' => Alt r (alts l')
  end.

(** [\d{1,2}[/-]\d{1,2}[/-]\d{2,4}] *)
Definition date_like : regex :=
  seq_ [ Rep 1 (Some 2) digit; Set_ false [CLit "/"; CLit "-"];
         Rep 1 (Some 2) digit; Set_ false [CLit "/"; CLit "-"];
         Rep 2 (Some 4) digit ].

(** [(I{1,3}|II|III)] *)
Definition roman (i : nat) : regex :=
  Grp i (alts [ Rep 1 (Some 3) (Lit "I"); word "II"; word "III" ]).

(** [(Yes|No)] *)
Definition yes_no (i : nat) : regex := Grp i (Alt (word "Yes") (word "No")).

Definition digit09 : regex := Set_ false [CRange "0" "9"].

(** The pattern catalogue, one list of alternatives per field. *)
Definition PATTERNS : list (string * list Pattern) :=
  [ ("product_name",
      [ compile (seq_ (word "Product Identifier" :: sep ++ [value 1])) [re_I];
        compile (seq_ ([Bol; star space; word "Product Name"] ++ sep
                       ++ [value 1; Eol])) [re_I; re_M];
        compile (seq_ ([Bol; star space; word "Trade Name"] ++ sep
                       ++ [value 1; Eol])) [re_I; re_M] ]);
    ("vendor",
      [ compile (seq_ ([word "Manufacturer"; opt (word "/Supplier")] ++ sep
                       ++ [value 1])) [re_I];
        compile (seq_ (word "Company Name" :: sep ++ [value 1])) [re_I];
        compile (seq_ (word "Supplier" :: sep ++ [value 1])) [re_I] ]);
    ("issue_date",
      [ compile (seq_ (Grp 1 (alts [ word "Revision"; word "Issue";
                                     word "Date of issue";
                                     word "Version date" ])
                       :: sep ++ [Grp 2 date_like])) [re_I];
        compile (seq_ (Grp 1 (alts [ word "Prepared"; word "Last revised" ])
                       :: sep ++ [Grp 2 date_like])) [re_I] ]);
    ("dangerous_goods_class",
      [ compile (seq_ ([ WordB;
                         opt (seq_ [ word "Dangerous"; plus space;
                                     word "Goods"; star space ]);
                         word "Class"; opt (word "/Division") ] ++ sep
                       ++ [ Grp 1 (plus (Set_ false
                                     [ CRange "0" "9"; CRange "A" "Z";
                                       CRange "a" "z"; CLit "." ]));
                            WordB ])) [re_I] ]);
    ("un_number",
      [ compile (seq_ [ WordB; word "UN"; star space;
                        Grp 1 (Rep 3 (Some 4) digit); WordB ]) [re_I] ]);
    ("packing_group",
      [ compile (seq_ ([ word "Packing"; plus space; word "Group" ] ++ sep
                       ++ [ roman 1; WordB ])) [re_I] ]);
    ("subsidiary_risks",
      [ compile (seq_ ([ word "Subsidiary Risk";
                         opt (Set_ false [CLit "s"]) ] ++ sep
                       ++ [value 1])) [re_I] ]);
    ("cas_number",
      [ compile (seq_ ([ WordB; word "CAS";
                         opt (Alt (word " No.") (word " Number")) ] ++ sep
                       ++ [ Grp 1 (seq_ [ Rep 2 (Some 7) digit09; Lit "-";
                                          Rep 2 (Some 2) digit09; Lit "-";
                                          digit09 ]) ])) [re_I] ]);
    ("hazardous_substance",
      [ compile (seq_ (word "Hazardous Substance" :: sep
                       ++ [ yes_no 1; WordB ])) [re_I] ]);
    ("dangerous_good",
      [ compile (seq_ ([ word "Dangerous Good"; opt (Lit "s") ] ++ sep
                       ++ [ yes_no 1; WordB ])) [re_I] ]);
    ("description_section2",
      [ compile (seq_ [ word "Section"; star space; Lit "2";
                        star (Set_ true [CLit LF]); Lit LF;
                        Grp 1 (Rep 0 (Some 800) Dot) ]) [re_I; re_S] ]) ].

(** [PATTERNS[key]]; every key the program asks for is in the catalogue. *)
Definition PATTERNS_get (key : string) : list Pattern :=
  match find (fun e => String.eqb (fst e) key) PATTERNS with
  | Some e => snd e
  | None => []
  end.

End Catalogue.

Definition DATE_FORMATS_IN : list str :=
  [ t "%d/%m/%Y"; t "%d-%m-%Y"; t "%d/%m/%y"; t "%Y-%m-%d"; t "%m/%d/%Y" ].

(* ================================================================== *)
(** * DATA MODEL *)

(** [ParsedRecord]: every field is an [Optional[str]] except
    [sds_available]. *)
Record ParsedRecord := {
  product_name : option str;
  vendor : option str;
  quantity : option str;
  location : option str;
  cas_number : option str;
  sds_available : str;
  issue_date : option str;
  hazardous_substance : option str;
  dangerous_good : option str;
  dangerous_goods_class : option str;
  description : option str;
  packing_group : option str;
  subsidiary_risks : option str;
  consequence : option str;
  likelihood : option str;
  risk_rating : option str;
  swp_requirement : option str;
  comments_swp : option str;
  barcode : option str
}.

(** [ParsedRecord()]: the defaults of the class. *)
Definition ParsedRecord_new : ParsedRecord := {|
  product_name := None;
  vendor := None;
  quantity := None;
  location := None;
  cas_number := None;
  sds_available := t "Yes";
  issue_date := None;
  hazardous_substance := None;
  dangerous_good := None;
  dangerous_goods_class := None;
  description := None;
  packing_group := None;
  subsidiary_risks := None;
  consequence := None;
  likelihood := None;
  risk_rating := None;
  swp_requirement := None;
  comments_swp := None;
  barcode := None
|}.

(** Assignment to one attribute, [record.f = v]. *)
Definition set_product_name (v : option str) (r : ParsedRecord) : ParsedRecord :=
  {| product_name := v; vendor := vendor r; quantity := quantity r;
     location := location r; cas_number := cas_number r;
     sds_available := sds_available r; issue_date := issue_date r;
     hazardous_substance := hazardous_substance r;
     dangerous_good := dangerous_good r;
     dangerous_goods_class := dangerous_goods_class r;
     description := description r; packing_group := packing_group r;
     subsidiary_risks := subsidiary_risks r; consequence := consequence r;
     likelihood := likelihood r; risk_rating := risk_rating r;
     swp_requirement := swp_requirement r; comments_swp := comments_swp r;
     barcode := barcode r |}.

Definition set_vendor (v : option str) (r : ParsedRecord) : ParsedRecord :=
  {| product_name := product_name r; vendor := v; quantity := quantity r;
     location := location r; cas_number := cas_number r;
     sds_available := sds_available r; issue_date := issue_date r;
     hazardous_substance := hazardous_substance r;
     dangerous_good := dangerous_good r;
     dangerous_goods_class := dangerous_goods_class r;
     description := description r; packing_group := packing_group r;
     subsidiary_risks := subsidiary_risks r; consequence := consequence r;
     likelihood := likelihood r; risk_rating := risk_rating r;
     swp_requirement := swp_requirement r; comments_swp := comments_swp r;
     barcode := barcode r |}.

Definition set_quantity (v : option str) (r : ParsedRecord) : ParsedRecord :=
  {| product_name := product_name r; vendor := vendor r; quantity := v;
     location := location r; cas_number := cas_number r;
     sds_available := sds_available r; issue_date := issue_date r;
     hazardous_substance := hazardous_substance r;
     dangerous_good := dangerous_good r;
     dangerous_goods_class := dangerous_goods_class r;
     description := description r; packing_group := packing_group r;
     subsidiary_risks := subsidiary_risks r; consequence := consequence r;
     likelihood := likelihood r; risk_rating := risk_rating r;
     swp_requirement := swp_requirement r; comments_swp := comments_swp r;
     barcode := barcode r |}.

Definition set_location (v : option str) (r : ParsedRecord) : ParsedRecord :=
  {| product_name := product_name r; vendor := vendor r;
     quantity := quantity r; location := v; cas_number := cas_number r;
     sds_available := sds_available r; issue_date := issue_date r;
     hazardous_substance := hazardous_substance r;
     dangerous_good := dangerous_good r;
     dangerous_goods_class := dangerous_goods_class r;
     description := description r; packing_group := packing_group r;
     subsidiary_risks := subsidiary_risks r; consequence := consequence r;
     likelihood := likelihood r; risk_rating := risk_rating r;
     swp_requirement := swp_requirement r; comments_swp := comments_swp r;
     barcode := barcode r |}.

Definition set_cas_number (v : option str) (r : ParsedRecord) : ParsedRecord :=
  {| product_name := product_name r; vendor := vendor r;
     quantity := quantity r; location := location r; cas_number := v;
     sds_available := sds_available r; issue_date := issue_date r;
     hazardous_substance := hazardous_substance r;
     dangerous_good := dangerous_good r;
     dangerous_goods_class := dangerous_goods_class r;
     description := description r; packing_group := packing_group r;
     subsidiary_risks := subsidiary_risks r; consequence := consequence r;
     likelihood := likelihood r; risk_rating := risk_rating r;
     swp_requirement := swp_requirement r; comments_swp := comments_swp r;
     barcode := barcode r |}.

Definition set_issue_date (v : option str) (r : ParsedRecord) : ParsedRecord :=
  {| product_name := product_name r; vendor := vendor r;
     quantity := quantity r; location := location r;
     cas_number := cas_number r; sds_available := sds_available r;
     issue_date := v; hazardous_substance := hazardous_substance r;
     dangerous_good := dangerous_good r;
     dangerous_goods_class := dangerous_goods_class r;
     description := description r; packing_group := packing_group r;
     subsidiary_risks := subsidiary_risks r; consequence := consequence r;
     likelihood := likelihood r; risk_rating := risk_rating r;
     swp_requirement := swp_requirement r; comments_swp := comments_swp r;
     barcode := barcode r |}.

Definition set_hazardous_substance (v : option str) (r : ParsedRecord) : ParsedRecord :=
  {| product_name := product_name r; vendor := vendor r;
     quantity := quantity r; location := location r;
     cas_number := cas_number r; sds_available := sds_available r;
     issue_date := issue_date r; hazardous_substance := v;
     dangerous_good := dangerous_good r;
     dangerous_goods_class := dangerous_goods_class r;
     description := description r; packing_group := packing_group r;
     subsidiary_risks := subsidiary_risks r; consequence := consequence r;
     likelihood := likelihood r; risk_rating := risk_rating r;
     swp_requirement := swp_requirement r; comments_swp := comments_swp r;
     barcode := barcode r |}.

Definition set_dangerous_good (v : option str) (r : ParsedRecord) : ParsedRecord :=
  {| product_name := product_name r; vendor := vendor r;
     quantity := quantity r; location := location r;
     cas_number := cas_number r; sds_available := sds_available r;
     issue_date := issue_date r;
     hazardous_substance := hazardous_substance r; dangerous_good := v;
     dangerous_goods_class := dangerous_goods_class r;
     description := description r; packing_group := packing_group r;
     subsidiary_risks := subsidiary_risks r; consequence := consequence r;
     likelihood := likelihood r; risk_rating := risk_rating r;
     swp_requirement := swp_requirement r; comments_swp := comments_swp r;
     barcode := barcode r |}.

Definition set_dangerous_goods_class (v : option str) (r : ParsedRecord) : ParsedRecord :=
  {| product_name := product_name r; vendor := vendor r;
     quantity := quantity r; location := location r;
     cas_number := cas_number r; sds_available := sds_available r;
     issue_date := issue_date r;
     hazardous_substance := hazardous_substance r;
     dangerous_good := dangerous_good r; dangerous_goods_class := v;
     description := description r; packing_group := packing_group r;
     subsidiary_risks := subsidiary_risks r; consequence := consequence r;
     likelihood := likelihood r; risk_rating := risk_rating r;
     swp_requirement := swp_requirement r; comments_swp := comments_swp r;
     barcode := barcode r |}.

Definition set_description (v : option str) (r : ParsedRecord) : ParsedRecord :=
  {| product_name := product_name r; vendor := vendor r;
     quantity := quantity r; location := location r;
     cas_number := cas_number r; sds_available := sds_available r;
     issue_date := issue_date r;
     hazardous_substance := hazardous_substance r;
     dangerous_good := dangerous_good r;
     dangerous_goods_class := dangerous_goods_class r; description := v;
     packing_group := packing_group r;
     subsidiary_risks := subsidiary_risks r; consequence := consequence r;
     likelihood := likelihood r; risk_rating := risk_rating r;
     swp_requirement := swp_requirement r; comments_swp := comments_swp r;
     barcode := barcode r |}.

Definition set_packing_group (v : option str) (r : ParsedRecord) : ParsedRecord :=
  {| product_name := product_name r; vendor := vendor r;
     quantity := quantity r; location := location r;
     cas_number := cas_number r; sds_available := sds_available r;
     issue_date := issue_date r;
     hazardous_substance := hazardous_substance r;
     dangerous_good := dangerous_good r;
     dangerous_goods_class := dangerous_goods_class r;
     description := description r; packing_group := v;
     subsidiary_risks := subsidiary_risks r; consequence := consequence r;
     likelihood := likelihood r; risk_rating := risk_rating r;
     swp_requirement := swp_requirement r; comments_swp := comments_swp r;
     barcode := barcode r |}.

Definition set_subsidiary_risks (v : option str) (r : ParsedRecord) : ParsedRecord :=
  {| product_name := product_name r; vendor := vendor r;
     quantity := quantity r; location := location r;
     cas_number := cas_number r; sds_available := sds_available r;
     issue_date := issue_date r;
     hazardous_substance := hazardous_substance r;
     dangerous_good := dangerous_good r;
     dangerous_goods_class := dangerous_goods_class r;
     description := description r; packing_group := packing_group r;
     subsidiary_risks := v; consequence := consequence r;
     likelihood := likelihood r; risk_rating := risk_rating r;
     swp_requirement := swp_requirement r; comments_swp := comments_swp r;
     barcode := barcode r |}.

Definition set_risk_rating (v : option str) (r : ParsedRecord) : ParsedRecord :=
  {| product_name := product_name r; vendor := vendor r;
     quantity := quantity r; location := location r;
     cas_number := cas_number r; sds_available := sds_available r;
     issue_date := issue_date r;
     hazardous_substance := hazardous_substance r;
     dangerous_good := dangerous_good r;
     dangerous_goods_class := dangerous_goods_class r;
     description := description r; packing_group := packing_group r;
     subsidiary_risks := subsidiary_risks r; consequence := consequence r;
     likelihood := likelihood r; risk_rating := v;
     swp_requirement := swp_requirement r; comments_swp := comments_swp r;
     barcode := barcode r |}.

Definition set_barcode (v : option str) (r : ParsedRecord) : ParsedRecord :=
  {| product_name := product_name r; vendor := vendor r;
     quantity := quantity r; location := location r;
     cas_number := cas_number r; sds_available := sds_available r;
     issue_date := issue_date r;
     hazardous_substance := hazardous_substance r;
     dangerous_good := dangerous_good r;
     dangerous_goods_class := dangerous_goods_class r;
     description := description r; packing_group := packing_group r;
     subsidiary_risks := subsidiary_risks r; consequence := consequence r;
     likelihood := likelihood r; risk_rating := risk_rating r;
     swp_requirement := swp_requirement r; comments_swp := comments_swp r;
     barcode := v |}.

(** [to_csv_row] *)
Definition to_csv_row (self : ParsedRecord) : list str :=
  [ or_empty (product_name self);
    or_empty (vendor self);
    or_empty (quantity self);
    or_empty (location self);
    or_empty (cas_number self);
    sds_available self;
    or_empty (issue_date self);
    or_empty (hazardous_substance self);
    or_empty (dangerous_good self);
    or_empty (dangerous_goods_class self);
    or_empty (description self);
    or_empty (packing_group self);
    or_empty (subsidiary_risks self);
    or_empty (consequence self);
    or_empty (likelihood self);
    or_empty (risk_rating self);
    or_empty (swp_requirement self);
    or_empty (comments_swp self);
    or_empty (barcode self) ].

(* ================================================================== *)
(** * UTILITIES *)

Section Utilities.
Import Re.

(** [normalize_whitespace]: a run of tabs and no-break spaces (U+00A0)
    becomes one space. *)
Definition tab_nbsp_run : Pattern :=
  compile (plus (Set_ false [CLit TAB; CLit NBSP])) [].

Definition normalize_whitespace (txt : str) : str :=
  sub tab_nbsp_run (t " ") txt.

(** [[g for g in m.groups() if g]] *)
Definition nonempty_groups (m : rmatch) : list str :=
  omap (fun g => match g with
                 | Some (c :: s) => Some (c :: s)
                 | _ => None
                 end) (groups m).

(** [[\s;:]+$] *)
Definition trailing_noise : Pattern :=
  compile (Cat (plus (Set_ false [CSpace; CLit ";"; CLit ":"])) Eol) [].

Fixpoint find_first (patterns : list Pattern) (text : str) : option str :=
  match patterns with
  | [] => None
  | pat :: patterns' =>
      match search pat text with
      | Some m =>
          let groups := nonempty_groups m in
          let value :=
            match last groups with
            | Some g => str_strip g
            | None => str_strip (group0 m)
            end in
          Some (sub trailing_noise [] value)
      | None => find_first patterns' text
      end
  end.

(** ** Dates: [datetime], [strptime], [strftime] *)

(** A [datetime] value; only its date part is read by the program. *)
Record datetime := Date { year : nat; month : nat; day : nat }.

Definition is_leap (y : nat) : bool :=
  (y mod 4 =? 0) && (negb (y mod 100 =? 0) || (y mod 400 =? 0)).

Definition days_in_month (y m : nat) : nat :=
  match m with
  | 1 | 3 | 5 | 7 | 8 | 10 | 12 => 31
  | 4 | 6 | 9 | 11 => 30
  | 2 => if is_leap y then 29 else 28
  | _ => 0
  end.

Definition valid_date (y m d : nat) : bool :=
  between 1 9999 y && between 1 12 m && between 1 (days_in_month y m) d.

(** [datetime(year, month, day)]: [None] stands for [ValueError]. *)
Definition mk_datetime (y m d : nat) : option datetime :=
  if valid_date y m d then Some (Date y m d) else None.

(** [int(s)] of a run of decimal digits, blanks around it ignored; [None]
    stands for [ValueError]. *)
Fixpoint int_digits (acc : nat) (s : str) : option nat :=
  match s with
  | [] => Some acc
  | c :: s' =>
      if isdigit c then int_digits (10 * acc + (code c - 48)) s' else None
  end.

Definition py_int (s : str) : option nat :=
  match str_strip s with
  | [] => None
  | s' => int_digits 0 s'
  end.

Definition dec_digit (n : nat) : ascii := chr (48 + n mod 10).

(** [str(n)] *)
Fixpoint dec_fuel (fuel n : nat) (acc : str) : str :=
  match fuel with
  | 0 => acc
  | S fuel' =>
      let acc' := dec_digit n :: acc in
      if n <? 10 then acc' else dec_fuel fuel' (n / 10) acc'
  end.

Definition str_of_nat (n : nat) : str := dec_fuel (S n) n [].

Definition pad2 (n : nat) : str := [dec_digit (n / 10); dec_digit n].

Definition pad4 (n : nat) : str :=
  [dec_digit (n / 1000); dec_digit (n / 100); dec_digit (n / 10); dec_digit n].

(** [dt.strftime("%d/%m/%Y")]: day and month on two digits, zero-filled;
    the year as the C library of the platform prints it, which under Linux
    is without leading zeros, so that a year below 1000 comes out on fewer
    than four digits. *)
Definition strftime_dmY (dt : datetime) : str :=
  pad2 (day dt) ++ t "/" ++ pad2 (month dt) ++ t "/" ++ str_of_nat (year dt).

(** The directives of the formats in [DATE_FORMATS_IN]. *)
Inductive directive := Dd | Dm | DY | Dy.

Inductive fmt_item :=
  | Dir (d : directive)
  | Chr (c : ascii).

(** Reading a format string; [None] for a directive outside the four. *)
Fixpoint parse_format (s : str) : option (list fmt_item) :=
  match s with
  | [] => Some []
  | c :: s' =>
      if chr_eqb c "%" then
        match s' with
        | d :: s'' =>
            let dir :=
              if chr_eqb d "d" then Some Dd
              else if chr_eqb d "m" then Some Dm
              else if chr_eqb d "Y" then Some DY
              else if chr_eqb d "y" then Some Dy
              else None in
            match dir, parse_format s'' with
            | Some x, Some l => Some (Dir x :: l)
            | _, _ => None
            end
        | [] => None
        end
      else
        match parse_format s' with
        | Some l => Some (Chr c :: l)
        | None => None
        end
  end.

Definition group_of (d : directive) : nat :=
  match d with
  | Dd => 1
  | Dm => 2
  | DY => 3
  | Dy => 4
  end.

Definition range (lo hi : ascii) : regex := Set_ false [CRange lo hi].

(** The regular expression [strptime] puts for a directive:
    [%d] is [(3[0-1]|[1-2]\d|0[1-9]|[1-9]| [1-9])],
    [%m] is [(1[0-2]|0[1-9]|[1-9])], [%Y] is [(\d\d\d\d)],
    [%y] is [(\d\d)]. *)
Definition directive_regex (d : directive) : regex :=
  Grp (group_of d)
    match d with
    | Dd => alts [ Cat (Lit "3") (range "0" "1");
                   Cat (range "1" "2") digit;
                   Cat (Lit "0") (range "1" "9");
                   range "1" "9";
                   Cat (Lit " ") (range "1" "9") ]
    | Dm => alts [ Cat (Lit "1") (range "0" "2");
                   Cat (Lit "0") (range "1" "9");
                   range "1" "9" ]
    | DY => seq_ [digit; digit; digit; digit]
    | Dy => seq_ [digit; digit]
    end.

Definition format_regex (f : list fmt_item) : Pattern :=
  compile (seq_ (map (fun it => match it with
                                | Dir d => directive_regex d
                                | Chr c => Lit c
                                end) f)) [re_I].

(** [datetime.strptime(data_string, format)]: the format's expression must
    match at the start and leave nothing unconverted, and the fields must
    make a date.  [None] stands for [ValueError]. *)
Definition strptime (data_string format : str) : option datetime :=
  match parse_format format with
  | None => None
  | Some f =>
      match match_ (format_regex f) data_string with
      | None => None
      | Some found =>
          if negb (length (group0 found) =? length data_string) then None
          else
            let field d := match group (group_of d) found with
                           | Some g => py_int g
                           | None => None
                           end in
            let year :=
              match field DY, field Dy with
              | Some y, _ => Some y
              | None, Some y => Some (if y <=? 68 then y + 2000 else y + 1900)
              | None, None => None
              end in
            match year, field Dm, field Dd with
            | Some y, Some m, Some d => mk_datetime y m d
            | _, _, _ => None
            end
      end
  end.

(** The loop over [DATE_FORMATS_IN]: the first format that parses wins. *)
Fixpoint try_formats (formats : list str) (raw_clean : str) : option datetime :=
  match formats with
  | [] => None
  | fmt :: formats' =>
      match strptime raw_clean fmt with
      | Some dt => Some dt
      | None => try_formats formats' raw_clean
      end
  end.

(** [(\d{1,2})/(\d{1,2})/(\d{2,4})] *)
Definition loose_date : Pattern :=
  compile (seq_ [ Grp 1 (Rep 1 (Some 2) digit); Lit "/";
                  Grp 2 (Rep 1 (Some 2) digit); Lit "/";
                  Grp 3 (Rep 2 (Some 4) digit) ]) [].

Definition parse_date (raw : option str) : option str :=
  match raw with
  | None | Some [] => None
  | Some raw =>
      let raw_clean := replace_hyphen (str_strip raw) in
      match try_formats DATE_FORMATS_IN raw_clean with
      | Some dt => Some (strftime_dmY dt)
      | None =>
          match search loose_date raw_clean with
          | Some m =>
              let day := or_empty (group 1 m) in
              let month := or_empty (group 2 m) in
              let year := or_empty (group 3 m) in
              let year := if length year =? 2 then t "20" ++ year else year in
              match py_int year, py_int month, py_int day with
              | Some y, Some mo, Some d =>
                  match mk_datetime y mo d with
                  | Some dt => Some (strftime_dmY dt)
                  | None => Some raw_clean
                  end
              | _, _, _ => Some raw_clean
              end
          | None => Some raw_clean
          end
      end
  end.

End Utilities.

Section Normalisers.
Import Re.

(** ** [extract_description] *)

(** The line boundaries of [str.splitlines()]. *)
Definition is_linebreak (c : ascii) : bool :=
  let n := code c in
  between 10 13 n || between 28 30 n || (n =? 133).

(** [s.splitlines()]; [cur] is the line being read, last character first. *)
Fixpoint splitlines_from (cur s : str) : list str :=
  match s with
  | [] => match cur with [] => [] | _ => [rev cur] end
  | c :: s' =>
      if chr_eqb c CR then
        match s' with
        | c' :: s'' =>
            if chr_eqb c' LF then rev cur :: splitlines_from [] s''
            else rev cur :: splitlines_from [] s'
        | [] => [rev cur]
        end
      else if is_linebreak c then rev cur :: splitlines_from [] s'
      else splitlines_from (c :: cur) s'
  end.

Definition splitlines (s : str) : list str := splitlines_from [] s.

(** [sep.join(l)] *)
Fixpoint join (sep : str) (l : list str) : str :=
  match l with
  | [] => []
  | [x] => x
  | x :: l' => x ++ sep ++ join sep l'
  end.

(** The loop that keeps the first occurrence of each line. *)
Fixpoint dedupe (seen : list str) (selected : list str) : list str :=
  match selected with
  | [] => []
  | s :: selected' =>
      if existsb (str_eqb s) seen then dedupe seen selected'
      else s :: dedupe (s :: seen) selected'
  end.

(** [\bH\d{3}\b] *)
Definition hazard_code : Pattern :=
  compile (seq_ [WordB; Lit "H"; Rep 3 (Some 3) digit; WordB]) [].

(** [(Danger|Warning)\b] *)
Definition signal_word : Pattern :=
  compile (Cat (Grp 1 (Alt (word "Danger") (word "Warning"))) WordB) [].

(** [\s*;\s*] *)
Definition spaced_semicolon : Pattern :=
  compile (seq_ [star space; Lit ";"; star space]) [].

(** [(; ){2,}] *)
Definition repeated_separator : Pattern :=
  compile (Rep 2 None (Grp 1 (word "; "))) [].

Definition is_some {A} (o : option A) : bool :=
  match o with
  | Some _ => true
  | None => false
  end.

Definition extract_description (text : str) : option str :=
  let section2_block := find_first (PATTERNS_get "description_section2") text in
  if negb (truthy section2_block) then None
  else
    let lines :=
      map str_strip
        (filter (fun l => truthy (Some (str_strip l)))
                (splitlines (or_empty section2_block))) in
    let selected :=
      filter (fun l => is_some (search hazard_code l)
                       || is_some (search signal_word l)) lines in
    let selected :=
      match selected with
      | [] => take 3 lines
      | _ => selected
      end in
    let out := dedupe [] selected in
    let desc := take 800 (join (t "; ") out) in
    let desc := sub spaced_semicolon (t "; ") desc in
    let desc := sub repeated_separator (t "; ") desc in
    Some desc.

(** ** [compute_risk_rating] *)

(** [d.get(key)] on a dictionary written as its list of items. *)
Fixpoint dict_get {V} (d : list (str * V)) (key : str) : option V :=
  match d with
  | [] => None
  | (k, v) :: d' => if str_eqb k key then Some v else dict_get d' key
  end.

Definition cons_map : list (str * nat) :=
  [ (t "insignificant", 1);
    (t "minor", 2);
    (t "moderate", 3);
    (t "major", 4);
    (t "severe", 5) ].

Definition lik_map : list (str * nat) :=
  [ (t "rare", 1);
    (t "unlikely", 2);
    (t "possible", 3);
    (t "likely", 4);
    (t "almost certain", 5) ].

(** [f"{label} ({score})"] *)
Definition rating (label : string) (score : nat) : str :=
  t label ++ t " (" ++ str_of_nat score ++ t ")".

Definition compute_risk_rating (consequence likelihood : option str)
    : option str :=
  if negb (truthy consequence) || negb (truthy likelihood) then None
  else
    let c := dict_get cons_map (str_lower (str_strip (or_empty consequence))) in
    let l := dict_get lik_map (str_lower (str_strip (or_empty likelihood))) in
    match c, l with
    | Some c, Some l =>
        let score := c * l in
        if score <=? 4 then Some (rating "Low" score)
        else if score <=? 9 then Some (rating "Medium" score)
        else if score <=? 16 then Some (rating "High" score)
        else Some (rating "Extreme" score)
    | _, _ => None
    end.

End Normalisers.

(* ================================================================== *)
(** * The record assembler *)

Section Assembler.
Import Re.

(** [re.search(pattern, text, re.I)] *)
Definition found_I (r : regex) (text : str) : bool :=
  is_some (search (compile r [re_I]) text).

Definition not_hazardous : regex := word "Not classified as Hazardous".
Definition hazardous : regex :=
  Alt (word "Classified as Hazardous") (word "Hazardous according to").
Definition not_dangerous : regex := word "Not classified as Dangerous Goods".
Definition dangerous : regex :=
  Alt (word "Classified as Dangerous Goods")
      (word "Dangerous Goods according to").

(** [Packing\s+Group\s*(I{1,3}|II|III)\b] *)
Definition packing_group_inferred : Pattern :=
  compile (seq_ [ word "Packing"; plus space; word "Group"; star space;
                  roman 1; WordB ]) [re_I].

(** [infer_flags]: the record is changed in place in the source; here the
    changed record is returned. *)
Definition infer_flags (record : ParsedRecord) (text_norm : str)
    : ParsedRecord :=
  let record :=
    if negb (truthy (hazardous_substance record)) then
      if found_I not_hazardous text_norm
      then set_hazardous_substance (Some (t "No")) record
      else if found_I hazardous text_norm
      then set_hazardous_substance (Some (t "Yes")) record
      else record
    else record in
  let record :=
    if negb (truthy (dangerous_good record)) then
      if found_I not_dangerous text_norm
      then set_dangerous_good (Some (t "No")) record
      else if found_I dangerous text_norm
              || truthy (dangerous_goods_class record)
      then set_dangerous_good (Some (t "Yes")) record
      else record
    else record in
  if negb (truthy (packing_group record)) then
    match search packing_group_inferred text_norm with
    | Some m => set_packing_group (option_map str_upper (group 1 m)) record
    | None => record
    end
  else record.

Definition extract_fields (text : str) : ParsedRecord :=
  let text_norm := normalize_whitespace text in
  let record := ParsedRecord_new in
  let record := set_product_name
                  (find_first (PATTERNS_get "product_name") text_norm) record in
  let record := set_vendor (find_first (PATTERNS_get "vendor") text_norm) record in
  let record := set_quantity None record in
  let record := set_location None record in
  let record := set_cas_number
                  (find_first (PATTERNS_get "cas_number") text_norm) record in
  let raw_issue := find_first (PATTERNS_get "issue_date") text_norm in
  let record := set_issue_date (parse_date raw_issue) record in
  let record := set_hazardous_substance
                  (find_first (PATTERNS_get "hazardous_substance") text_norm)
                  record in
  let record := set_dangerous_good
                  (find_first (PATTERNS_get "dangerous_good") text_norm)
                  record in
  let record := set_dangerous_goods_class
                  (find_first (PATTERNS_get "dangerous_goods_class") text_norm)
                  record in
  let record :=
    if truthy (dangerous_goods_class record)
       && contains (t "ification")
            (str_lower (or_empty (dangerous_goods_class record)))
    then set_dangerous_goods_class None record
    else record in
  let record := set_packing_group
                  (find_first (PATTERNS_get "packing_group") text_norm)
                  record in
  let record := set_subsidiary_risks
                  (find_first (PATTERNS_get "subsidiary_risks") text_norm)
                  record in
  let record := set_description (extract_description text_norm) record in
  let record := infer_flags record text_norm in
  set_risk_rating
    (compute_risk_rating (consequence record) (likelihood record)) record.

End Assembler.

(* ================================================================== *)
(** * CSV OUTPUT *)

(** The register file is modelled by the rows [csv.reader] yields from it
    and [csv.writer] adds to it, a row being its list of values; the file
    system maps a path to the regular file at it. *)
Abbreviation row := (list str).
Abbreviation files := (gmap string (list row)).

(** The file system with no file in it. *)
Definition no_files : files := empty.

(** What [logger.info] is told. *)
Inductive log_event :=
  | Skipping_duplicate (barcode : str)
  | Appended_record (barcode : option str).

(** A row of [csv.DictReader] as the items of its dictionary, a later item
    for a key replacing an earlier one: the values under the field names,
    then [None] under each field name the row is too short for.  The values
    a row has beyond the field names are kept by the reader under the key
    [None], which is no field name, and are left out here. *)
Definition dict_row (fieldnames : row) (r : row) : list (str * option str) :=
  zip fieldnames (map Some r)
  ++ map (fun key => (key, None)) (drop (length r) fieldnames).

(** [row.get(key)] *)
Definition row_get (d : list (str * option str)) (key : str) : option str :=
  match dict_get (rev d) key with
  | Some v => v
  | None => None
  end.

(** The rows [csv.DictReader(f)] iterates over: the first row of the file
    gives the field names, blank rows are skipped. *)
Definition DictReader (f : list row) : list (list (str * option str)) :=
  match f with
  | [] => []
  | fieldnames :: rows =>
      map (dict_row fieldnames)
          (filter (fun r => negb (bool_decide (r = []))) rows)
  end.

Definition append_record_to_csv (record : ParsedRecord) (path : string)
    (fs : files) : files * log_event :=
  let new_row := to_csv_row record in
  let duplicate :=
    match fs !! path with
    | Some f =>
        existsb (fun r => truthy (barcode record)
                          && bool_decide (row_get r (t "Barcode") = barcode record))
                (DictReader f)
    | None => false
    end in
  if duplicate then (fs, Skipping_duplicate (or_empty (barcode record)))
  else
    let written :=
      match fs !! path with
      | Some f => f ++ [new_row]
      | None => [REGISTER_HEADERS; new_row]
      end in
    (<[path := written]> fs, Appended_record (barcode record)).

(** [record_to_register_row_dict] *)
Definition record_to_register_row_dict (record : ParsedRecord)
    : list (str * str) :=
  zip REGISTER_HEADERS (to_csv_row record).

(* ================================================================== *)
(** * The matcher read as a relation *)

Section Relation.
Import Re.

(** What a successful run of [mtch] went through, as a relation between
    the state before a piece of the pattern and the state after it. *)
Inductive Matches (fl : list flag) : regex -> mstate -> mstate -> Prop :=
  | M_Empty s : Matches fl Empty s s
  | M_Lit c x xs p cs :
      lit_match fl c x = true ->
      Matches fl (Lit c) (MState p (x :: xs) cs) (MState (x :: p) xs cs)
  | M_Dot x xs p cs :
      dot_match fl x = true ->
      Matches fl Dot (MState p (x :: xs) cs) (MState (x :: p) xs cs)
  | M_Set neg items x xs p cs :
      set_match fl neg items x = true ->
      Matches fl (Set_ neg items) (MState p (x :: xs) cs) (MState (x :: p) xs cs)
  | M_Cat a b s1 s2 s3 :
      Matches fl a s1 s2 -> Matches fl b s2 s3 -> Matches fl (Cat a b) s1 s3
  | M_AltL a b s1 s2 : Matches fl a s1 s2 -> Matches fl (Alt a b) s1 s2
  | M_AltR a b s1 s2 : Matches fl b s1 s2 -> Matches fl (Alt a b) s1 s2
  | M_RepDone hi a s : Matches fl (Rep 0 hi a) s s
  | M_RepMore lo hi a s1 s2 s3 :
      hi_zero hi = false ->
      Matches fl a s1 s2 ->
      Matches fl (Rep (Nat.pred lo) (dec_hi hi) a) s2 s3 ->
      Matches fl (Rep lo hi a) s1 s3
  | M_Grp i a s1 s2 :
      Matches fl a s1 s2 -> Matches fl (Grp i a) s1 (set_cap i (span s1 s2) s2)
  | M_Bol s : at_bol fl s = true -> Matches fl Bol s s
  | M_Eol s : at_eol fl s = true -> Matches fl Eol s s
  | M_WordB s : at_boundary s = true -> Matches fl WordB s s.

End Relation.

(** ** Two checks on a pattern, decided by running through the characters *)

Definition all_chars (q : ascii -> bool) : bool :=
  forallb (fun n => q (chr n)) (seq 0 256).

(** Whitespace, semicolon or colon: what a value is relieved of. *)
Definition is_noise (c : ascii) : bool :=
  isspace c || chr_eqb c ";" || chr_eqb c ":".

(** A character test that accepts none of these. *)
Definition clean_class (test : ascii -> bool) : bool :=
  all_chars (fun x => implb (test x) (negb (is_noise x))).

(** Every match of the pattern goes over a character that is none of
    these. *)
Fixpoint hits (fl : list Re.flag) (r : Re.regex) : bool :=
  match r with
  | Re.Lit c => clean_class (Re.lit_match fl c)
  | Re.Set_ neg items => clean_class (Re.set_match fl neg items)
  | Re.Cat a b => hits fl a || hits fl b
  | Re.Alt a b => hits fl a && hits fl b
  | Re.Rep lo _ a => negb (lo =? 0) && hits fl a
  | Re.Grp _ a => hits fl a
  | _ => false
  end.

(** So does every group of the pattern. *)
Fixpoint groups_hit (fl : list Re.flag) (r : Re.regex) : bool :=
  match r with
  | Re.Cat a b | Re.Alt a b => groups_hit fl a && groups_hit fl b
  | Re.Rep _ _ a => groups_hit fl a
  | Re.Grp _ a => hits fl a && groups_hit fl a
  | _ => true
  end.

(** A text that holds a character other than noise. *)
Definition has_clean (w : str) : Prop := Exists (fun c => is_noise c = false) w.

(** What a group holds after a match of a pattern whose groups hit. *)
Definition group_clean (g : option str) : Prop :=
  forall w, g = Some w -> has_clean w.

Definition hit (p : Re.Pattern) : bool := hits (Re.flags p) (Re.pat p).

Definition hit_with_groups (p : Re.Pattern) : bool :=
  hit p && groups_hit (Re.flags p) (Re.pat p).

(* ================================================================== *)
(** * The entry points, from the extracted text on *)

(** [HTTPException(status_code=..., detail=...)] *)
Inductive HTTPException := HTTP (status_code : nat) (detail : string).

(** [parse_sds] once the text of the upload has been extracted:
    [output_csv] is [OUTPUT_CSV], the answer is the register row.  The two
    refusals carry the same status code and differ by their detail. *)
Definition parse_sds_text (output_csv : string) (text : str) (fs : files)
    : HTTPException + (list (str * str) * files) :=
  if negb (truthy (Some (str_strip text)))
  then inl (HTTP 422 "No extractable text in PDF (try OCR install)")
  else
    let record := extract_fields text in
    if negb (truthy (product_name record) || truthy (vendor record))
    then inl (HTTP 422 "Could not detect minimum fields; tune patterns")
    else
      let fs' := fst (append_record_to_csv record output_csv fs) in
      inr (record_to_register_row_dict record, fs').

(** The body of the command-line loop once the text of one file has been
    extracted. *)
Definition cli_text (csv : string) (barcode : option str) (text : str)
    (fs : files) : files * log_event :=
  let rec := extract_fields text in
  let rec := set_barcode barcode rec in
  append_record_to_csv rec csv fs.

(* ================================================================== *)
(** * Notions of the specification *)

(** A text that is empty or made of whitespace only. *)
Definition whitespace_only (text : str) : Prop :=
  Forall (fun c => isspace c = true) text.

Fixpoint drop_leading (p : ascii -> bool) (s : str) : str :=
  match s with
  | c :: s' => if p c then drop_leading p s' else s
  | [] => []
  end.

(** [s] without its trailing run of characters that satisfy [p]. *)
Definition drop_trailing (p : ascii -> bool) (s : str) : str :=
  rev (drop_leading p (rev s)).

(** A text that does not end in a character [find_first] removes. *)
Definition ends_clean (u : str) : Prop :=
  match last u with
  | Some c => is_noise c = false
  | None => True
  end.

(** A group that captured nothing, or the empty string. *)
Definition empty_group (g : option str) : Prop := g = None \/ g = Some [].

(** The value a match selects: its last non-empty group, the whole
    matched span when no group is non-empty. *)
Inductive selected (m : Re.rmatch) : str -> Prop :=
  | selected_group gs1 g gs2 :
      Re.groups m = gs1 ++ Some g :: gs2 -> g <> [] ->
      Forall empty_group gs2 -> selected m g
  | selected_span :
      Forall empty_group (Re.groups m) -> selected m (Re.group0 m).

(** A value trimmed, then relieved of its trailing noise. *)
Definition cleaned (v : str) : str := drop_trailing is_noise (str_strip v).

(** The ordinal tables of the risk matrix, the first word standing for 1. *)
Definition consequence_words : list str :=
  [ t "insignificant"; t "minor"; t "moderate"; t "major"; t "severe" ].

Definition likelihood_words : list str :=
  [ t "rare"; t "unlikely"; t "possible"; t "likely"; t "almost certain" ].

Fixpoint ordinal (table : list str) (w : str) : option nat :=
  match table with
  | [] => None
  | x :: table' =>
      if str_eqb x w then Some 1 else option_map S (ordinal table' w)
  end.

(** The ordinal of an input: trimmed, letter case ignored. *)
Definition recognised (table : list str) (input : option str) : option nat :=
  match input with
  | Some s => ordinal table (str_lower (str_strip s))
  | None => None
  end.

(** The inclusive score bands. *)
Inductive band : nat -> string -> Prop :=
  | band_low n : 1 <= n <= 4 -> band n "Low"
  | band_medium n : 5 <= n <= 9 -> band n "Medium"
  | band_high n : 10 <= n <= 16 -> band n "High"
  | band_extreme n : 17 <= n <= 25 -> band n "Extreme".

(** The canonical rendering DD/MM/YYYY of a date. *)
Definition canonical (y m d : nat) : str :=
  pad2 d ++ t "/" ++ pad2 m ++ t "/" ++ pad4 y.

(** The date [parse_date] reads in the cleaned string, if it reads one:
    by the first of the formats that applies, else out of the first match
    of the loose expression. *)
Definition read_date (raw_clean : str) : option datetime :=
  match try_formats DATE_FORMATS_IN raw_clean with
  | Some dt => Some dt
  | None =>
      match Re.search loose_date raw_clean with
      | Some m =>
          let day := or_empty (Re.group 1 m) in
          let month := or_empty (Re.group 2 m) in
          let year := or_empty (Re.group 3 m) in
          let year := if length year =? 2 then t "20" ++ year else year in
          match py_int year, py_int month, py_int day with
          | Some y, Some mo, Some d => mk_datetime y mo d
          | _, _, _ => None
          end
      | None => None
      end
  end.

(** What [parse_date] makes of the cleaned string. *)
Definition parse_clean (raw_clean : str) : str :=
  match read_date raw_clean with
  | Some dt => strftime_dmY dt
  | None => raw_clean
  end.

(** A text that does not start with whitespace. *)
Definition starts_clear (s : str) : Prop :=
  match s with
  | c :: _ => isspace c = false
  | [] => True
  end.

(** A field as the register shows it: the empty string when unset. *)
Definition shown (field : option str) : str :=
  match field with
  | Some s => s
  | None => []
  end.

(* ================================================================== *)
(** * The command-line loop and the older register module *)

(** The loop of the command-line entry point over the texts of the files
    given, [barcode] being [args.barcode] and [csv] being [args.csv]: the
    dictionaries collected in [parsed], and the files as left. *)
Fixpoint cli_main (csv : string) (barcode : option str) (texts : list str)
    (fs : files) : list (list (str * str)) * files :=
  match texts with
  | [] => ([], fs)
  | text :: texts' =>
      let rec := extract_fields text in
      let rec := set_barcode barcode rec in
      let fs := fst (append_record_to_csv rec csv fs) in
      let '(parsed, fs) := cli_main csv barcode texts' fs in
      (record_to_register_row_dict rec :: parsed, fs)
  end.

(** [register.py]: the register of seven columns. *)
Module Register.

Definition REGISTER_HEADERS : list str :=
  [ t "Product Name";
    t "Vendor / Manufacturer";
    t "Quantity";
    t "Location";
    t "CAS Number";
    t "Last Revision";
    t "Barcode" ].

Record ParsedRecord := {
  product_name : str;
  vendor : str;
  quantity : str;
  location : str;
  cas_number : str;
  last_revision : str;
  barcode : str
}.

Definition to_csv_row (self : ParsedRecord) : list str :=
  [ product_name self;
    vendor self;
    quantity self;
    location self;
    cas_number self;
    last_revision self;
    barcode self ].

Definition append_record_to_csv (record : ParsedRecord) (path : string)
    (fs : files) : files * log_event :=
  let new_row := to_csv_row record in
  let duplicate :=
    match fs !! path with
    | Some f =>
        existsb (fun r => truthy (Some (barcode record))
                          && bool_decide (row_get r (t "Barcode")
                                          = Some (barcode record)))
                (DictReader f)
    | None => false
    end in
  if duplicate then (fs, Skipping_duplicate (barcode record))
  else
    let written :=
      match fs !! path with
      | Some f => f ++ [new_row]
      | None => [REGISTER_HEADERS; new_row]
      end in
    (<[path := written]> fs, Appended_record (Some (barcode record))).

End Register.

(* ================================================================== *)
(** * Further notions *)

(** A tab or a no-break space. *)
Definition is_tab_nbsp (c : ascii) : bool := chr_eqb c TAB || chr_eqb c NBSP.

(** The text with each run of tabs and no-break spaces read as one space;
    [in_run] tells that the run has begun. *)
Fixpoint collapse (in_run : bool) (s : str) : str :=
  match s with
  | [] => []
  | c :: s' =>
      if is_tab_nbsp c
      then if in_run then collapse true s' else " "%char :: collapse true s'
      else c :: collapse false s'
  end.

(** A contiguous piece of a text. *)
Definition infix (w text : str) : Prop := exists a b, text = a ++ w ++ b.

(** The century [strptime] gives a year written with two digits. *)
Definition pivot (yy : nat) : nat := if yy <=? 68 then yy + 2000 else yy + 1900.

(** A day, a month and a year of two digits, written DD/MM/YY. *)
Definition short_date (yy m d : nat) : str :=
  pad2 d ++ t "/" ++ pad2 m ++ t "/" ++ pad2 yy.

(** A month, a day and a year of four digits, written MM/DD/YYYY. *)
Definition month_first (y m d : nat) : str :=
  pad2 m ++ t "/" ++ pad2 d ++ t "/" ++ pad4 y.

(** The head of what is left after a run. *)
Definition run_over (p : ascii -> bool) (tl : str) : Prop :=
  match tl with
  | c :: _ => p c = false
  | [] => True
  end.

(** The text a state of the matcher is a position of. *)
Definition whole (s : Re.mstate) : str := rev (Re.pre s) ++ Re.rest s.

(** A group that holds a piece of the text, if it holds anything. *)
Definition group_in (text : str) (g : option str) : Prop :=
  forall w, g = Some w -> infix w text.

(** The three blocks of [infer_flags], lines 308-312, 313-317 and 318-321. *)
Definition infer_hazardous (text_norm : str) (record : ParsedRecord)
    : ParsedRecord :=
  if negb (truthy (hazardous_substance record)) then
    if found_I not_hazardous text_norm
    then set_hazardous_substance (Some (t "No")) record
    else if found_I hazardous text_norm
    then set_hazardous_substance (Some (t "Yes")) record
    else record
  else record.

Definition infer_dangerous (text_norm : str) (record : ParsedRecord)
    : ParsedRecord :=
  if negb (truthy (dangerous_good record)) then
    if found_I not_dangerous text_norm
    then set_dangerous_good (Some (t "No")) record
    else if found_I dangerous text_norm
            || truthy (dangerous_goods_class record)
    then set_dangerous_good (Some (t "Yes")) record
    else record
  else record.

Definition infer_packing (text_norm : str) (record : ParsedRecord)
    : ParsedRecord :=
  if negb (truthy (packing_group record)) then
    match Re.search packing_group_inferred text_norm with
    | Some m => set_packing_group (option_map str_upper (Re.group 1 m)) record
    | None => record
    end
  else record.

(** A Roman numeral of the packing groups. *)
Definition is_roman (w : str) : Prop := w = t "I" \/ w = t "II" \/ w = t "III".

(* ================================================================== *)
(** * Optional strings *)

Lemma or_empty_shown (field : option str) : or_empty field = shown field.
Proof. destruct field as [[|c s]|]; reflexivity. Qed.

Lemma truthy_false (field : option str) :
  truthy field = false <-> field = None \/ field = Some [].
Proof.
  destruct field as [[|c s]|]; cbn; split; auto; try discriminate.
  intros [H|H]; discriminate.
Qed.

Lemma truthy_true (field : option str) :
  truthy field = true <-> exists b, field = Some b /\ b <> [].
Proof.
  destruct field as [[|c s]|]; cbn; split; try discriminate.
  - intros (b & [= <-] & Hb). congruence.
  - eauto.
  - intros (b & [= <-] & Hb). reflexivity.
  - intros (b & H & _). discriminate.
Qed.

(* ================================================================== *)
(** * Facts about the matcher *)

Section Soundness.
Import Re.

#[local] Hint Constructors Matches : core.

Lemma eat_sound p k s res :
  eat p k s = Some res ->
  exists x xs, rest s = x :: xs /\ p x = true
               /\ k (MState (x :: pre s) xs (caps s)) = Some res.
Proof.
  unfold eat. destruct (rest s) as [|x xs]; [discriminate|].
  destruct (p x) eqn:Hp; [|discriminate]. eauto.
Qed.

Lemma guard_sound b k s res : guard b k s = Some res -> b = true /\ k s = Some res.
Proof. unfold guard. destruct b; [auto | discriminate]. Qed.

Lemma orelse_sound a b res :
  orelse a b = Some res -> a = Some res \/ b = Some res.
Proof. unfold orelse. destruct a; auto. Qed.

Lemma rep_loop_sound fl a body :
  (forall k s res, body k s = Some res ->
     exists s', Matches fl a s s' /\ k s' = Some res) ->
  forall fuel lo hi k s res,
    rep_loop body fuel lo hi k s = Some res ->
    exists s', Matches fl (Rep lo hi a) s s' /\ k s' = Some res.
Proof.
  intros Hbody. induction fuel as [|fuel IH]; intros lo hi k s res H; simpl in H.
  - apply guard_sound in H as [Hlo Hk]. apply Nat.eqb_eq in Hlo. subst lo. eauto.
  - destruct (hi_zero hi) eqn:Hhi.
    + apply guard_sound in H as [Hlo Hk]. apply Nat.eqb_eq in Hlo. subst lo. eauto.
    + apply orelse_sound in H as [H|H].
      * apply Hbody in H as (s1 & Hm & H).
        destruct (length (rest s1) <? length (rest s)); [|discriminate].
        apply IH in H as (s2 & Hm2 & Hk). eauto.
      * apply guard_sound in H as [Hlo Hk]. apply Nat.eqb_eq in Hlo. subst lo. eauto.
Qed.

(** Every result of [mtch] comes from a match of the piece followed by a
    successful continuation. *)
Lemma mtch_sound fl r :
  forall k s res, mtch fl r k s = Some res ->
    exists s', Matches fl r s s' /\ k s' = Some res.
Proof.
  induction r as [|c| |neg items|a IHa b IHb|a IHa b IHb|lo hi a IHa|i a IHa| | |];
    intros k s res H; cbn [mtch] in H.
  - eauto.
  - apply eat_sound in H as (x & xs & Hr & Hp & Hk). destruct s; simpl in *; subst. eauto.
  - apply eat_sound in H as (x & xs & Hr & Hp & Hk). destruct s; simpl in *; subst. eauto.
  - apply eat_sound in H as (x & xs & Hr & Hp & Hk). destruct s; simpl in *; subst. eauto.
  - apply IHa in H as (s1 & Hm1 & H). apply IHb in H as (s2 & Hm2 & H). eauto.
  - apply orelse_sound in H as [H|H]; [apply IHa in H | apply IHb in H];
      destruct H as (s1 & Hm & Hk); eauto.
  - eapply rep_loop_sound in H; eauto.
  - apply IHa in H as (s1 & Hm & Hk). eauto.
  - apply guard_sound in H as [Hb Hk]. eauto.
  - apply guard_sound in H as [Hb Hk]. eauto.
  - apply guard_sound in H as [Hb Hk]. eauto.
Qed.

(** The text a match went over: it is taken off the front of [rest] and
    put, reversed, on the front of [pre]. *)
Lemma Matches_span fl r s s' :
  Matches fl r s s' ->
  exists w, rest s = w ++ rest s' /\ pre s' = rev w ++ pre s /\ span s s' = w.
Proof.
  assert (Hspan : forall (w r : str), take (length (w ++ r) - length r) (w ++ r) = w).
  { intros w r0. rewrite length_app, Nat.add_sub. apply take_app_length. }
  induction 1 as [ | | | |a b s1 s2 s3 _ IH1 _ IH2| | | |lo hi a s1 s2 s3 _ _ IH1 _ IH2
                  |i a s1 s2 _ IH| | | ]; simpl.
  1, 8, 11, 12, 13: exists []; unfold span; simpl; rewrite Nat.sub_diag; auto.
  1, 2, 3: exists [x]; unfold span; simpl;
    replace (S (length xs) - length xs) with 1 by lia; auto.
  - destruct IH1 as (w1 & E1 & E1' & _), IH2 as (w2 & E2 & E2' & _).
    exists (w1 ++ w2). unfold span. rewrite E1, E2, E2', E1', rev_app_distr, <- !app_assoc.
    split; [auto|split; [auto|]]. rewrite app_assoc. apply Hspan.
  - auto.
  - auto.
  - destruct IH1 as (w1 & E1 & E1' & _), IH2 as (w2 & E2 & E2' & _).
    exists (w1 ++ w2). unfold span. rewrite E1, E2, E2', E1', rev_app_distr, <- !app_assoc.
    split; [auto|split; [auto|]]. rewrite app_assoc. apply Hspan.
  - destruct IH as (w & E1 & E1' & E1''). exists w.
    unfold span in *. simpl. auto.
Qed.

Lemma rep_loop_ext (body : cont -> cont) :
  (forall k1 k2 s, (forall s', k1 s' = k2 s') -> body k1 s = body k2 s) ->
  forall fuel lo hi k1 k2 s,
    (forall s', k1 s' = k2 s') ->
    rep_loop body fuel lo hi k1 s = rep_loop body fuel lo hi k2 s.
Proof.
  intros Hbody. induction fuel as [|fuel IH]; intros lo hi k1 k2 s Hk; cbn [rep_loop].
  - unfold guard. rewrite Hk. reflexivity.
  - unfold guard. rewrite Hk.
    rewrite (Hbody _ (fun s' => if length (rest s') <? length (rest s)
                                then rep_loop body fuel (Nat.pred lo) (dec_hi hi) k2 s'
                                else None)); [reflexivity|].
    intros s'. destruct (_ <? _); [|reflexivity]. apply IH. exact Hk.
Qed.

(** The matcher depends on its continuation only through its values. *)
Lemma mtch_ext fl r :
  forall k1 k2 s, (forall s', k1 s' = k2 s') -> mtch fl r k1 s = mtch fl r k2 s.
Proof.
  induction r as [|c| |neg items|a IHa b IHb|a IHa b IHb|lo hi a IHa|i a IHa| | |];
    intros k1 k2 s Hk; cbn [mtch]; unfold eat, guard;
    rewrite ?Hk; try reflexivity.
  - destruct (rest s); [reflexivity|]. rewrite Hk. reflexivity.
  - destruct (rest s); [reflexivity|]. rewrite Hk. reflexivity.
  - destruct (rest s); [reflexivity|]. rewrite Hk. reflexivity.
  - apply IHa. intros s'. apply IHb. exact Hk.
  - rewrite (IHa k1 k2 s Hk), (IHb k1 k2 s Hk). reflexivity.
  - apply rep_loop_ext; [exact IHa|exact Hk].
  - apply IHa. intros s'. apply Hk.
Qed.

(** The rounds of a repetition are bounded by the text left: more fuel
    than that changes nothing. *)
Lemma rep_loop_fuel fl a :
  forall f1 f2 lo hi k s,
    length (rest s) < f1 -> length (rest s) < f2 ->
    rep_loop (mtch fl a) f1 lo hi k s = rep_loop (mtch fl a) f2 lo hi k s.
Proof.
  induction f1 as [|f1 IH]; intros f2 lo hi k s H1 H2; [lia|].
  destruct f2 as [|f2]; [lia|]. cbn [rep_loop].
  destruct (hi_zero hi); [reflexivity|]. f_equal.
  apply mtch_ext. intros s'.
  destruct (length (rest s') <? length (rest s)) eqn:E; [|reflexivity].
  apply Nat.ltb_lt in E. apply IH; lia.
Qed.

End Soundness.

(* ================================================================== *)
(** * Patterns that need a character other than noise *)

Section Hits.
Import Re.

#[local] Hint Constructors Matches : core.

Lemma all_chars_spec (q : ascii -> bool) :
  all_chars q = true -> forall x, q x = true.
Proof.
  unfold all_chars. intros H x. rewrite forallb_forall in H.
  specialize (H (code x)). unfold chr, code in H.
  rewrite ascii_nat_embedding in H. apply H. apply in_seq.
  pose proof (nat_ascii_bounded x). lia.
Qed.

Lemma clean_class_spec (test : ascii -> bool) (x : ascii) :
  clean_class test = true -> test x = true -> is_noise x = false.
Proof.
  intros H Hx. apply all_chars_spec with (x := x) in H.
  rewrite Hx in H. cbn in H. destruct (is_noise x); [discriminate|reflexivity].
Qed.

Lemma span_of (s s' : mstate) (w : str) : rest s = w ++ rest s' -> span s s' = w.
Proof.
  intros E. unfold span. rewrite E, length_app, Nat.add_sub.
  apply take_app_length.
Qed.

Lemma Matches_rest fl r s s' :
  Matches fl r s s' -> rest s = span s s' ++ rest s'.
Proof. intros H. destruct (Matches_span _ _ _ _ H) as (w & E & _ & ->). exact E. Qed.

Lemma span_trans (s1 s2 s3 : mstate) :
  rest s1 = span s1 s2 ++ rest s2 -> rest s2 = span s2 s3 ++ rest s3 ->
  span s1 s3 = span s1 s2 ++ span s2 s3.
Proof.
  intros E1 E2. apply span_of. rewrite <- app_assoc, <- E2. exact E1.
Qed.

(** A match of a pattern that [hits] goes over a character that is not
    noise. *)
Lemma hits_sound fl r s s' :
  Matches fl r s s' -> hits fl r = true -> has_clean (span s s').
Proof.
  unfold has_clean.
  induction 1 as [ |c x xs p cs Hx|x xs p cs Hx|neg items x xs p cs Hx
                   |a b s1 s2 s3 Ha IHa Hb IHb|a b s1 s2 Ha IHa|a b s1 s2 Hb IHb
                   |hi a s|lo hi a s1 s2 s3 Hhi Ha IHa Hr IHr
                   |i a s1 s2 Ha IHa|s|s|s]; cbn [hits]; intros Hh;
    try discriminate.
  - rewrite (span_of _ _ [x]) by reflexivity.
    constructor. eapply clean_class_spec; eauto.
  - rewrite (span_of _ _ [x]) by reflexivity.
    constructor. eapply clean_class_spec; eauto.
  - rewrite (span_trans s1 s2 s3) by (eapply Matches_rest; eauto).
    apply Exists_app. apply orb_true_iff in Hh as [Hh|Hh]; auto.
  - apply andb_true_iff in Hh as [Hh _]. auto.
  - apply andb_true_iff in Hh as [_ Hh]. auto.
  - apply andb_true_iff in Hh as [_ Hh].
    rewrite (span_trans s1 s2 s3) by (eapply Matches_rest; eauto).
    apply Exists_app. auto.
  - assert (E : span s1 (set_cap i (span s1 s2) s2) = span s1 s2) by reflexivity.
    rewrite E. auto.
Qed.

Lemma groups_hit_sound fl r s s' :
  Matches fl r s s' -> groups_hit fl r = true ->
  Forall group_clean (caps s) -> Forall group_clean (caps s').
Proof.
  induction 1 as [ |c x xs p cs Hx|x xs p cs Hx|neg items x xs p cs Hx
                   |a b s1 s2 s3 Ha IHa Hb IHb|a b s1 s2 Ha IHa|a b s1 s2 Hb IHb
                   |hi a s|lo hi a s1 s2 s3 Hhi Ha IHa Hr IHr
                   |i a s1 s2 Ha IHa|s|s|s]; cbn [groups_hit caps]; intros Hg Hc;
    auto.
  - apply andb_true_iff in Hg as [Hg1 Hg2]. auto.
  - apply andb_true_iff in Hg as [Hg1 Hg2]. auto.
  - apply andb_true_iff in Hg as [Hg1 Hg2]. auto.
  - apply andb_true_iff in Hg as [Hg1 Hg2].
    unfold set_cap. cbn [caps]. apply Forall_insert; [auto|].
    intros w [= <-]. eapply hits_sound; eauto.
Qed.

(** What [scan] returns is a match of the pattern on a final part of the
    text, started with no group set. *)
Lemma match_here_sound p b before after m :
  match_here p b before after = Some m ->
  Matches (flags p) (pat p) (m_from m) (m_to m)
  /\ m_from m = MState before after (replicate (S (ngroups (pat p))) None).
Proof.
  unfold match_here. intros H.
  destruct (mtch _ _ _ _) as [s'|] eqn:E; [|discriminate].
  injection H as <-. cbn [m_from m_to].
  apply mtch_sound in E as (s1 & Hm & Hk).
  destruct (_ && _); [discriminate|]. injection Hk as ->. auto.
Qed.

Lemma scan_sound p b before after m :
  scan p b before after = Some m ->
  Matches (flags p) (pat p) (m_from m) (m_to m)
  /\ caps (m_from m) = replicate (S (ngroups (pat p))) None
  /\ exists skipped, after = skipped ++ rest (m_from m)
                     /\ pre (m_from m) = rev skipped ++ before.
Proof.
  revert b before. induction after as [|x after IH]; intros b before; cbn [scan].
  - destruct (match_here p b before []) as [m'|] eqn:E; [|discriminate].
    intros [= <-]. apply match_here_sound in E as [Hm Hf].
    split; [exact Hm|]. rewrite Hf. split; [reflexivity|]. exists []. auto.
  - destruct (match_here p b before (x :: after)) as [m'|] eqn:E.
    + intros [= <-]. apply match_here_sound in E as [Hm Hf].
      split; [exact Hm|]. rewrite Hf. split; [reflexivity|]. exists []. auto.
    + intros H. apply IH in H as (Hm & Hc & skipped & -> & Hp).
      repeat split; [exact Hm|exact Hc|]. exists (x :: skipped).
      cbn [app rev]. rewrite <- app_assoc. auto.
Qed.

Lemma has_clean_noise (w : str) :
  has_clean w -> Forall (fun c => is_noise c = true) w -> False.
Proof.
  unfold has_clean. rewrite Exists_exists, Forall_forall.
  intros (c & Hin & Hc) H. rewrite (H c Hin) in Hc. discriminate.
Qed.

(** A pattern that hits matches nowhere in a text made of noise. *)
Lemma search_noise p (text : str) :
  hit p = true -> Forall (fun c => is_noise c = true) text ->
  search p text = None.
Proof.
  intros Hp Htext. unfold search.
  destruct (scan p false [] text) as [m|] eqn:E; [|reflexivity].
  exfalso. apply scan_sound in E as (Hm & _ & skipped & Etext & _).
  pose proof (hits_sound _ _ _ _ Hm Hp) as Hclean.
  apply (has_clean_noise _ Hclean).
  rewrite Etext, (Matches_rest _ _ _ _ Hm) in Htext.
  apply Forall_app in Htext as [_ Htext].
  apply Forall_app in Htext as [Htext _]. exact Htext.
Qed.

End Hits.

(* ================================================================== *)
(** * Greedy runs of one class of characters *)

Section Runs.
Import Re.

Variable p : ascii -> bool.
Variable body : cont -> cont.
Hypothesis body_eat : forall k s, body k s = eat p k s.

(** One round of [rep_loop] over a one-character body. *)
Lemma rep_loop_step fuel lo hi k s :
  length (rest s) < fuel ->
  rep_loop body fuel lo hi k s =
    if hi_zero hi then guard (lo =? 0) k s
    else
      match rest s with
      | x :: xs =>
          if p x
          then orelse (rep_loop body (Nat.pred fuel) (Nat.pred lo) (dec_hi hi) k
                         (MState (x :: pre s) xs (caps s)))
                      (guard (lo =? 0) k s)
          else guard (lo =? 0) k s
      | [] => guard (lo =? 0) k s
      end.
Proof using body_eat.
  intros Hfuel. destruct fuel as [|fuel]; [lia|]. cbn [rep_loop Nat.pred].
  destruct (hi_zero hi); [reflexivity|].
  rewrite body_eat. unfold eat.
  destruct (rest s) as [|x xs] eqn:Hrest; [reflexivity|].
  destruct (p x); [|reflexivity].
  cbn [rest length]. rewrite (proj2 (Nat.ltb_lt _ _)) by lia. reflexivity.
Qed.

(** A run that is followed by a character outside the class, under a
    continuation that fails wherever the run could be cut. *)
Lemma rep_loop_blocked k run c tl :
  Forall (fun x => p x = true) run -> p c = false ->
  (forall i before cs, k (MState before (drop i run ++ c :: tl) cs) = None) ->
  forall fuel lo before cs,
    length (run ++ c :: tl) < fuel ->
    rep_loop body fuel lo None k (MState before (run ++ c :: tl) cs) = None.
Proof using body_eat.
  intros Hrun Hc. induction Hrun as [|x run Hx Hrun IH]; intros Hk fuel lo before cs Hfuel.
  - rewrite rep_loop_step by exact Hfuel. cbn [hi_zero rest app]. rewrite Hc.
    unfold guard. destruct (lo =? 0); [apply (Hk 0)|reflexivity].
  - rewrite rep_loop_step by exact Hfuel. cbn [hi_zero rest app]. rewrite Hx.
    cbn [pre caps dec_hi]. rewrite IH.
    + cbn [orelse]. unfold guard. destruct (lo =? 0); [apply (Hk 0)|reflexivity].
    + intros i. apply (Hk (S i)).
    + cbn [length app] in Hfuel. lia.
Qed.

(** A run that reaches the end of the text, under a continuation that
    accepts there. *)
Lemma rep_loop_to_end k w :
  Forall (fun x => p x = true) w ->
  (forall before cs, k (MState before [] cs) = Some (MState before [] cs)) ->
  forall fuel lo before cs,
    length w < fuel -> lo <= length w ->
    rep_loop body fuel lo None k (MState before w cs)
    = Some (MState (rev w ++ before) [] cs).
Proof using body_eat.
  intros Hw Hk. induction Hw as [|x w Hx Hw IH]; intros fuel lo before cs Hfuel Hlo.
  - rewrite rep_loop_step by exact Hfuel. cbn [hi_zero rest].
    cbn [length] in Hlo. replace lo with 0 by lia. apply Hk.
  - rewrite rep_loop_step by exact Hfuel. cbn [hi_zero rest]. rewrite Hx.
    cbn [pre caps dec_hi]. rewrite IH.
    + cbn [orelse rev]. rewrite <- app_assoc. reflexivity.
    + cbn [length] in Hfuel. lia.
    + cbn [length] in Hlo. lia.
Qed.

End Runs.

(* ================================================================== *)
(** * The field locator *)

Section TrailingNoise.
Import Re.

Lemma noise_set (c : ascii) :
  set_match [] false [CSpace; CLit ";"; CLit ":"] c = is_noise c.
Proof.
  unfold set_match, is_noise. cbn.
  destruct (isspace c), (chr_eqb c ";"), (chr_eqb c ":"); reflexivity.
Qed.

Lemma noise_body k s :
  mtch [] (Set_ false [CSpace; CLit ";"; CLit ":"]) k s = eat is_noise k s.
Proof.
  cbn [mtch]. unfold eat. destruct (rest s) as [|x xs]; [reflexivity|].
  rewrite noise_set. reflexivity.
Qed.

Lemma not_noise_not_LF (c : ascii) : is_noise c = false -> chr_eqb c LF = false.
Proof.
  intros Hc. destruct (chr_eqb c LF) eqn:E; [|reflexivity].
  apply Ascii.eqb_eq in E. subst c. vm_compute in Hc. discriminate.
Qed.

(** No match of [[\s;:]+$] starts where the run of such characters is
    followed by another character. *)
Lemma noise_blocked before run c tl :
  Forall (fun x => is_noise x = true) run -> is_noise c = false ->
  match_here trailing_noise false before (run ++ c :: tl) = None.
Proof.
  intros Hrun Hc. unfold match_here, trailing_noise, plus.
  cbn [pat flags mtch andb rest].
  rewrite (rep_loop_blocked is_noise _ noise_body _ run c tl); auto.
  intros i before' cs. unfold guard, at_eol. cbn [rest].
  destruct (drop i run) as [|x l] eqn:E; cbn [app].
  - rewrite (not_noise_not_LF c Hc). reflexivity.
  - destruct l; cbn; rewrite andb_false_r; reflexivity.
Qed.

(** A match of [[\s;:]+$] that starts on a run reaching the end of the
    text takes the whole run. *)
Lemma noise_to_end before w :
  Forall (fun x => is_noise x = true) w -> w <> [] ->
  match_here trailing_noise false before w
  = Some (RMatch (MState before w [None])
                 (MState (rev w ++ before) [] [None])).
Proof.
  intros Hw Hne. unfold match_here, trailing_noise, plus.
  cbn [pat flags mtch andb rest ngroups Nat.max replicate].
  rewrite (rep_loop_to_end is_noise _ noise_body _ w); auto.
  destruct w; [congruence|cbn [length]; lia].
Qed.

Lemma noise_at_end before : match_here trailing_noise false before [] = None.
Proof. reflexivity. Qed.

(** A text that holds a character outside the class starts with a run of
    the class followed by such a character. *)
Lemma split_at_clean (p : ascii -> bool) (l : str) :
  Exists (fun x => p x = false) l ->
  exists run c tl, l = run ++ c :: tl
                   /\ Forall (fun x => p x = true) run /\ p c = false.
Proof.
  induction l as [|x l IH]; intros H; [inversion H|].
  destruct (p x) eqn:Hx.
  - inversion H as [? ? Hx'|? ? Hl]; subst; [congruence|].
    destruct (IH Hl) as (run & c & tl & -> & Hrun & Hc).
    exists (x :: run), c, tl. repeat split; [constructor|]; assumption.
  - exists [], x, l. repeat split; [constructor|assumption].
Qed.

Lemma ends_clean_Exists x u :
  ends_clean (x :: u) -> Exists (fun c => is_noise c = false) (x :: u).
Proof.
  unfold ends_clean. revert x. induction u as [|y u IH]; intros x H.
  - cbn in H. constructor. exact H.
  - apply Exists_cons_tl. apply IH. exact H.
Qed.

Lemma ends_clean_tail x u : ends_clean (x :: u) -> ends_clean u.
Proof. unfold ends_clean. destruct u; [intros; exact I|]. cbn. auto. Qed.

Lemma scan_noise u w before :
  ends_clean u -> Forall (fun x => is_noise x = true) w ->
  scan trailing_noise false before (u ++ w)
  = match w with
    | [] => None
    | _ => Some (RMatch (MState (rev u ++ before) w [None])
                        (MState (rev w ++ rev u ++ before) [] [None]))
    end.
Proof.
  intros Hu Hw. revert before. induction u as [|x u IH]; intros before.
  - cbn [app rev]. destruct w as [|y w]; [reflexivity|].
    cbn [scan]. rewrite noise_to_end by (auto; discriminate). reflexivity.
  - pose proof (ends_clean_Exists x u Hu) as Hex.
    assert (Hex' : Exists (fun c => is_noise c = false) ((x :: u) ++ w))
      by (apply Exists_app; auto).
    destruct (split_at_clean is_noise _ Hex') as (run & c & tl & E & Hrun & Hc).
    cbn [app] in E |- *. cbn [scan].
    replace (match_here trailing_noise false before (x :: u ++ w)) with (@None rmatch)
      by (rewrite E; symmetry; apply noise_blocked; assumption).
    rewrite IH by (eapply ends_clean_tail; eauto).
    cbn [rev]. rewrite <- !app_assoc. reflexivity.
Qed.

Lemma drop_leading_split (p : ascii -> bool) (l : str) :
  exists w, l = w ++ drop_leading p l /\ Forall (fun x => p x = true) w
            /\ match drop_leading p l with
               | c :: _ => p c = false
               | [] => True
               end.
Proof.
  induction l as [|x l IH].
  { exists []. cbn. repeat split. constructor. }
  destruct IH as (w & E & Hw & Hc).
  cbn [drop_leading]. destruct (p x) eqn:Hx.
  - exists (x :: w). cbn. rewrite <- E. repeat split; [constructor|]; assumption.
  - exists []. cbn. repeat split; [constructor|assumption].
Qed.

Lemma last_rev_head (l : str) :
  last (rev l) = match l with c :: _ => Some c | [] => None end.
Proof. destruct l; [reflexivity|]. cbn [rev]. apply last_snoc. Qed.

Lemma drop_trailing_split (v : str) :
  exists w, v = drop_trailing is_noise v ++ w
            /\ Forall (fun x => is_noise x = true) w
            /\ ends_clean (drop_trailing is_noise v).
Proof.
  unfold drop_trailing, ends_clean.
  destruct (drop_leading_split is_noise (rev v)) as (w & E & Hw & Hc).
  exists (rev w). split; [|split].
  - rewrite <- rev_app_distr, <- E, rev_involutive. reflexivity.
  - apply List.Forall_rev. exact Hw.
  - rewrite last_rev_head. destruct (drop_leading is_noise (rev v)); auto.
Qed.

(** Substituting nothing for [[\s;:]+$] removes the trailing run of
    whitespace, semicolons and colons, and nothing else. *)
Lemma sub_trailing_noise (v : str) :
  sub trailing_noise [] v = drop_trailing is_noise v.
Proof.
  destruct (drop_trailing_split v) as (w & E & Hw & Hu).
  set (u := drop_trailing is_noise v) in *. clearbody u. subst v.
  unfold sub. cbn [sub_loop Nat.mul Nat.add]. rewrite Nat.add_0_r.
  replace (length (u ++ w) + length (u ++ w) + 2)
    with (S (S (length (u ++ w) + length (u ++ w)))) by lia.
  cbn [sub_loop]. rewrite scan_noise by assumption.
  destruct w as [|y w].
  - rewrite app_nil_r. reflexivity.
  - cbn [m_from m_to rest pre app]. rewrite length_app, Nat.add_sub.
    rewrite take_app_length.
    replace (scan trailing_noise _ _ []) with (@None rmatch) by reflexivity.
    rewrite app_nil_r. reflexivity.
Qed.

End TrailingNoise.

Section Locator.
Import Re.

Lemma last_nonempty_group (gs : list (option str)) :
  match last (omap (fun g => match g with
                             | Some (c :: s) => Some (c :: s)
                             | _ => None
                             end) gs) with
  | Some g => exists gs1 gs2, gs = gs1 ++ Some g :: gs2 /\ g <> []
                              /\ Forall empty_group gs2
  | None => Forall empty_group gs
  end.
Proof.
  set (f := fun g : option str => match g with
                                  | Some (c :: s) => Some (c :: s)
                                  | _ => None
                                  end).
  induction gs as [|x gs IH]; [constructor|].
  assert (Hcons : omap f (x :: gs) = match f x with
                                     | Some y => y :: omap f gs
                                     | None => omap f gs
                                     end) by reflexivity.
  rewrite Hcons. clear Hcons.
  destruct (f x) as [y|] eqn:Ef; destruct (last (omap f gs)) as [g|] eqn:El.
  - rewrite last_cons, El. destruct IH as (gs1 & gs2 & -> & Hg & Hgs2).
    exists (x :: gs1), gs2. auto.
  - rewrite last_cons, El. exists [], gs.
    destruct x as [[|c s]|]; cbn in Ef; try discriminate.
    injection Ef as <-. repeat split; [discriminate|exact IH].
  - destruct IH as (gs1 & gs2 & -> & Hg & Hgs2).
    exists (x :: gs1), gs2. auto.
  - constructor; [|exact IH].
    destruct x as [[|c s]|]; cbn in Ef; try discriminate;
      [right|left]; reflexivity.
Qed.

Lemma find_first_none (rules : list Pattern) (text : str) :
  find_first rules text = None <-> Forall (fun r => search r text = None) rules.
Proof.
  induction rules as [|r rules IH]; cbn [find_first].
  - split; [constructor|reflexivity].
  - destruct (search r text) eqn:E.
    + split; [discriminate|]. intros H. inversion H; congruence.
    + rewrite IH. split; [intros H; constructor; assumption|].
      intros H. inversion H; assumption.
Qed.

Lemma find_first_skips (before : list Pattern) rules (text : str) :
  Forall (fun r => search r text = None) before ->
  find_first (before ++ rules) text = find_first rules text.
Proof.
  induction 1 as [|r before Hr _ IH]; [reflexivity|].
  cbn [app find_first]. rewrite Hr. exact IH.
Qed.

(** What [find_first] makes of the first match. *)
Lemma find_first_match r rules (text : str) m :
  search r text = Some m ->
  exists v, selected m v /\ find_first (r :: rules) text = Some (cleaned v).
Proof.
  intros E. cbn [find_first]. rewrite E. unfold nonempty_groups.
  pose proof (last_nonempty_group (groups m)) as H.
  destruct (last _) as [g|].
  - destruct H as (gs1 & gs2 & Hgs & Hg & Hgs2). exists g. split.
    + econstructor; eauto.
    + rewrite sub_trailing_noise. reflexivity.
  - exists (group0 m). split; [constructor; exact H|].
    rewrite sub_trailing_noise. reflexivity.
Qed.

End Locator.

(** C1.  [find_first] tries the rules in their order.  It returns nothing
    exactly when no rule matches anywhere in the text.  Otherwise, for the
    first rule that matches, it returns the value the match selects (its
    last non-empty group, the whole matched span when it has none) with
    the whitespace at both ends stripped and then the trailing run of
    whitespace, colons and semicolons removed. *)
Theorem find_first_contract (rules : list Re.Pattern) (text : str) :
  (find_first rules text = None
   <-> Forall (fun r => Re.search r text = None) rules)
  /\ (forall before r after m,
        rules = before ++ r :: after ->
        Forall (fun r' => Re.search r' text = None) before ->
        Re.search r text = Some m ->
        exists v w,
          selected m v
          /\ find_first rules text = Some (cleaned v)
          /\ str_strip v = cleaned v ++ w
          /\ Forall (fun c => is_noise c = true) w
          /\ ends_clean (cleaned v)).
Proof.
  split; [apply find_first_none|].
  intros before r after m -> Hbefore Hr.
  rewrite find_first_skips by exact Hbefore.
  destruct (find_first_match r after text m Hr) as (v & Hv & E).
  destruct (drop_trailing_split (str_strip v)) as (w & Hsplit & Hw & Hclean).
  exists v, w. auto.
Qed.

Lemma find_first_contract_witness :
  let rules := PATTERNS_get "product_name" in
  let text := t "Trade Name - Acetone ;: " in
  match rules with
  | [first; second; third] =>
      match Re.search third text with
      | Some m =>
          exists v w,
            selected m v
            /\ find_first rules text = Some (cleaned v)
            /\ str_strip v = cleaned v ++ w
            /\ Forall (fun c => is_noise c = true) w
            /\ ends_clean (cleaned v)
      | None => False
      end
  | _ => False
  end.
Proof.
  cbv zeta.
  set (rules := PATTERNS_get "product_name").
  set (text := t "Trade Name - Acetone ;: ").
  change rules with [nth 0 rules (Re.compile Re.Empty []);
                     nth 1 rules (Re.compile Re.Empty []);
                     nth 2 rules (Re.compile Re.Empty [])] at 1.
  cbv iota.
  destruct (Re.search (nth 2 rules (Re.compile Re.Empty [])) text) as [m|] eqn:E.
  - apply (proj2 (find_first_contract rules text)
             [nth 0 rules (Re.compile Re.Empty []);
              nth 1 rules (Re.compile Re.Empty [])]
             (nth 2 rules (Re.compile Re.Empty [])) [] m).
    + reflexivity.
    + repeat constructor; vm_compute; reflexivity.
    + exact E.
  - vm_compute in E. discriminate.
Defined.

Section DirectValues.
Import Re.

Lemma lstrip_drop_leading (s : str) : lstrip s = drop_leading isspace s.
Proof. induction s as [|c s IH]; cbn; [|rewrite IH]; reflexivity. Qed.

Lemma isspace_noise (c : ascii) : isspace c = true -> is_noise c = true.
Proof. unfold is_noise. intros ->. reflexivity. Qed.

Lemma has_clean_rev (v : str) : has_clean v -> has_clean (rev v).
Proof.
  unfold has_clean. rewrite !Exists_exists. intros (c & Hin & Hc).
  exists c. split; [|exact Hc]. apply list_elem_of_In, in_rev.
  rewrite rev_involutive. apply list_elem_of_In. exact Hin.
Qed.

Lemma has_clean_drop_leading (p : ascii -> bool) (v : str) :
  (forall x, p x = true -> is_noise x = true) ->
  has_clean v -> has_clean (drop_leading p v).
Proof.
  intros Hp. unfold has_clean. induction v as [|x v IH]; intros H; [exact H|].
  cbn [drop_leading]. destruct (p x) eqn:Hx; [|exact H].
  apply IH. inversion H as [? ? Hc|]; subst; [|assumption].
  rewrite (Hp x Hx) in Hc. discriminate.
Qed.

(** A value that holds a character other than noise is not cleaned away. *)
Lemma cleaned_nonempty (v : str) : has_clean v -> cleaned v <> [].
Proof.
  intros H.
  assert (Hc : has_clean (cleaned v)).
  { unfold cleaned, drop_trailing, str_strip, rstrip.
    rewrite !lstrip_drop_leading.
    repeat first [ apply has_clean_rev
                 | apply has_clean_drop_leading; [auto using isspace_noise|] ].
    exact H. }
  intros E. rewrite E in Hc. inversion Hc.
Qed.

(** The groups of a match hold clean values when the groups of the
    pattern hit. *)
Lemma scan_groups_clean p b before after m :
  scan p b before after = Some m ->
  groups_hit (flags p) (pat p) = true ->
  Forall group_clean (groups m).
Proof.
  intros E Hg. apply scan_sound in E as (Hm & Hc & _).
  unfold groups. apply Forall_drop.
  apply (groups_hit_sound _ _ _ _ Hm Hg). rewrite Hc.
  apply Forall_replicate. intros w. discriminate.
Qed.

(** The direct pass never yields the empty string from such patterns. *)
Lemma find_first_nonempty (rules : list Pattern) (text : str) :
  Forall (fun p => hit_with_groups p = true) rules ->
  find_first rules text <> Some [].
Proof.
  induction 1 as [|r rules Hr _ IH]; [discriminate|].
  destruct (search r text) as [m|] eqn:E.
  - destruct (find_first_match r rules text m E) as (v & Hv & ->).
    intros [= Hcl]. revert Hcl. apply cleaned_nonempty.
    apply andb_true_iff in Hr as [Hh Hg].
    destruct Hv as [gs1 g gs2 Hgs _ _|_].
    + pose proof (scan_groups_clean _ _ _ _ _ E Hg) as Hall.
      rewrite Hgs in Hall. apply Forall_app in Hall as [_ Hall].
      inversion Hall as [|? ? Hg1 _]; subst. apply Hg1. reflexivity.
    + apply scan_sound in E as (Hm & _). eapply hits_sound; eauto.
  - cbn [find_first]. rewrite E. exact IH.
Qed.

Lemma direct_flags_nonempty (text : str) :
  find_first (PATTERNS_get "hazardous_substance") text <> Some []
  /\ find_first (PATTERNS_get "dangerous_good") text <> Some []
  /\ find_first (PATTERNS_get "packing_group") text <> Some [].
Proof.
  repeat split; apply find_first_nonempty;
    repeat constructor; vm_compute; reflexivity.
Qed.

Lemma truthy_nonempty (o : option str) : o <> Some [] -> o <> None -> truthy o = true.
Proof. destruct o as [[|c s]|]; cbn; congruence. Qed.

End DirectValues.

(* ================================================================== *)
(** * The inference pass and the assembled record *)

#[local] Ltac split_ifs :=
  repeat (match goal with
          | |- context [if ?b then _ else _] => destruct b eqn:?
          | |- context [match Re.search ?p ?x with _ => _ end] =>
              destruct (Re.search p x) eqn:?
          end; cbn in *).

(** The fields [infer_flags] has no assignment to. *)
Lemma infer_flags_frame (record : ParsedRecord) (text_norm : str) :
  let r' := infer_flags record text_norm in
  product_name r' = product_name record
  /\ vendor r' = vendor record
  /\ quantity r' = quantity record
  /\ location r' = location record
  /\ cas_number r' = cas_number record
  /\ sds_available r' = sds_available record
  /\ issue_date r' = issue_date record
  /\ dangerous_goods_class r' = dangerous_goods_class record
  /\ description r' = description record
  /\ subsidiary_risks r' = subsidiary_risks record
  /\ consequence r' = consequence record
  /\ likelihood r' = likelihood record
  /\ risk_rating r' = risk_rating record
  /\ swp_requirement r' = swp_requirement record
  /\ comments_swp r' = comments_swp record
  /\ barcode r' = barcode record.
Proof.
  destruct record. unfold infer_flags. cbn. split_ifs; repeat split; reflexivity.
Qed.

(** A field of the three that holds a non-empty value is left alone. *)
Lemma infer_flags_keeps (record : ParsedRecord) (text_norm : str) :
  let r' := infer_flags record text_norm in
  (truthy (hazardous_substance record) = true ->
   hazardous_substance r' = hazardous_substance record)
  /\ (truthy (dangerous_good record) = true ->
      dangerous_good r' = dangerous_good record)
  /\ (truthy (packing_group record) = true ->
      packing_group r' = packing_group record).
Proof.
  destruct record as [? ? ? ? ? ? ? hs dg dgc ? pg ? ? ? ? ? ? ?].
  unfold infer_flags. cbn.
  split_ifs; repeat split; intros Hset; try reflexivity;
    rewrite Hset in *; discriminate.
Qed.

(** What the direct pass found for the three fields is what the record
    returned holds. *)
Lemma extract_fields_keeps_direct (raw : str) :
  let text_norm := normalize_whitespace raw in
  (forall v, find_first (PATTERNS_get "hazardous_substance") text_norm = Some v ->
             hazardous_substance (extract_fields raw) = Some v)
  /\ (forall v, find_first (PATTERNS_get "dangerous_good") text_norm = Some v ->
                dangerous_good (extract_fields raw) = Some v)
  /\ (forall v, find_first (PATTERNS_get "packing_group") text_norm = Some v ->
                packing_group (extract_fields raw) = Some v).
Proof.
  cbv zeta. unfold extract_fields. cbv zeta.
  match goal with
  | |- context [infer_flags ?rec ?txt] =>
      pose proof (infer_flags_keeps rec txt) as K; cbv zeta in K;
      set (inferred := infer_flags rec txt) in *;
      set (direct := rec) in *
  end.
  destruct (direct_flags_nonempty (normalize_whitespace raw)) as (Nh & Nd & Np).
  assert (Hdirect :
    hazardous_substance direct
    = find_first (PATTERNS_get "hazardous_substance") (normalize_whitespace raw)
    /\ dangerous_good direct
       = find_first (PATTERNS_get "dangerous_good") (normalize_whitespace raw)
    /\ packing_group direct
       = find_first (PATTERNS_get "packing_group") (normalize_whitespace raw)).
  { subst direct. clear.
    match goal with
    | |- context [if ?b then _ else _] => destruct b
    end; cbn; repeat split; reflexivity. }
  destruct Hdirect as (Dh & Dd & Dp). destruct K as (Kh & Kd & Kp).
  cbn [hazardous_substance dangerous_good packing_group set_risk_rating].
  repeat split; intros v Hv.
  - rewrite Kh; rewrite Dh; [exact Hv|].
    apply truthy_nonempty; [exact Nh|congruence].
  - rewrite Kd; rewrite Dd; [exact Hv|].
    apply truthy_nonempty; [exact Nd|congruence].
  - rewrite Kp; rewrite Dp; [exact Hv|].
    apply truthy_nonempty; [exact Np|congruence].
Qed.

(** C2 as stated fails: a field that is set, to the empty string, is
    overwritten by the inference pass. *)
Lemma infer_flags_overwrites_empty_string :
  let record := set_hazardous_substance (Some []) ParsedRecord_new in
  let text := t "Not classified as Hazardous" in
  hazardous_substance record = Some []
  /\ hazardous_substance (infer_flags record text) = Some (t "No")
  /\ ~ (forall r txt,
          hazardous_substance r <> None ->
          hazardous_substance (infer_flags r txt) = hazardous_substance r).
Proof.
  cbv zeta. split; [reflexivity|]. split; [vm_compute; reflexivity|].
  intros H.
  specialize (H (set_hazardous_substance (Some []) ParsedRecord_new)
                (t "Not classified as Hazardous")).
  assert (E : hazardous_substance
                (infer_flags (set_hazardous_substance (Some []) ParsedRecord_new)
                   (t "Not classified as Hazardous")) = Some (t "No"))
    by (vm_compute; reflexivity).
  rewrite E in H. cbn in H. discriminate H. discriminate.
Qed.

(** C2, amended.  [infer_flags] changes no field other than
    hazardous_substance, dangerous_good and packing_group, and changes each
    of these three only when it is unset or holds the empty string: a field
    that holds a non-empty value keeps it.  What the direct pass finds for
    these three fields is never empty, so [extract_fields] returns it as
    found. *)
Theorem infer_flags_fills_only_unset :
  (forall (record : ParsedRecord) (text : str),
     let r' := infer_flags record text in
     product_name r' = product_name record
     /\ vendor r' = vendor record
     /\ quantity r' = quantity record
     /\ location r' = location record
     /\ cas_number r' = cas_number record
     /\ sds_available r' = sds_available record
     /\ issue_date r' = issue_date record
     /\ dangerous_goods_class r' = dangerous_goods_class record
     /\ description r' = description record
     /\ subsidiary_risks r' = subsidiary_risks record
     /\ consequence r' = consequence record
     /\ likelihood r' = likelihood record
     /\ risk_rating r' = risk_rating record
     /\ swp_requirement r' = swp_requirement record
     /\ comments_swp r' = comments_swp record
     /\ barcode r' = barcode record
     /\ (hazardous_substance r' = hazardous_substance record
         \/ hazardous_substance record = None
         \/ hazardous_substance record = Some [])
     /\ (dangerous_good r' = dangerous_good record
         \/ dangerous_good record = None
         \/ dangerous_good record = Some [])
     /\ (packing_group r' = packing_group record
         \/ packing_group record = None
         \/ packing_group record = Some []))
  /\ (forall (raw : str),
        let text_norm := normalize_whitespace raw in
        (forall v,
           find_first (PATTERNS_get "hazardous_substance") text_norm = Some v ->
           v <> [] /\ hazardous_substance (extract_fields raw) = Some v)
        /\ (forall v,
              find_first (PATTERNS_get "dangerous_good") text_norm = Some v ->
              v <> [] /\ dangerous_good (extract_fields raw) = Some v)
        /\ (forall v,
              find_first (PATTERNS_get "packing_group") text_norm = Some v ->
              v <> [] /\ packing_group (extract_fields raw) = Some v)).
Proof.
  split.
  - intros record text r'.
    pose proof (infer_flags_frame record text) as F.
    pose proof (infer_flags_keeps record text) as (Kh & Kd & Kp).
    cbv zeta in F. fold r' in F, Kh, Kd, Kp.
    destruct F as (F1 & F2 & F3 & F4 & F5 & F6 & F7 & F8 & F9 & F10 & F11
                   & F12 & F13 & F14 & F15 & F16).
    repeat (split; [assumption|]).
    split; [|split].
    + destruct (truthy (hazardous_substance record)) eqn:E; [left; auto|].
      right. apply truthy_false. exact E.
    + destruct (truthy (dangerous_good record)) eqn:E; [left; auto|].
      right. apply truthy_false. exact E.
    + destruct (truthy (packing_group record)) eqn:E; [left; auto|].
      right. apply truthy_false. exact E.
  - intros raw text_norm.
    destruct (extract_fields_keeps_direct raw) as (Eh & Ed & Ep).
    destruct (direct_flags_nonempty text_norm) as (Nh & Nd & Np).
    split; [|split]; intros v Hv; (split; [intros ->; congruence|auto]).
Qed.

Lemma infer_flags_fills_only_unset_witness :
  let raw := t "Hazardous Substance: yes; Not classified as Hazardous" in
  t "yes" <> [] /\ hazardous_substance (extract_fields raw) = Some (t "yes").
Proof.
  intros raw.
  apply (proj1 (proj2 infer_flags_fills_only_unset raw) (t "yes")).
  vm_compute. reflexivity.
Defined.

(* ================================================================== *)
(** * Text without content *)

Section Blank.
Import Re.

(** [sub] puts together characters of the text and of the replacement. *)
Lemma sub_loop_Forall (q : ascii -> Prop) p repl :
  Forall q repl ->
  forall fuel b before after,
    Forall q after -> Forall q (sub_loop fuel p repl b before after).
Proof.
  intros Hrepl. induction fuel as [|fuel IH]; intros b before after Hafter;
    cbn [sub_loop]; [exact Hafter|].
  destruct (scan p b before after) as [m|] eqn:E; [|exact Hafter].
  apply scan_sound in E as (Hm & _ & skipped & Eafter & _).
  apply Forall_app. split; [apply Forall_take; exact Hafter|].
  apply Forall_app. split; [exact Hrepl|]. apply IH.
  rewrite Eafter, (Matches_rest _ _ _ _ Hm) in Hafter.
  apply Forall_app in Hafter as [_ Hafter].
  apply Forall_app in Hafter as [_ Hafter]. exact Hafter.
Qed.

Lemma normalize_whitespace_blank (text : str) :
  whitespace_only text -> whitespace_only (normalize_whitespace text).
Proof.
  intros H. unfold normalize_whitespace, sub, whitespace_only.
  apply sub_loop_Forall; [|exact H]. repeat constructor.
Qed.

Lemma whitespace_only_noise (text : str) :
  whitespace_only text -> Forall (fun c => is_noise c = true) text.
Proof.
  intros H. eapply Forall_impl; [exact H|]. intros c. apply isspace_noise.
Qed.

Lemma lstrip_blank (text : str) : whitespace_only text -> lstrip text = [].
Proof.
  induction 1 as [|c text Hc _ IH]; [reflexivity|]. cbn. rewrite Hc. exact IH.
Qed.

Lemma str_strip_blank (text : str) : whitespace_only text -> str_strip text = [].
Proof. intros H. unfold str_strip. rewrite lstrip_blank by exact H. reflexivity. Qed.

(** No pattern that hits is found in a text made of noise. *)
Lemma find_first_noise (rules : list Pattern) (text : str) :
  Forall (fun p => hit p = true) rules ->
  Forall (fun c => is_noise c = true) text ->
  find_first rules text = None.
Proof.
  intros Hrules Htext. apply find_first_none.
  eapply Forall_impl; [exact Hrules|]. intros p Hp. cbn beta.
  apply search_noise; assumption.
Qed.

Lemma found_I_noise (r : regex) (text : str) :
  hits [re_I] r = true -> Forall (fun c => is_noise c = true) text ->
  found_I r text = false.
Proof.
  intros Hr Htext. unfold found_I. rewrite search_noise; auto.
Qed.

Lemma infer_flags_blank (text_norm : str) :
  Forall (fun c => is_noise c = true) text_norm ->
  infer_flags ParsedRecord_new text_norm = ParsedRecord_new.
Proof.
  intros H. unfold infer_flags.
  rewrite !(found_I_noise _ text_norm)
    by (try exact H; vm_compute; reflexivity).
  rewrite (search_noise packing_group_inferred text_norm)
    by (try exact H; vm_compute; reflexivity).
  reflexivity.
Qed.

Lemma extract_fields_blank (text : str) :
  whitespace_only text -> extract_fields text = ParsedRecord_new.
Proof.
  intros H. apply normalize_whitespace_blank, whitespace_only_noise in H.
  unfold extract_fields, extract_description. cbv zeta.
  set (text_norm := normalize_whitespace text) in *.
  rewrite !(find_first_noise _ text_norm)
    by (try exact H; repeat constructor; vm_compute; reflexivity).
  match goal with
  | |- context [infer_flags ?r _] =>
      replace r with ParsedRecord_new by reflexivity
  end.
  rewrite infer_flags_blank by exact H. reflexivity.
Qed.

End Blank.

(** C3 as stated fails: given the empty text, or blanks, [extract_fields]
    returns the record with every field unset, and the command-line path
    stores it. *)
Lemma extract_fields_accepts_empty_text :
  extract_fields [] = ParsedRecord_new
  /\ to_csv_row (extract_fields (t "   "))
     = [ []; []; []; []; []; t "Yes"; []; []; []; []; []; []; []; []; []; [];
         []; []; [] ]
  /\ fst (cli_text "register.csv" None [] no_files) !! "register.csv"
     = Some [REGISTER_HEADERS; to_csv_row ParsedRecord_new].
Proof. repeat split; vm_compute; reflexivity. Qed.

(** C3, amended.  [extract_fields] does not reject a text that is empty or
    made of whitespace only: it returns the record with every field unset
    and sds_available "Yes".  The rejection is made by the HTTP entry point
    [parse_sds]: for such a text it answers with the refusal of its own
    guard on the text, status 422 and detail "No extractable text in PDF
    (try OCR install)", which it raises before [extract_fields] is called,
    and it writes nothing.  The refusal it raises after extraction, when
    neither product name nor vendor was found, has the same status and
    another detail, and is not the one given. *)
Theorem blank_text_rejected_by_caller (text : str) :
  whitespace_only text ->
  extract_fields text = ParsedRecord_new
  /\ forall output_csv fs,
       parse_sds_text output_csv text fs
       = inl (HTTP 422 "No extractable text in PDF (try OCR install)")
       /\ parse_sds_text output_csv text fs
          <> inl (HTTP 422 "Could not detect minimum fields; tune patterns").
Proof.
  intros H. split; [apply extract_fields_blank; exact H|].
  intros output_csv fs. unfold parse_sds_text.
  rewrite str_strip_blank by exact H. split; [reflexivity|discriminate].
Qed.

Lemma blank_text_rejected_by_caller_witness :
  extract_fields [" "; TAB; LF]%char = ParsedRecord_new
  /\ forall output_csv fs,
       parse_sds_text output_csv [" "; TAB; LF]%char fs
       = inl (HTTP 422 "No extractable text in PDF (try OCR install)")
       /\ parse_sds_text output_csv [" "; TAB; LF]%char fs
          <> inl (HTTP 422 "Could not detect minimum fields; tune patterns").
Proof.
  apply (blank_text_rejected_by_caller [" "; TAB; LF]%char).
  repeat constructor.
Defined.

(** C10.  For every text the record [extract_fields] returns has
    consequence, likelihood and risk_rating unset, has quantity, location,
    swp_requirement, comments_swp and barcode unset, and has sds_available
    equal to "Yes". *)
Theorem extract_fields_never_populated (text : str) :
  let r := extract_fields text in
  consequence r = None /\ likelihood r = None /\ risk_rating r = None
  /\ quantity r = None /\ location r = None /\ swp_requirement r = None
  /\ comments_swp r = None /\ barcode r = None
  /\ sds_available r = t "Yes".
Proof.
  unfold extract_fields. cbv zeta.
  match goal with
  | |- context [infer_flags ?rec ?txt] =>
      pose proof (infer_flags_frame rec txt) as F; cbv zeta in F;
      set (inferred := infer_flags rec txt) in *;
      set (direct := rec) in *
  end.
  destruct F as (_ & _ & Hq & Hl & _ & Hs & _ & _ & _ & _ & Hc & Hk & _ & Hw & Hm & Hb).
  assert (Hdirect : quantity direct = None /\ location direct = None
                    /\ sds_available direct = t "Yes"
                    /\ consequence direct = None /\ likelihood direct = None
                    /\ swp_requirement direct = None
                    /\ comments_swp direct = None /\ barcode direct = None).
  { subst direct. clear.
    match goal with
    | |- context [if ?b then _ else _] => destruct b
    end; cbn; repeat split; reflexivity. }
  destruct Hdirect as (Dq & Dl & Ds & Dc & Dk & Dw & Dm & Db).
  cbn [consequence likelihood risk_rating quantity location swp_requirement
       comments_swp barcode sds_available set_risk_rating].
  rewrite Hq, Hl, Hs, Hc, Hk, Hw, Hm, Hb, Dq, Dl, Ds, Dc, Dk, Dw, Dm, Db.
  repeat split; reflexivity.
Qed.

(* ================================================================== *)
(** * The register store *)

(** A record without a barcode is written whatever the file holds. *)
Lemma append_without_barcode (record : ParsedRecord) (path : string) (fs : files) :
  truthy (barcode record) = false ->
  append_record_to_csv record path fs =
    (<[path := match fs !! path with
               | Some f => f ++ [to_csv_row record]
               | None => [REGISTER_HEADERS; to_csv_row record]
               end]> fs,
     Appended_record (barcode record)).
Proof.
  intros Hb. unfold append_record_to_csv. rewrite Hb. cbn [andb].
  destruct (fs !! path) as [f|]; [|reflexivity].
  replace (existsb _ (DictReader f)) with false; [reflexivity|].
  induction (DictReader f); cbn; auto.
Qed.

(** The row of a file this program wrote, read back under its header. *)
Lemma row_get_barcode (r : ParsedRecord) :
  row_get (dict_row REGISTER_HEADERS (to_csv_row r)) (t "Barcode")
  = Some (shown (barcode r)).
Proof.
  unfold row_get, dict_row, to_csv_row, REGISTER_HEADERS.
  rewrite <- or_empty_shown. cbn [length drop map zip zip_with app rev].
  cbn. reflexivity.
Qed.

(** C5.  Appending the first record to a destination that does not exist
    creates it with exactly two rows: the fixed header of 19 columns, from
    "Product Name" to "Barcode" in the declared order, and one data row
    whose 19 values are the fields of the record in that order, an unset
    field shown as the empty string. *)
Theorem append_creates_header_and_row (record : ParsedRecord) (path : string)
    (fs : files) :
  fs !! path = None ->
  fst (append_record_to_csv record path fs) !! path
  = Some [ [ t "Product Name"; t "Vendor / Manufacturer"; t "Quantity";
             t "Location"; t "CAS Number"; t "SDS Available";
             t "Issue Date (DD/MM/YYYY)"; t "Hazardous Substance";
             t "Dangerous Good"; t "Dangerous Goods Class"; t "Description";
             t "Packing group"; t "Subsidiary Risk(s)"; t "Consequence";
             t "Likelihood"; t "Risk Rating";
             t "Safe Work Procedure (SWP) Requirement"; t "Comments/SWP";
             t "Barcode" ];
           [ shown (product_name record); shown (vendor record);
             shown (quantity record); shown (location record);
             shown (cas_number record); sds_available record;
             shown (issue_date record); shown (hazardous_substance record);
             shown (dangerous_good record);
             shown (dangerous_goods_class record); shown (description record);
             shown (packing_group record); shown (subsidiary_risks record);
             shown (consequence record); shown (likelihood record);
             shown (risk_rating record); shown (swp_requirement record);
             shown (comments_swp record); shown (barcode record) ] ]
  /\ length REGISTER_HEADERS = 19
  /\ length (to_csv_row record) = 19
  /\ forall other, other <> path ->
       fst (append_record_to_csv record path fs) !! other = fs !! other.
Proof.
  intros Hnew. unfold append_record_to_csv. rewrite Hnew. cbn [fst].
  repeat split.
  - rewrite lookup_insert_eq. unfold to_csv_row. rewrite !or_empty_shown.
    reflexivity.
  - intros other Hne. apply lookup_insert_ne. congruence.
Qed.

Lemma append_creates_header_and_row_witness :
  fst (append_record_to_csv ParsedRecord_new "register.csv" no_files) !! "register.csv"
  = Some [ REGISTER_HEADERS;
           [ []; []; []; []; []; t "Yes"; []; []; []; []; []; []; []; []; [];
             []; []; []; [] ] ].
Proof.
  apply (append_creates_header_and_row ParsedRecord_new "register.csv" no_files).
  reflexivity.
Defined.

(** C4.  On an existing destination, a record that carries a non-empty
    barcode equal (exact string comparison) to the Barcode column of some
    existing row is not written: the files are left as they were, and the
    skip is logged; this covers the rows the program itself wrote under its
    header.  A record whose barcode is unset or empty is never taken for a
    duplicate: it is appended to an existing destination, and written under
    the header to a new one. *)
Theorem duplicate_barcode_skipped (record : ParsedRecord) (path : string)
    (fs : files) :
  (forall f b,
     fs !! path = Some f -> barcode record = Some b -> b <> [] ->
     (exists r, In r (DictReader f) /\ row_get r (t "Barcode") = Some b) ->
     append_record_to_csv record path fs = (fs, Skipping_duplicate b))
  /\ (forall before earlier after b,
        fs !! path
        = Some (REGISTER_HEADERS :: before ++ to_csv_row earlier :: after) ->
        barcode earlier = Some b -> barcode record = Some b -> b <> [] ->
        append_record_to_csv record path fs = (fs, Skipping_duplicate b))
  /\ ((barcode record = None \/ barcode record = Some []) ->
      append_record_to_csv record path fs
      = (<[path := match fs !! path with
                   | Some f => f ++ [to_csv_row record]
                   | None => [REGISTER_HEADERS; to_csv_row record]
                   end]> fs,
         Appended_record (barcode record))).
Proof.
  assert (Hskip : forall f b,
     fs !! path = Some f -> barcode record = Some b -> b <> [] ->
     (exists r, In r (DictReader f) /\ row_get r (t "Barcode") = Some b) ->
     append_record_to_csv record path fs = (fs, Skipping_duplicate b)).
  { intros f b Hf Hb Hne (r & Hin & Hr).
    unfold append_record_to_csv. rewrite Hf.
    assert (Ht : truthy (barcode record) = true)
      by (apply truthy_true; eauto).
    replace (existsb _ (DictReader f)) with true.
    - rewrite Hb. destruct b; [congruence|reflexivity].
    - symmetry. apply existsb_exists. exists r. split; [assumption|].
      rewrite Ht, Hr, Hb. cbn. apply bool_decide_eq_true. reflexivity. }
  split; [exact Hskip|]. split.
  - intros before earlier after b Hf He Hb Hne.
    apply (Hskip _ b Hf Hb Hne).
    exists (dict_row REGISTER_HEADERS (to_csv_row earlier)). split.
    + unfold DictReader. apply in_map.
      apply list_elem_of_In, list_elem_of_filter. split.
      * unfold to_csv_row. rewrite bool_decide_eq_false_2; [exact I|discriminate].
      * apply list_elem_of_In, in_or_app. right. left. reflexivity.
    + rewrite row_get_barcode, He. reflexivity.
  - intros Hb. apply append_without_barcode, truthy_false, Hb.
Qed.

Lemma duplicate_barcode_skipped_witness :
  let seen := set_barcode (Some (t "9300633")) ParsedRecord_new in
  let fs : files := {[ "register.csv" := [REGISTER_HEADERS; to_csv_row seen] ]} in
  append_record_to_csv seen "register.csv" fs
  = (fs, Skipping_duplicate (t "9300633")).
Proof.
  intros seen fs.
  apply (proj1 (proj2 (duplicate_barcode_skipped seen "register.csv" fs))
           [] seen [] (t "9300633")).
  - reflexivity.
  - reflexivity.
  - reflexivity.
  - discriminate.
Defined.

(** The comparison of barcodes is exact: another letter case is another
    barcode. *)
Example barcode_comparison_is_exact :
  let seen := set_barcode (Some (t "abc")) ParsedRecord_new in
  let new := set_barcode (Some (t "ABC")) ParsedRecord_new in
  let fs : files := {[ "register.csv" := [REGISTER_HEADERS; to_csv_row seen] ]} in
  fst (append_record_to_csv new "register.csv" fs) !! "register.csv"
  = Some [REGISTER_HEADERS; to_csv_row seen; to_csv_row new].
Proof. vm_compute. reflexivity. Qed.

(* ================================================================== *)
(** * The risk rating *)

Lemma dict_get_cons_map (w : str) :
  dict_get cons_map w = ordinal consequence_words w.
Proof.
  unfold cons_map, consequence_words. cbn [dict_get ordinal].
  repeat (destruct (str_eqb _ w); [reflexivity|]). reflexivity.
Qed.

Lemma dict_get_lik_map (w : str) :
  dict_get lik_map w = ordinal likelihood_words w.
Proof.
  unfold lik_map, likelihood_words. cbn [dict_get ordinal].
  repeat (destruct (str_eqb _ w); [reflexivity|]). reflexivity.
Qed.

Lemma ordinal_range (table : list str) (w : str) (n : nat) :
  ordinal table w = Some n -> 1 <= n <= length table.
Proof.
  revert n. induction table as [|x table IH]; intros n; cbn; [discriminate|].
  destruct (str_eqb x w).
  - intros [= <-]. lia.
  - destruct (ordinal table w) as [k|]; [|discriminate].
    intros [= <-]. specialize (IH k eq_refl). lia.
Qed.

Lemma recognised_empty (table : list str) : recognised table (Some []) = None
  -> forall input, truthy input = false -> recognised table input = None.
Proof.
  intros H input Ht. apply truthy_false in Ht as [->| ->]; [reflexivity|exact H].
Qed.

(** C6.  [compute_risk_rating] trims both inputs and looks them up, letter
    case ignored, in the tables insignificant=1 .. severe=5 and rare=1 ..
    almost certain=5.  When both are found the answer is "Label (score)"
    for their product, the label being that of the inclusive band the score
    lies in (1-4 Low, 5-9 Medium, 10-16 High, 17-25 Extreme); when either
    input is absent or not found there is no rating. *)
Theorem compute_risk_rating_bands (consequence likelihood : option str) :
  match recognised consequence_words consequence,
        recognised likelihood_words likelihood with
  | Some c, Some l =>
      exists label,
        band (c * l) label
        /\ compute_risk_rating consequence likelihood
           = Some (t label ++ t " (" ++ str_of_nat (c * l) ++ t ")")
  | _, _ => compute_risk_rating consequence likelihood = None
  end.
Proof.
  unfold compute_risk_rating.
  destruct (truthy consequence) eqn:Hc; cbn [negb orb].
  2: { rewrite (recognised_empty consequence_words eq_refl _ Hc). reflexivity. }
  destruct (truthy likelihood) eqn:Hl; cbn [negb orb].
  2: { rewrite (recognised_empty likelihood_words eq_refl _ Hl).
       destruct (recognised consequence_words consequence); reflexivity. }
  apply truthy_true in Hc as (c & -> & _), Hl as (l & -> & _).
  rewrite dict_get_cons_map, dict_get_lik_map.
  assert (Ec : or_empty (Some c) = c) by (destruct c; reflexivity).
  assert (El : or_empty (Some l) = l) by (destruct l; reflexivity).
  rewrite Ec, El. cbn [recognised].
  destruct (ordinal consequence_words _) as [a|] eqn:Ha; [|reflexivity].
  destruct (ordinal likelihood_words _) as [b|] eqn:Hb; [|reflexivity].
  apply ordinal_range in Ha, Hb. cbn [length consequence_words likelihood_words] in Ha, Hb.
  unfold rating.
  assert (Ha' : a = 1 \/ a = 2 \/ a = 3 \/ a = 4 \/ a = 5) by lia.
  assert (Hb' : b = 1 \/ b = 2 \/ b = 3 \/ b = 4 \/ b = 5) by lia.
  clear Ha Hb.
  destruct Ha' as [->|[->|[->|[->| ->]]]], Hb' as [->|[->|[->|[->| ->]]]];
    cbn [Nat.mul Nat.add Nat.leb];
    eexists; (split; [|reflexivity]); constructor; lia.
Qed.

(** The examples of the specification. *)
Example risk_rating_examples :
  compute_risk_rating (Some (t "insignificant")) (Some (t "rare"))
  = Some (t "Low (1)")
  /\ compute_risk_rating (Some (t "moderate")) (Some (t "likely"))
     = Some (t "High (12)")
  /\ compute_risk_rating (Some (t "severe")) (Some (t "almost certain"))
     = Some (t "Extreme (25)")
  /\ compute_risk_rating (Some (t "  Major ")) (Some (t "POSSIBLE"))
     = Some (t "High (12)")
  /\ compute_risk_rating (Some (t "unknown")) (Some (t "rare")) = None
  /\ compute_risk_rating None None = None.
Proof. repeat split; vm_compute; reflexivity. Qed.

(* ================================================================== *)
(** * Examples of the test suite and of the specification *)

(** The examples of the specification for dates. *)
Example parse_date_examples :
  parse_date (Some (t "12/04/2023")) = Some (t "12/04/2023")
  /\ parse_date (Some (t "31/04/2023")) = Some (t "31/04/2023")
  /\ parse_date (Some (t "12-04-23")) = Some (t "12/04/2023")
  /\ parse_date (Some (t "04/12/2023")) = Some (t "04/12/2023")
  /\ parse_date None = None.
Proof. repeat split; vm_compute; reflexivity. Qed.

(** The first rule that matches wins, and its last group is the value. *)
Example find_first_examples :
  find_first (PATTERNS_get "product_name") (t "Trade Name - Acetone ;: ")
  = Some (t "Acetone")
  /\ find_first (PATTERNS_get "vendor")
       (t "Supplier: Second Ltd; Manufacturer/Supplier: First Ltd")
     = Some (t "First Ltd")
  /\ find_first (PATTERNS_get "issue_date") (t "Last revised - 3/7/21.")
     = Some (t "3/7/21")
  /\ find_first [Re.compile (Re.word "Hazard") []] (t "No Hazard here")
     = Some (t "Hazard")
  /\ find_first (PATTERNS_get "un_number") (t "UN 12") = None.
Proof. repeat split; vm_compute; reflexivity. Qed.

(** A text in the manner of the sample of the test suite. *)
Example extract_fields_sample :
  let r := extract_fields (t "Product Name: Fancy Stuff
Manufacturer: ExampleCorp
CAS No. 64-17-5
Revision: 12/04/2024
Dangerous Goods Class: 3
Classified as Hazardous according to WHS
Not classified as Dangerous Goods
") in
  product_name r = Some (t "Fancy Stuff")
  /\ vendor r = Some (t "ExampleCorp")
  /\ cas_number r = Some (t "64-17-5")
  /\ issue_date r = Some (t "12/04/2024")
  /\ hazardous_substance r = Some (t "Yes")
  /\ dangerous_good r = Some (t "No")
  /\ dangerous_goods_class r = Some (t "3").
Proof. cbv zeta. repeat split; vm_compute; reflexivity. Qed.

(* ================================================================== *)
(** * Two places where the code departs from what is said of it *)

(** C8.  The year-month-day input "2023-04-12": the hyphens are replaced
    before the formats are tried, so "%Y-%m-%d" cannot match, and the loose
    expression reads day 23, month 04, year 12 out of "2023/04/12". *)
Theorem parse_date_year_first :
  parse_date (Some (t "2023-04-12")) = Some (t "23/04/2012")
  /\ strptime (replace_hyphen (str_strip (t "2023-04-12"))) (t "%Y-%m-%d") = None
  /\ strptime (t "2023-04-12") (t "%Y-%m-%d") = Some (Date 2023 4 12).
Proof. repeat split; vm_compute; reflexivity. Qed.

(** C9.  A packing group written in lower case is kept in lower case by
    the direct pass, while the inference pass would have upper-cased it. *)
Theorem packing_group_lower_case :
  packing_group (extract_fields (t "Packing Group: ii")) = Some (t "ii")
  /\ packing_group (infer_flags ParsedRecord_new (t "Packing Group ii"))
     = Some (t "II").
Proof. split; vm_compute; reflexivity. Qed.

(* ================================================================== *)
(** * Dates *)

Section Digits.

Lemma dec_digit_facts (n : nat) :
  isdigit (dec_digit n) = true
  /\ isspace (dec_digit n) = false
  /\ chr_eqb (dec_digit n) "-" = false
  /\ chr_lower (dec_digit n) = dec_digit n
  /\ code (dec_digit n) - 48 = n mod 10.
Proof.
  unfold dec_digit. pose proof (Nat.mod_upper_bound n 10) as Hk.
  set (k := n mod 10) in *. clearbody k.
  do 10 (destruct k as [|k]; [repeat split; vm_compute; reflexivity|]). lia.
Qed.

Lemma int_digits_dec (acc n : nat) (s : str) :
  int_digits acc (dec_digit n :: s) = int_digits (10 * acc + n mod 10) s.
Proof.
  cbn [int_digits]. destruct (dec_digit_facts n) as (-> & _ & _ & _ & ->).
  reflexivity.
Qed.

Lemma digits2 (d : nat) : d < 100 -> 10 * (10 * 0 + (d / 10) mod 10) + d mod 10 = d.
Proof.
  intros H.
  pose proof (Nat.div_mod_eq d 10). pose proof (Nat.div_mod_eq (d / 10) 10).
  pose proof (Nat.mod_upper_bound d 10).
  pose proof (Nat.mod_upper_bound (d / 10) 10).
  assert (d / 10 / 10 = 0)
    by (rewrite Nat.Div0.div_div; apply Nat.div_small; lia).
  lia.
Qed.

Lemma digits4 (y : nat) :
  y < 10 * 1000 ->
  10 * (10 * (10 * (10 * 0 + (y / 1000) mod 10) + (y / 100) mod 10)
        + (y / 10) mod 10) + y mod 10 = y.
Proof.
  intros H.
  replace (y / 1000) with (y / 10 / 10 / 10)
    by (rewrite !Nat.Div0.div_div; reflexivity).
  replace (y / 100) with (y / 10 / 10)
    by (rewrite !Nat.Div0.div_div; reflexivity).
  pose proof (Nat.div_mod_eq y 10).
  pose proof (Nat.div_mod_eq (y / 10) 10).
  pose proof (Nat.div_mod_eq (y / 10 / 10) 10).
  pose proof (Nat.div_mod_eq (y / 10 / 10 / 10) 10).
  pose proof (Nat.mod_upper_bound y 10).
  pose proof (Nat.mod_upper_bound (y / 10) 10).
  pose proof (Nat.mod_upper_bound (y / 10 / 10) 10).
  pose proof (Nat.mod_upper_bound (y / 10 / 10 / 10) 10).
  assert (y / 10 / 10 / 10 / 10 = 0)
    by (rewrite !Nat.Div0.div_div; apply Nat.div_small; lia).
  lia.
Qed.

Lemma lstrip_clear (s : str) : starts_clear s -> lstrip s = s.
Proof. destruct s as [|c s]; cbn; [reflexivity|]. intros ->. reflexivity. Qed.

Lemma lstrip_starts_clear (s : str) : starts_clear (lstrip s).
Proof.
  induction s as [|c s IH]; cbn; [exact I|].
  destruct (isspace c) eqn:E; [exact IH|exact E].
Qed.

Lemma lstrip_split (s : str) :
  exists w, s = w ++ lstrip s /\ Forall (fun c => isspace c = true) w.
Proof.
  rewrite lstrip_drop_leading.
  destruct (drop_leading_split isspace s) as (w & E & Hw & _). eauto.
Qed.

Lemma rstrip_clear (s : str) : starts_clear (rev s) -> rstrip s = s.
Proof.
  intros H. unfold rstrip. rewrite lstrip_clear by exact H.
  apply rev_involutive.
Qed.

Lemma rstrip_keeps_start (s : str) : starts_clear s -> starts_clear (rstrip s).
Proof.
  intros H. unfold rstrip.
  destruct (lstrip_split (rev s)) as (w & E & Hw).
  assert (Es : s = rev (lstrip (rev s)) ++ rev w).
  { rewrite <- rev_app_distr, <- E, rev_involutive. reflexivity. }
  destruct (rev (lstrip (rev s))) as [|c l] eqn:El; [exact I|].
  rewrite Es in H. exact H.
Qed.

Lemma str_strip_clear (s : str) :
  starts_clear s -> starts_clear (rev s) -> str_strip s = s.
Proof.
  intros H1 H2. unfold str_strip. rewrite lstrip_clear by exact H1.
  apply rstrip_clear. exact H2.
Qed.

Lemma str_strip_trimmed (s : str) :
  starts_clear (str_strip s) /\ starts_clear (rev (str_strip s)).
Proof.
  unfold str_strip. split.
  - apply rstrip_keeps_start, lstrip_starts_clear.
  - unfold rstrip. rewrite rev_involutive. apply lstrip_starts_clear.
Qed.

Lemma replace_hyphen_clear (s : str) :
  starts_clear s -> starts_clear (replace_hyphen s).
Proof.
  destruct s as [|c s]; cbn; [auto|].
  destruct (chr_eqb c "-"); [reflexivity|auto].
Qed.

Lemma replace_hyphen_rev (s : str) :
  rev (replace_hyphen s) = replace_hyphen (rev s).
Proof. unfold replace_hyphen. symmetry. apply map_rev. Qed.

Lemma replace_hyphen_idem (s : str) :
  replace_hyphen (replace_hyphen s) = replace_hyphen s.
Proof.
  unfold replace_hyphen. rewrite map_map. apply map_ext. intros c.
  destruct (chr_eqb c "-") eqn:E; [reflexivity|]. rewrite E. reflexivity.
Qed.

(** Cleaning a cleaned date string changes nothing. *)
Lemma clean_idem (raw : str) :
  let raw_clean := replace_hyphen (str_strip raw) in
  replace_hyphen (str_strip raw_clean) = raw_clean.
Proof.
  cbv zeta. destruct (str_strip_trimmed raw) as [H1 H2].
  rewrite str_strip_clear.
  - apply replace_hyphen_idem.
  - apply replace_hyphen_clear, H1.
  - rewrite replace_hyphen_rev. apply replace_hyphen_clear, H2.
Qed.

End Digits.


Section Strptime.
Import Re.

#[local] Ltac run_alternatives H := vm_compute in H |- *; rewrite H; reflexivity.

Lemma day_group k before cs d x1 x2 x3 x4 x5 x6 x7 x8 r :
  1 <= d <= 31 ->
  k (MState (dec_digit d :: dec_digit (d / 10) :: before)
       [x1; x2; x3; x4; x5; x6; x7; x8] (<[1 := Some (pad2 d)]> cs)) = Some r ->
  mtch [re_I] (directive_regex Dd) k
    (MState before (pad2 d ++ [x1; x2; x3; x4; x5; x6; x7; x8]) cs) = Some r.
Proof.
  intros Hd H. destruct d as [|d]; [lia|].
  do 31 (destruct d as [|d]; [run_alternatives H|]). lia.
Qed.

Lemma month_group k before cs m x1 x2 x3 x4 x5 r :
  1 <= m <= 12 ->
  k (MState (dec_digit m :: dec_digit (m / 10) :: before)
       [x1; x2; x3; x4; x5] (<[2 := Some (pad2 m)]> cs)) = Some r ->
  mtch [re_I] (directive_regex Dm) k
    (MState before (pad2 m ++ [x1; x2; x3; x4; x5]) cs) = Some r.
Proof.
  intros Hm H. destruct m as [|m]; [lia|].
  do 12 (destruct m as [|m]; [run_alternatives H|]). lia.
Qed.

Lemma digit_match (n : nat) : set_match [re_I] false [CDigit] (dec_digit n) = true.
Proof.
  destruct (dec_digit_facts n) as (Hd & _ & _ & Hl & _).
  change (xorb false (isdigit (chr_lower (dec_digit n)) || false) = true).
  rewrite Hl, Hd. reflexivity.
Qed.

Lemma year_group k before cs y :
  mtch [re_I] (directive_regex DY) k (MState before (pad4 y) cs)
  = k (MState (rev (pad4 y) ++ before) [] (<[3 := Some (pad4 y)]> cs)).
Proof.
  unfold pad4.
  cbn [directive_regex group_of seq_ mtch digit]. unfold eat. cbn [rest pre caps].
  rewrite !digit_match. reflexivity.
Qed.

Lemma valid_date_bounds (y m d : nat) :
  valid_date y m d = true -> y < 10 * 1000 /\ 1 <= m <= 12 /\ 1 <= d <= 31.
Proof.
  unfold valid_date, between. rewrite !andb_true_iff, !Nat.leb_le.
  intros [[[_ Hy] [Hm1 Hm2]] [Hd1 Hd2]].
  change 9999 with (9 * 1111) in Hy.
  assert (days_in_month y m <= 31).
  { unfold days_in_month.
    do 13 (destruct m as [|m]; [try lia; destruct (is_leap y); lia|]). lia. }
  lia.
Qed.

Lemma match_canonical (y m d : nat) :
  1 <= m <= 12 -> 1 <= d <= 31 ->
  match_ (format_regex [Dir Dd; Chr "/"; Dir Dm; Chr "/"; Dir DY]) (canonical y m d)
  = Some (RMatch (MState [] (canonical y m d) [None; None; None; None])
                 (MState (rev (canonical y m d)) []
                    [None; Some (pad2 d); Some (pad2 m); Some (pad4 y)])).
Proof.
  intros Hm Hd. unfold match_, match_here.
  cbn [format_regex map seq_ pat flags andb].
  change (replicate _ None) with [@None str; None; None; None].
  match goal with
  | |- match ?x with _ => _ end = _ =>
      replace x with (Some (MState (rev (canonical y m d)) []
                    [None; Some (pad2 d); Some (pad2 m); Some (pad4 y)]));
        [reflexivity|symmetry]
  end.
  cbn [mtch].
  apply (day_group _ [] _ d "/"%char (dec_digit (m / 10)) (dec_digit m) "/"%char
           (dec_digit (y / 1000)) (dec_digit (y / 100)) (dec_digit (y / 10))
           (dec_digit y) _ Hd).
  unfold eat at 1. cbn [rest pre caps].
  change (lit_match [re_I] "/" "/") with true. cbv iota beta.
  apply (month_group _ _ _ m "/"%char
           (dec_digit (y / 1000)) (dec_digit (y / 100)) (dec_digit (y / 10))
           (dec_digit y) _ Hm).
  unfold eat at 1. cbn [rest pre caps].
  change (lit_match [re_I] "/" "/") with true. cbv iota beta.
  change [dec_digit (y / 1000); dec_digit (y / 100); dec_digit (y / 10); dec_digit y]
    with (pad4 y).
  rewrite year_group. reflexivity.
Qed.

Lemma py_int_pad2 (d : nat) : d < 100 -> py_int (pad2 d) = Some d.
Proof.
  intros H. unfold py_int, pad2. rewrite str_strip_clear.
  - rewrite !int_digits_dec. cbn [int_digits]. rewrite digits2 by exact H.
    reflexivity.
  - apply dec_digit_facts.
  - apply dec_digit_facts.
Qed.

Lemma py_int_pad4 (y : nat) : y < 10 * 1000 -> py_int (pad4 y) = Some y.
Proof.
  intros H. unfold py_int, pad4. rewrite str_strip_clear.
  - rewrite !int_digits_dec. cbn [int_digits]. rewrite digits4 by exact H.
    reflexivity.
  - apply dec_digit_facts.
  - apply dec_digit_facts.
Qed.

(** [strptime] reads a canonical date back under "%d/%m/%Y". *)
Lemma strptime_canonical (y m d : nat) :
  valid_date y m d = true ->
  strptime (canonical y m d) (t "%d/%m/%Y") = Some (Date y m d).
Proof.
  intros Hv. destruct (valid_date_bounds y m d Hv) as (Hy & Hm & Hd).
  unfold strptime.
  change (parse_format (t "%d/%m/%Y"))
    with (Some [Dir Dd; Chr "/"%char; Dir Dm; Chr "/"%char; Dir DY]).
  cbv iota beta. rewrite match_canonical by assumption.
  cbn [group0 group m_from m_to caps group_of lookup list_lookup].
  match goal with
  | |- context [negb ?b] => change b with true
  end.
  cbn [negb]. rewrite py_int_pad4, !py_int_pad2 by lia.
  unfold mk_datetime. rewrite Hv. reflexivity.
Qed.

Lemma dec_fuel_step (fuel n : nat) (acc : str) :
  dec_fuel (S fuel) n acc
  = if n <? 10 then dec_digit n :: acc
    else dec_fuel fuel (n / 10) (dec_digit n :: acc).
Proof. reflexivity. Qed.

(** From 1000 on a year takes its four digits. *)
Lemma str_of_nat_pad4 (y : nat) :
  1000 <= y -> y < 10 * 1000 -> str_of_nat y = pad4 y.
Proof.
  intros Hlo Hhi. unfold str_of_nat, pad4.
  change 1000 with (10 * (10 * 10)) in Hlo.
  replace (y / 1000) with (y / 10 / 10 / 10)
    by (rewrite !Nat.Div0.div_div; reflexivity).
  replace (y / 100) with (y / 10 / 10)
    by (rewrite !Nat.Div0.div_div; reflexivity).
  pose proof (Nat.div_mod_eq y 10).
  pose proof (Nat.div_mod_eq (y / 10) 10).
  pose proof (Nat.div_mod_eq (y / 10 / 10) 10).
  pose proof (Nat.mod_upper_bound y 10).
  pose proof (Nat.mod_upper_bound (y / 10) 10).
  pose proof (Nat.mod_upper_bound (y / 10 / 10) 10).
  replace (S y) with (S (S (S (S (y - 3))))) by lia.
  rewrite dec_fuel_step.
  replace (y <? 10) with false by (symmetry; apply Nat.ltb_ge; lia).
  rewrite dec_fuel_step.
  replace (y / 10 <? 10) with false by (symmetry; apply Nat.ltb_ge; lia).
  rewrite dec_fuel_step.
  replace (y / 10 / 10 <? 10) with false by (symmetry; apply Nat.ltb_ge; lia).
  rewrite dec_fuel_step.
  replace (y / 10 / 10 / 10 <? 10) with true
    by (symmetry; apply Nat.ltb_lt; lia).
  reflexivity.
Qed.

(** From the year 1000 on a valid date is printed in canonical form. *)
Lemma strftime_canonical (y m d : nat) :
  valid_date y m d = true -> 1000 <= y ->
  strftime_dmY (Date y m d) = canonical y m d.
Proof.
  intros Hv Hy. destruct (valid_date_bounds y m d Hv) as (Hy' & _).
  unfold strftime_dmY, canonical. cbn [year month day].
  rewrite str_of_nat_pad4 by assumption. reflexivity.
Qed.

Lemma canonical_clean (y m d : nat) :
  replace_hyphen (str_strip (canonical y m d)) = canonical y m d.
Proof.
  rewrite str_strip_clear.
  - unfold canonical, pad2, pad4, replace_hyphen. cbn [app map t list_ascii_of_string].
    rewrite !(proj1 (proj2 (proj2 (dec_digit_facts _)))). reflexivity.
  - apply dec_digit_facts.
  - apply dec_digit_facts.
Qed.

(** A canonical date of the year 1000 or later is returned as it is. *)
Lemma parse_date_canonical (y m d : nat) :
  valid_date y m d = true -> 1000 <= y ->
  parse_date (Some (canonical y m d)) = Some (canonical y m d).
Proof.
  intros Hv Hy. unfold parse_date.
  assert (E : canonical y m d = dec_digit (d / 10) :: tl (canonical y m d)) by reflexivity.
  rewrite E at 1. rewrite canonical_clean.
  unfold DATE_FORMATS_IN. cbn [try_formats].
  rewrite strptime_canonical by exact Hv.
  rewrite strftime_canonical by assumption. reflexivity.
Qed.

Lemma mk_datetime_valid (y m d : nat) (dt : datetime) :
  mk_datetime y m d = Some dt -> dt = Date y m d /\ valid_date y m d = true.
Proof.
  unfold mk_datetime. destruct (valid_date y m d); [|discriminate].
  intros [= <-]. auto.
Qed.

Lemma strptime_valid (data fmt : str) (dt : datetime) :
  strptime data fmt = Some dt ->
  valid_date (year dt) (month dt) (day dt) = true.
Proof.
  unfold strptime. intros H.
  repeat match type of H with
         | match ?x with _ => _ end = Some _ => destruct x; try discriminate
         | (if ?x then _ else _) = Some _ => destruct x; try discriminate
         end;
    apply mk_datetime_valid in H as [-> Hv]; exact Hv.
Qed.

Lemma try_formats_valid (formats : list str) (data : str) (dt : datetime) :
  try_formats formats data = Some dt ->
  valid_date (year dt) (month dt) (day dt) = true.
Proof.
  induction formats as [|fmt formats IH]; cbn [try_formats]; [discriminate|].
  destruct (strptime data fmt) as [dt'|] eqn:E; [|exact IH].
  intros [= <-]. eapply strptime_valid; eauto.
Qed.

Lemma parse_date_unfold (c : ascii) (raw : str) :
  parse_date (Some (c :: raw))
  = Some (parse_clean (replace_hyphen (str_strip (c :: raw)))).
Proof.
  unfold parse_date, parse_clean, read_date.
  repeat match goal with
         | |- context [match ?x with _ => _ end] => destruct x
         end; reflexivity.
Qed.

(** A date that is read is a calendar date. *)
Lemma read_date_valid (raw_clean : str) (dt : datetime) :
  read_date raw_clean = Some dt ->
  valid_date (year dt) (month dt) (day dt) = true.
Proof.
  unfold read_date.
  destruct (try_formats DATE_FORMATS_IN raw_clean) as [dt'|] eqn:E.
  - intros [= <-]. eapply try_formats_valid; eauto.
  - destruct (search loose_date raw_clean) as [m|]; [|discriminate]. cbv zeta.
    destruct (py_int _) as [y|]; [|discriminate].
    destruct (py_int _) as [mo|]; [|discriminate].
    destruct (py_int _) as [d|]; [|discriminate].
    intros Edt. apply mk_datetime_valid in Edt as [-> Hv]. exact Hv.
Qed.

(** The cleaned string is rendered as a valid date or handed back. *)
Lemma parse_clean_shape (raw_clean : str) :
  (exists y m d, valid_date y m d = true
                 /\ read_date raw_clean = Some (Date y m d)
                 /\ parse_clean raw_clean = strftime_dmY (Date y m d))
  \/ (read_date raw_clean = None /\ parse_clean raw_clean = raw_clean).
Proof.
  unfold parse_clean.
  destruct (read_date raw_clean) as [[y m d]|] eqn:E; [|auto].
  left. exists y, m, d. apply read_date_valid in E. auto.
Qed.

Lemma parse_date_idem (s : str) :
  s = [] \/ str_strip s <> [] ->
  (forall dt, read_date (replace_hyphen (str_strip s)) = Some dt ->
              1000 <= year dt) ->
  parse_date (parse_date (Some s)) = parse_date (Some s).
Proof.
  intros Hs Hyear. destruct s as [|c s]; [reflexivity|].
  destruct Hs as [Hs|Hs]; [discriminate|].
  rewrite parse_date_unfold.
  pose proof (clean_idem (c :: s)) as Hidem. cbv zeta in Hidem.
  set (raw_clean := replace_hyphen (str_strip (c :: s))) in *.
  assert (Hne : raw_clean <> []).
  { subst raw_clean. unfold replace_hyphen. intros E.
    apply map_eq_nil in E. contradiction. }
  destruct (parse_clean_shape raw_clean) as [(y & m & d & Hv & Er & E)|[Er E]];
    rewrite E.
  - apply Hyear in Er. cbn [year] in Er.
    rewrite strftime_canonical by assumption.
    apply parse_date_canonical; assumption.
  - destruct raw_clean as [|c' raw']; [congruence|].
    rewrite parse_date_unfold, Hidem, E. reflexivity.
Qed.

(** What [parse_date] answers, by the date it reads. *)
Lemma parse_date_by_read_date (s : str) :
  s <> [] ->
  parse_date (Some s)
  = Some match read_date (replace_hyphen (str_strip s)) with
         | Some dt => strftime_dmY dt
         | None => replace_hyphen (str_strip s)
         end.
Proof.
  intros Hs. destruct s as [|c s]; [congruence|].
  rewrite parse_date_unfold. reflexivity.
Qed.

End Strptime.

(** C7 as stated fails: a string of blanks is cleaned to the empty string,
    which [parse_date] then takes for no date at all. *)
Lemma parse_date_blank_not_idempotent :
  parse_date (Some (t " ")) = Some []
  /\ parse_date (parse_date (Some (t " "))) = None
  /\ parse_date (parse_date (Some (t " "))) <> parse_date (Some (t " ")).
Proof.
  split; [vm_compute; reflexivity|]. split; [vm_compute; reflexivity|].
  vm_compute. discriminate.
Qed.

(** The restriction to years from 1000 on is needed: the year 99 read in
    "1/1/099" is printed on two digits, which are then read with a
    century. *)
Lemma parse_date_short_year_reread :
  parse_date (Some (t "1/1/099")) = Some (t "01/01/99")
  /\ parse_date (Some (t "01/01/99")) = Some (t "01/01/1999")
  /\ parse_date (Some (t "01/01/0999")) = Some (t "01/01/999").
Proof. repeat split; vm_compute; reflexivity. Qed.

(** C7, amended.  For every valid calendar date of the year 1000 or later,
    [parse_date] returns its canonical DD/MM/YYYY string unchanged.  What
    [parse_date] answers for a string that is not empty is the date it
    reads in the cleaned string, printed by [strftime], or else the cleaned
    string.  It is idempotent on every string that is empty or holds a
    character other than whitespace, and in which it reads no date of a
    year below 1000. *)
Theorem parse_date_idempotent :
  (forall y m d,
     valid_date y m d = true -> 1000 <= y ->
     parse_date (Some (canonical y m d)) = Some (canonical y m d))
  /\ (forall s,
        s <> [] ->
        parse_date (Some s)
        = Some match read_date (replace_hyphen (str_strip s)) with
               | Some dt => strftime_dmY dt
               | None => replace_hyphen (str_strip s)
               end)
  /\ (forall s,
        s = [] \/ str_strip s <> [] ->
        (forall dt, read_date (replace_hyphen (str_strip s)) = Some dt ->
                    1000 <= year dt) ->
        parse_date (parse_date (Some s)) = parse_date (Some s)).
Proof.
  split; [exact parse_date_canonical|].
  split; [exact parse_date_by_read_date|exact parse_date_idem].
Qed.

Lemma parse_date_idempotent_witness :
  parse_date (Some (t "12/04/2023")) = Some (t "12/04/2023")
  /\ parse_date (Some (t "12-04-23")) = Some (t "12/04/2023")
  /\ parse_date (parse_date (Some (t "12-04-23")))
     = parse_date (Some (t "12-04-23")).
Proof.
  split; [|split].
  - apply (proj1 parse_date_idempotent 2023 4 12); [reflexivity|].
    apply Nat.leb_le. vm_compute. reflexivity.
  - rewrite (proj1 (proj2 parse_date_idempotent) (t "12-04-23"))
      by discriminate.
    vm_compute. reflexivity.
  - apply (proj2 (proj2 parse_date_idempotent) (t "12-04-23")).
    + right. vm_compute. discriminate.
    + intros dt. vm_compute. intros [= <-]. apply Nat.leb_le. vm_compute.
      reflexivity.
Defined.
(* ================================================================== *)
(** * More on the register store *)

(** The skip, whatever the record: a truthy barcode found in the Barcode
    column of a row. *)
Lemma append_skips (record : ParsedRecord) (path : string) (fs : files) f b r :
  fs !! path = Some f -> barcode record = Some b -> b <> [] ->
  In r (DictReader f) -> row_get r (t "Barcode") = Some b ->
  append_record_to_csv record path fs = (fs, Skipping_duplicate b).
Proof.
  intros Hf Hb Hne Hin Hr. unfold append_record_to_csv. rewrite Hf.
  assert (Ht : truthy (barcode record) = true) by (apply truthy_true; eauto).
  replace (existsb _ (DictReader f)) with true.
  - rewrite Hb. destruct b; [congruence|reflexivity].
  - symmetry. apply existsb_exists. exists r. split; [assumption|].
    rewrite Ht, Hr, Hb. cbn. apply bool_decide_eq_true. reflexivity.
Qed.

(** What [append_record_to_csv] leaves at the path. *)
Lemma append_result (record : ParsedRecord) (path : string) (fs : files) :
  let out := append_record_to_csv record path fs in
  (out = (fs, Skipping_duplicate (or_empty (barcode record)))
   /\ truthy (barcode record) = true
   /\ exists f r, fs !! path = Some f /\ In r (DictReader f)
                  /\ row_get r (t "Barcode") = barcode record)
  \/ out = (<[path := match fs !! path with
                      | Some f => f ++ [to_csv_row record]
                      | None => [REGISTER_HEADERS; to_csv_row record]
                      end]> fs, Appended_record (barcode record)).
Proof.
  cbv zeta. unfold append_record_to_csv.
  destruct (fs !! path) as [f|] eqn:Hf; [|right; reflexivity].
  destruct (existsb _ (DictReader f)) eqn:E; [left|right; reflexivity].
  apply existsb_exists in E as (r & Hin & Hr).
  apply andb_true_iff in Hr as [Ht Hr]. apply bool_decide_eq_true in Hr.
  split; [reflexivity|]. split; [exact Ht|]. eauto.
Qed.



(** X2.  a row written from a record is read back column by column: under
    each header, [csv.DictReader] gives the value [to_csv_row] put at the
    place of that header, and so does the dictionary of
    [record_to_register_row_dict]. *)
Theorem row_read_back (record : ParsedRecord) (i : nat) (header : str) :
  REGISTER_HEADERS !! i = Some header ->
  row_get (dict_row REGISTER_HEADERS (to_csv_row record)) header
  = to_csv_row record !! i
  /\ dict_get (record_to_register_row_dict record) header
     = to_csv_row record !! i.
Proof.
  intros Hi. unfold record_to_register_row_dict, row_get, dict_row.
  do 19 (destruct i as [|i]; [injection Hi as <-; split; vm_compute; reflexivity|]).
  cbn in Hi. discriminate Hi.
Qed.

Lemma row_read_back_witness :
  row_get (dict_row REGISTER_HEADERS (to_csv_row ParsedRecord_new)) (t "SDS Available")
  = to_csv_row ParsedRecord_new !! 5
  /\ dict_get (record_to_register_row_dict ParsedRecord_new) (t "SDS Available")
     = to_csv_row ParsedRecord_new !! 5.
Proof. apply (row_read_back ParsedRecord_new 5). reflexivity. Defined.

Lemma dict_get_absent {V} (d : list (str * V)) (key : str) :
  ~ In key (map fst d) -> dict_get d key = None.
Proof.
  induction d as [|[k v] d IH]; cbn; [reflexivity|]. intros H.
  unfold str_eqb. rewrite bool_decide_eq_false_2 by (intros ->; apply H; auto).
  apply IH. intros Hin. apply H. auto.
Qed.

Lemma row_get_absent (fieldnames r : row) (key : str) :
  ~ In key fieldnames -> row_get (dict_row fieldnames r) key = None.
Proof.
  intros H. unfold row_get. rewrite dict_get_absent; [reflexivity|].
  rewrite map_rev, <- in_rev. unfold dict_row. rewrite map_app, in_app_iff.
  intros [Hin|Hin].
  - apply H. revert r Hin. induction fieldnames as [|x l IH]; intros [|y r] Hin;
      cbn in Hin; try contradiction.
    destruct Hin as [<-|Hin]; [left; reflexivity|right].
    apply (IH (fun Hk => H (or_intror Hk)) r Hin).
  - rewrite map_map in Hin. cbn in Hin. rewrite map_id in Hin.
    apply H. rewrite <- (take_drop (length r) fieldnames).
    apply in_or_app. right. exact Hin.
Qed.

(** X3.  in a file whose header row has no Barcode column nothing is ever
    taken for a duplicate: the record is appended whatever its barcode. *)
Theorem no_barcode_column_no_skip (record : ParsedRecord) (path : string)
    (fs : files) (fieldnames : row) (rows : list row) :
  fs !! path = Some (fieldnames :: rows) ->
  ~ In (t "Barcode") fieldnames ->
  append_record_to_csv record path fs
  = (<[path := (fieldnames :: rows) ++ [to_csv_row record]]> fs,
     Appended_record (barcode record)).
Proof.
  intros Hf Hno.
  destruct (append_result record path fs)
    as [(_ & Ht & f & r & Hf' & Hin & Hr)|E].
  - exfalso. rewrite Hf in Hf'. injection Hf' as <-.
    unfold DictReader in Hin. apply in_map_iff in Hin as (r0 & <- & _).
    rewrite row_get_absent in Hr by exact Hno.
    rewrite <- Hr in Ht. discriminate.
  - rewrite E, Hf. reflexivity.
Qed.

Lemma no_barcode_column_no_skip_witness :
  let record := set_barcode (Some (t "42")) ParsedRecord_new in
  let fs : files := {[ "old.csv" := [[t "Name"; t "Code"]; [t "x"; t "42"]] ]} in
  append_record_to_csv record "old.csv" fs
  = (<["old.csv" := [[t "Name"; t "Code"]; [t "x"; t "42"]] ++ [to_csv_row record]]> fs,
     Appended_record (Some (t "42"))).
Proof.
  intros record fs.
  apply (no_barcode_column_no_skip record "old.csv" fs [t "Name"; t "Code"] [[t "x"; t "42"]]).
  - reflexivity.
  - cbn. intros [H|[H|[]]]; discriminate.
Defined.

Lemma written_row_found (before after : list row) (r : ParsedRecord) :
  In (dict_row REGISTER_HEADERS (to_csv_row r))
     (DictReader (REGISTER_HEADERS :: before ++ to_csv_row r :: after)).
Proof.
  unfold DictReader. apply in_map.
  apply list_elem_of_In, list_elem_of_filter. split.
  - unfold to_csv_row. rewrite bool_decide_eq_false_2; [exact I|discriminate].
  - apply list_elem_of_In, in_or_app. right. left. reflexivity.
Qed.

Lemma shown_barcode (record : ParsedRecord) (b : str) :
  barcode record = Some b -> shown (barcode record) = b.
Proof. intros ->. reflexivity. Qed.



(* ================================================================== *)
(** * The entry points *)



Lemma cli_main_cons csv barcode text texts fs :
  cli_main csv barcode (text :: texts) fs
  = let rec := set_barcode barcode (extract_fields text) in
    let fs1 := fst (append_record_to_csv rec csv fs) in
    (record_to_register_row_dict rec :: fst (cli_main csv barcode texts fs1),
     snd (cli_main csv barcode texts fs1)).
Proof. cbn [cli_main]. cbv zeta. destruct (cli_main _ _ _ _). reflexivity. Qed.

Lemma cli_main_parsed csv barcode texts fs :
  fst (cli_main csv barcode texts fs)
  = map (fun text => record_to_register_row_dict
                       (set_barcode barcode (extract_fields text))) texts.
Proof.
  revert fs. induction texts as [|text texts IH]; intros fs; [reflexivity|].
  rewrite cli_main_cons. cbn [fst map]. rewrite IH. reflexivity.
Qed.

(** Once a row with the barcode is in the register, the loop stores
    nothing more. *)
Lemma cli_main_all_skipped csv b texts fs rows before after (r0 : ParsedRecord) :
  b <> [] -> barcode r0 = Some b ->
  fs !! csv = Some (REGISTER_HEADERS :: rows) ->
  rows = before ++ to_csv_row r0 :: after ->
  snd (cli_main csv (Some b) texts fs) = fs.
Proof.
  intros Hne Hb Hf ->. induction texts as [|text texts IH]; [reflexivity|].
  rewrite cli_main_cons. cbv zeta. cbn [snd].
  rewrite (append_skips _ csv fs _ b (dict_row REGISTER_HEADERS (to_csv_row r0)) Hf);
    [exact IH|reflexivity|exact Hne|apply written_row_found|].
  rewrite row_get_barcode, (shown_barcode _ _ Hb). reflexivity.
Qed.

(** X6.  the command-line loop sets the one barcode of the command line on
    every record, so of several files given with a barcode only the first
    is stored in a new register: the others are skipped as duplicates of
    it, while all of them are reported in [parsed]. *)
Theorem cli_barcode_stores_first_only (csv : string) (b : str) (text : str)
    (texts : list str) (fs : files) :
  b <> [] -> fs !! csv = None ->
  let out := cli_main csv (Some b) (text :: texts) fs in
  snd out !! csv
  = Some [REGISTER_HEADERS; to_csv_row (set_barcode (Some b) (extract_fields text))]
  /\ length (fst out) = S (length texts).
Proof.
  intros Hne Hn out. subst out. split.
  - rewrite cli_main_cons. cbv zeta. cbn [snd].
    set (rec := set_barcode (Some b) (extract_fields text)).
    assert (E : fst (append_record_to_csv rec csv fs)
                = <[csv := [REGISTER_HEADERS; to_csv_row rec]]> fs).
    { unfold append_record_to_csv. rewrite Hn. reflexivity. }
    rewrite E.
    rewrite (cli_main_all_skipped csv b texts _ [to_csv_row rec] [] [] rec);
      [apply lookup_insert_eq|exact Hne|reflexivity|apply lookup_insert_eq|reflexivity].
  - rewrite cli_main_parsed, length_map. reflexivity.
Qed.

Lemma cli_barcode_stores_first_only_witness :
  let out := cli_main "r.csv" (Some (t "77")) [t "Product Name: A"; t "Product Name: B"] no_files in
  snd out !! "r.csv"
  = Some [REGISTER_HEADERS;
          to_csv_row (set_barcode (Some (t "77")) (extract_fields (t "Product Name: A")))]
  /\ length (fst out) = 2.
Proof.
  apply (cli_barcode_stores_first_only "r.csv" (t "77") (t "Product Name: A")
           [t "Product Name: B"] no_files).
  - discriminate.
  - reflexivity.
Defined.

Lemma cli_main_no_barcode_rows csv texts fs f :
  fs !! csv = Some f ->
  snd (cli_main csv None texts fs) !! csv
  = Some (f ++ map (fun text => to_csv_row (set_barcode None (extract_fields text))) texts).
Proof.
  revert fs f. induction texts as [|text texts IH]; intros fs f Hf.
  - cbn. rewrite app_nil_r. exact Hf.
  - rewrite cli_main_cons. cbv zeta. cbn [snd map].
    rewrite append_without_barcode by reflexivity. cbn [fst]. rewrite Hf.
    rewrite (IH _ (f ++ [to_csv_row (set_barcode None (extract_fields text))]))
      by apply lookup_insert_eq.
    rewrite <- app_assoc. reflexivity.
Qed.

(** X7.  without a barcode on the command line nothing is ever skipped:
    the register ends with one row per file given, in the order of the
    files, after what it held (after the header row when it is new). *)
Theorem cli_without_barcode_stores_all (csv : string) (texts : list str)
    (fs : files) :
  texts <> [] ->
  snd (cli_main csv None texts fs) !! csv
  = Some (match fs !! csv with
          | Some f => f
          | None => [REGISTER_HEADERS]
          end
          ++ map (fun text => to_csv_row (set_barcode None (extract_fields text)))
                 texts).
Proof.
  intros Hne. destruct (fs !! csv) as [f|] eqn:Hf.
  - apply cli_main_no_barcode_rows. exact Hf.
  - destruct texts as [|text texts]; [congruence|].
    rewrite cli_main_cons. cbv zeta. cbn [snd map].
    rewrite append_without_barcode by reflexivity. cbn [fst]. rewrite Hf.
    rewrite (cli_main_no_barcode_rows csv texts _
               [REGISTER_HEADERS; to_csv_row (set_barcode None (extract_fields text))])
      by apply lookup_insert_eq.
    reflexivity.
Qed.

Lemma cli_without_barcode_stores_all_witness :
  snd (cli_main "r.csv" None [t "Product Name: A"; t "Product Name: B"] no_files) !! "r.csv"
  = Some ([REGISTER_HEADERS]
          ++ map (fun text => to_csv_row (set_barcode None (extract_fields text)))
                 [t "Product Name: A"; t "Product Name: B"]).
Proof.
  apply (cli_without_barcode_stores_all "r.csv"
           [t "Product Name: A"; t "Product Name: B"] no_files).
  discriminate.
Defined.

(* ================================================================== *)
(** * [register.py] *)

Lemma register_row_found (before after : list row) (r : Register.ParsedRecord) :
  In (dict_row Register.REGISTER_HEADERS (Register.to_csv_row r))
     (DictReader (Register.REGISTER_HEADERS
                  :: before ++ Register.to_csv_row r :: after)).
Proof.
  unfold DictReader. apply in_map.
  apply list_elem_of_In, list_elem_of_filter. split.
  - unfold Register.to_csv_row. rewrite bool_decide_eq_false_2; [exact I|discriminate].
  - apply list_elem_of_In, in_or_app. right. left. reflexivity.
Qed.

Lemma register_row_barcode (r : Register.ParsedRecord) :
  row_get (dict_row Register.REGISTER_HEADERS (Register.to_csv_row r)) (t "Barcode")
  = Some (Register.barcode r).
Proof. vm_compute. reflexivity. Qed.

(** X8.  [register.py] keeps its register of seven columns the same way: a
    new destination gets the header row and the row of the record; a
    record whose barcode is empty is always appended; a record whose
    non-empty barcode is in the Barcode column of a row is not written,
    which covers the rows this module wrote. *)
Theorem register_py_append (record : Register.ParsedRecord) (path : string)
    (fs : files) :
  (fs !! path = None ->
   Register.append_record_to_csv record path fs
   = (<[path := [Register.REGISTER_HEADERS; Register.to_csv_row record]]> fs,
      Appended_record (Some (Register.barcode record))))
  /\ (forall f, fs !! path = Some f -> Register.barcode record = [] ->
      Register.append_record_to_csv record path fs
      = (<[path := f ++ [Register.to_csv_row record]]> fs,
         Appended_record (Some [])))
  /\ (forall before earlier after,
        fs !! path = Some (Register.REGISTER_HEADERS
                           :: before ++ Register.to_csv_row earlier :: after) ->
        Register.barcode earlier = Register.barcode record ->
        Register.barcode record <> [] ->
        Register.append_record_to_csv record path fs
        = (fs, Skipping_duplicate (Register.barcode record))).
Proof.
  unfold Register.append_record_to_csv. split; [|split].
  - intros ->. reflexivity.
  - intros f -> ->. cbn [truthy andb].
    replace (existsb _ (DictReader f)) with false; [reflexivity|].
    induction (DictReader f); cbn; auto.
  - intros before earlier after -> Hb Hne.
    replace (existsb _ _) with true; [reflexivity|].
    symmetry. apply existsb_exists.
    exists (dict_row Register.REGISTER_HEADERS (Register.to_csv_row earlier)).
    split; [apply register_row_found|].
    rewrite register_row_barcode, Hb.
    destruct (Register.barcode record); [congruence|].
    cbn. apply bool_decide_eq_true. reflexivity.
Qed.

Lemma register_py_append_witness :
  let record := Register.Build_ParsedRecord (t "Acetone") (t "ACME") (t "1 L")
                  (t "Shed") (t "67-64-1") (t "01/02/2023") (t "9300633") in
  Register.append_record_to_csv record "r.csv" no_files
  = (<["r.csv" := [Register.REGISTER_HEADERS; Register.to_csv_row record]]> no_files,
     Appended_record (Some (t "9300633"))).
Proof.
  intros record.
  apply (proj1 (register_py_append record "r.csv" no_files)). reflexivity.
Defined.




(* ================================================================== *)
(** * Whitespace normalisation *)

Section Collapse.
Import Re.

Lemma tab_nbsp_body k s :
  mtch [] (Set_ false [CLit TAB; CLit NBSP]) k s = eat is_tab_nbsp k s.
Proof.
  cbn [mtch]. unfold eat. destruct (rest s) as [|x xs]; [reflexivity|].
  replace (set_match [] false [CLit TAB; CLit NBSP] x) with (is_tab_nbsp x);
    [reflexivity|].
  unfold set_match, is_tab_nbsp. cbn.
  destruct (chr_eqb x TAB), (chr_eqb x NBSP); reflexivity.
Qed.

(** A greedy run under a continuation that accepts takes all of the run. *)
Lemma rep_loop_run (p : ascii -> bool) (body : cont -> cont) run tl :
  (forall k s, body k s = eat p k s) ->
  Forall (fun x => p x = true) run -> run_over p tl ->
  forall fuel lo before cs,
    length (run ++ tl) < fuel -> lo <= length run ->
    rep_loop body fuel lo None (fun s' => Some s') (MState before (run ++ tl) cs)
    = Some (MState (rev run ++ before) tl cs).
Proof.
  intros Hbody Hrun Htl.
  induction Hrun as [|x run Hx Hrun IH]; intros fuel lo before cs Hfuel Hlo.
  - rewrite (rep_loop_step p body Hbody) by exact Hfuel.
    cbn [hi_zero rest app]. cbn [length] in Hlo. replace lo with 0 by lia.
    destruct tl as [|c tl]; [reflexivity|]. cbn in Htl. rewrite Htl. reflexivity.
  - rewrite (rep_loop_step p body Hbody) by exact Hfuel.
    cbn [hi_zero rest app]. rewrite Hx. cbn [pre caps dec_hi].
    rewrite IH.
    + cbn [orelse rev]. rewrite <- app_assoc. reflexivity.
    + cbn [length app] in Hfuel. lia.
    + cbn [length] in Hlo. lia.
Qed.

Lemma tab_nbsp_here_run before run tl :
  Forall (fun x => is_tab_nbsp x = true) run -> run <> [] ->
  run_over is_tab_nbsp tl ->
  match_here tab_nbsp_run false before (run ++ tl)
  = Some (RMatch (MState before (run ++ tl) [None])
                 (MState (rev run ++ before) tl [None])).
Proof.
  intros Hrun Hne Htl. unfold match_here, tab_nbsp_run, plus.
  cbn [pat flags mtch andb rest ngroups Nat.max replicate].
  rewrite (rep_loop_run is_tab_nbsp _ run tl tab_nbsp_body); auto.
  destruct run; [congruence|cbn [length]; lia].
Qed.

Lemma tab_nbsp_here_none before (text : str) :
  run_over is_tab_nbsp text ->
  match_here tab_nbsp_run false before text = None.
Proof.
  intros H. unfold match_here, tab_nbsp_run, plus.
  cbn [pat flags mtch andb rest ngroups Nat.max replicate].
  rewrite (rep_loop_step is_tab_nbsp _ tab_nbsp_body) by (cbn [rest]; lia).
  cbn [hi_zero rest]. destruct text as [|c text]; [reflexivity|].
  cbn in H. rewrite H. reflexivity.
Qed.

Lemma collapse_run run tl :
  Forall (fun x => is_tab_nbsp x = true) run -> run_over is_tab_nbsp tl ->
  collapse true (run ++ tl) = collapse false tl.
Proof.
  intros Hrun Htl. induction Hrun as [|x run Hx _ IH]; cbn [app collapse].
  - destruct tl as [|c tl]; [reflexivity|]. cbn in Htl |- *. rewrite Htl. reflexivity.
  - rewrite Hx. exact IH.
Qed.

Lemma sub_loop_collapse fuel :
  forall after before,
    length after < fuel ->
    sub_loop fuel tab_nbsp_run (t " ") false before after = collapse false after.
Proof.
  induction fuel as [|fuel IHfuel]; intros after before Hfuel; [lia|].
  revert before Hfuel. induction after as [|c s IHs]; intros before Hfuel.
  - reflexivity.
  - destruct (is_tab_nbsp c) eqn:Hc.
    + destruct (drop_leading_split is_tab_nbsp (c :: s)) as (run & E & Hrun & Htl).
      set (tl := drop_leading is_tab_nbsp (c :: s)) in *.
      assert (Hne : run <> []).
      { intros ->. cbn [app] in E. subst tl. rewrite <- E in Htl.
        cbn in Htl. congruence. }
      assert (Hover : run_over is_tab_nbsp tl) by (destruct tl; auto).
      assert (Hlen : length tl < length (c :: s)).
      { rewrite E, length_app. destruct run; [congruence|cbn [length]; lia]. }
      assert (Hspec : collapse false (c :: s) = " "%char :: collapse false tl).
      { rewrite E. destruct run as [|x run]; [congruence|].
        cbn [app collapse]. inversion Hrun as [|? ? Hx Hrun']; subst.
        rewrite Hx. rewrite collapse_run by assumption. reflexivity. }
      rewrite Hspec. clear Hspec.
      cbn [sub_loop scan].
      replace (match_here tab_nbsp_run false before (c :: s))
        with (Some (RMatch (MState before (c :: s) [None])
                           (MState (rev run ++ before) tl [None])))
        by (rewrite E; symmetry; apply tab_nbsp_here_run; assumption).
      cbn [m_from m_to rest pre]. rewrite Nat.sub_diag. cbn [take app].
      rewrite (proj2 (Nat.eqb_neq _ _)) by lia.
      rewrite IHfuel by lia. reflexivity.
    + cbn [collapse]. rewrite Hc. rewrite <- (IHs (c :: before)) by (cbn [length] in Hfuel; lia).
      cbn [sub_loop scan]. rewrite tab_nbsp_here_none by exact Hc.
      destruct (scan tab_nbsp_run false (c :: before) s) as [m|] eqn:E; [|reflexivity].
      apply scan_sound in E as (_ & _ & skipped & Es & _).
      assert (Hl : length (rest (m_from m)) <= length s)
        by (apply (f_equal length) in Es; rewrite length_app in Es; lia).
      cbn [length]. rewrite Nat.sub_succ_l by exact Hl. reflexivity.
Qed.

End Collapse.

Lemma normalize_whitespace_collapse (txt : str) :
  normalize_whitespace txt = collapse false txt.
Proof.
  unfold normalize_whitespace, Re.sub. apply sub_loop_collapse. lia.
Qed.

(** X10.  [normalize_whitespace] replaces each maximal run of tabs and
    no-break spaces by one space and leaves every other character where
    it is. *)
Theorem normalize_whitespace_collapses (txt : str) :
  normalize_whitespace txt = collapse false txt.
Proof. apply normalize_whitespace_collapse. Qed.

Lemma collapse_clean (b : bool) (s : str) :
  Forall (fun c => is_tab_nbsp c = false) (collapse b s).
Proof.
  revert b. induction s as [|c s IH]; intros b; cbn [collapse]; [constructor|].
  destruct (is_tab_nbsp c) eqn:Hc.
  - destruct b; [apply IH|]. constructor; [reflexivity|apply IH].
  - constructor; [exact Hc|apply IH].
Qed.

Lemma collapse_id (s : str) :
  Forall (fun c => is_tab_nbsp c = false) s -> collapse false s = s.
Proof.
  induction 1 as [|c s Hc _ IH]; cbn [collapse]; [reflexivity|].
  rewrite Hc, IH. reflexivity.
Qed.

Lemma collapse_length (b : bool) (s : str) : length (collapse b s) <= length s.
Proof.
  revert b. induction s as [|c s IH]; intros b; cbn [collapse]; [lia|].
  pose proof (IH true). pose proof (IH false).
  destruct (is_tab_nbsp c); [destruct b|]; cbn [length]; lia.
Qed.

(** X11.  the normalised text holds no tab and no no-break space and is not
    longer than the text; normalising it again changes nothing, and a text
    without these characters is returned as it is. *)
Theorem normalize_whitespace_idempotent (txt : str) :
  Forall (fun c => is_tab_nbsp c = false) (normalize_whitespace txt)
  /\ normalize_whitespace (normalize_whitespace txt) = normalize_whitespace txt
  /\ length (normalize_whitespace txt) <= length txt
  /\ (Forall (fun c => is_tab_nbsp c = false) txt -> normalize_whitespace txt = txt).
Proof.
  rewrite !normalize_whitespace_collapse. split; [apply collapse_clean|].
  split; [apply collapse_id, collapse_clean|].
  split; [apply collapse_length|apply collapse_id].
Qed.

Lemma normalize_whitespace_idempotent_witness :
  normalize_whitespace (t "Packing Group II") = t "Packing Group II".
Proof.
  apply (proj2 (proj2 (proj2 (normalize_whitespace_idempotent (t "Packing Group II"))))).
  repeat constructor.
Defined.

(* ================================================================== *)
(** * Where the located value comes from *)

Section Pieces.
Import Re.

Lemma infix_refl (s : str) : infix s s.
Proof. exists [], []. rewrite app_nil_r. reflexivity. Qed.

Lemma infix_trans (a b c : str) : infix a b -> infix b c -> infix a c.
Proof.
  intros (x & y & ->) (x' & y' & ->). exists (x' ++ x), (y ++ y').
  rewrite <- !app_assoc. reflexivity.
Qed.

Lemma infix_suffix (a b : str) : infix b (a ++ b).
Proof. exists a, []. rewrite app_nil_r. reflexivity. Qed.

Lemma infix_prefix (a b : str) : infix a (a ++ b).
Proof. exists [], b. reflexivity. Qed.

Lemma Matches_whole fl r s s' : Matches fl r s s' -> whole s' = whole s.
Proof.
  intros H. destruct (Matches_span _ _ _ _ H) as (w & E1 & E2 & _).
  unfold whole. rewrite E1, E2, rev_app_distr, rev_involutive, <- app_assoc.
  reflexivity.
Qed.

Lemma Matches_span_infix fl r s s' :
  Matches fl r s s' -> infix (span s s') (whole s).
Proof.
  intros H. destruct (Matches_span _ _ _ _ H) as (w & E1 & _ & ->).
  unfold whole. rewrite E1. exists (rev (pre s)), (rest s'). reflexivity.
Qed.

Lemma Matches_groups_infix fl r s s' :
  Matches fl r s s' ->
  Forall (group_in (whole s)) (caps s) -> Forall (group_in (whole s)) (caps s').
Proof.
  induction 1 as [ |c x xs p cs Hx|x xs p cs Hx|neg items x xs p cs Hx
                   |a b s1 s2 s3 Ha IHa Hb IHb|a b s1 s2 Ha IHa|a b s1 s2 Hb IHb
                   |hi a s|lo hi a s1 s2 s3 Hhi Ha IHa Hr IHr
                   |i a s1 s2 Ha IHa|s|s|s]; cbn [caps]; intros Hc; auto.
  - apply IHa in Hc. rewrite <- (Matches_whole _ _ _ _ Ha).
    apply IHb. rewrite (Matches_whole _ _ _ _ Ha). exact Hc.
  - apply IHa in Hc. rewrite <- (Matches_whole _ _ _ _ Ha).
    apply IHr. rewrite (Matches_whole _ _ _ _ Ha). exact Hc.
  - apply Forall_insert; [auto|]. intros w [= <-].
    eapply Matches_span_infix; eauto.
Qed.

(** The span and the groups of what [search] finds are pieces of the
    text. *)
Lemma search_pieces p (text : str) m :
  search p text = Some m ->
  infix (group0 m) text /\ Forall (group_in text) (groups m).
Proof.
  unfold search. intros E.
  apply scan_sound in E as (Hm & Hc & skipped & Etext & Hpre).
  assert (Hw : whole (m_from m) = text).
  { unfold whole. rewrite Hpre, app_nil_r, rev_involutive, <- Etext. reflexivity. }
  split.
  - unfold group0. rewrite <- Hw. eapply Matches_span_infix; eauto.
  - unfold groups. apply Forall_drop. rewrite <- Hw.
    apply (Matches_groups_infix _ _ _ _ Hm). rewrite Hc.
    apply Forall_replicate. intros w. discriminate.
Qed.

Lemma lstrip_infix (s : str) : infix (lstrip s) s.
Proof. destruct (lstrip_split s) as (w & E & _). rewrite E at 2. apply infix_suffix. Qed.

Lemma rev_infix (a b : str) : infix a b -> infix (rev a) (rev b).
Proof.
  intros (x & y & ->). exists (rev y), (rev x).
  rewrite !rev_app_distr, <- app_assoc. reflexivity.
Qed.

Lemma drop_trailing_infix (p : ascii -> bool) (s : str) : infix (drop_trailing p s) s.
Proof.
  unfold drop_trailing. destruct (drop_leading_split p (rev s)) as (w & E & _).
  rewrite <- (rev_involutive s) at 2. apply rev_infix.
  rewrite E at 2. apply infix_suffix.
Qed.

Lemma cleaned_infix (v : str) : infix (cleaned v) v.
Proof.
  unfold cleaned. eapply infix_trans; [apply drop_trailing_infix|].
  unfold str_strip, rstrip. eapply infix_trans; [|apply lstrip_infix].
  rewrite <- (rev_involutive (lstrip v)) at 2. apply rev_infix, lstrip_infix.
Qed.

Lemma cleaned_starts_clear (v : str) : starts_clear (cleaned v).
Proof.
  unfold cleaned. destruct (str_strip_trimmed v) as [H _].
  destruct (drop_trailing_split (str_strip v)) as (w & E & _).
  destruct (drop_trailing is_noise (str_strip v)) as [|c u]; [exact I|].
  rewrite E in H. exact H.
Qed.

Lemma find_first_piece (rules : list Pattern) (text v : str) :
  find_first rules text = Some v ->
  infix v text /\ starts_clear v /\ ends_clean v.
Proof.
  induction rules as [|r rules IH]; [discriminate|].
  destruct (search r text) as [m|] eqn:E.
  - destruct (find_first_match r rules text m E) as (v0 & Hsel & ->).
    intros [= <-]. destruct (search_pieces _ _ _ E) as [H0 Hg].
    split; [|split].
    + eapply infix_trans; [apply cleaned_infix|].
      destruct Hsel as [gs1 g gs2 Hgs _ _|_]; [|exact H0].
      rewrite Hgs in Hg. apply Forall_app in Hg as [_ Hg].
      inversion Hg as [|? ? Hg1 _]; subst. apply Hg1. reflexivity.
    + apply cleaned_starts_clear.
    + destruct (drop_trailing_split (str_strip v0)) as (w & _ & _ & H). exact H.
  - cbn [find_first]. rewrite E. exact IH.
Qed.

End Pieces.

(** X12.  the value [find_first] returns is never made up: it is a
    contiguous piece of the text searched, and it neither starts with
    whitespace nor ends with whitespace, a colon or a semicolon. *)
Theorem find_first_returns_piece (rules : list Re.Pattern) (text v : str) :
  find_first rules text = Some v ->
  infix v text /\ starts_clear v /\ ends_clean v.
Proof. apply find_first_piece. Qed.

Lemma find_first_returns_piece_witness :
  let text := t "Supplier:  ACME Pty Ltd ; " in
  infix (t "ACME Pty Ltd") text /\ starts_clear (t "ACME Pty Ltd")
  /\ ends_clean (t "ACME Pty Ltd").
Proof.
  intros text.
  apply (find_first_returns_piece (PATTERNS_get "vendor") text (t "ACME Pty Ltd")).
  vm_compute. reflexivity.
Defined.

(* ================================================================== *)
(** * More on dates *)

Section Directives.
Import Re.

#[local] Ltac by_cases_below n H :=
  do 100 (destruct n as [|n];
          [vm_compute;
           repeat match goal with
                  | |- context [match ?x with _ => _ end] => destruct x
                  end; reflexivity|]);
  exfalso; lia.

(** The alternatives of [%d] on two digits: both digits when they make a
    day, then the first digit alone when it is not zero. *)
Lemma day_alternatives (K : cont) before cs n tl :
  n < 100 ->
  mtch [re_I]
    (alts [ Cat (Lit "3") (range "0" "1"); Cat (range "1" "2") digit;
            Cat (Lit "0") (range "1" "9"); range "1" "9";
            Cat (Lit " ") (range "1" "9") ])
    K (MState before (dec_digit (n / 10) :: dec_digit n :: tl) cs)
  = orelse (if between 1 31 n
            then K (MState (dec_digit n :: dec_digit (n / 10) :: before) tl cs)
            else None)
           (if 10 <=? n
            then K (MState (dec_digit (n / 10) :: before) (dec_digit n :: tl) cs)
            else None).
Proof. intros H. by_cases_below n H. Qed.

(** The alternatives of [%m] on two digits. *)
Lemma month_alternatives (K : cont) before cs n tl :
  n < 100 ->
  mtch [re_I]
    (alts [ Cat (Lit "1") (range "0" "2"); Cat (Lit "0") (range "1" "9");
            range "1" "9" ])
    K (MState before (dec_digit (n / 10) :: dec_digit n :: tl) cs)
  = orelse (if between 1 12 n
            then K (MState (dec_digit n :: dec_digit (n / 10) :: before) tl cs)
            else None)
           (if 10 <=? n
            then K (MState (dec_digit (n / 10) :: before) (dec_digit n :: tl) cs)
            else None).
Proof. intros H. by_cases_below n H. Qed.


Lemma group_step fl i a k s :
  mtch fl (Grp i a) k s = mtch fl a (fun s' => k (set_cap i (span s s') s')) s.
Proof. reflexivity. Qed.

(** [%d] on two digits. *)
Lemma day_directive k before cs n tl :
  n < 100 ->
  mtch [re_I] (directive_regex Dd) k (MState before (pad2 n ++ tl) cs)
  = orelse (if between 1 31 n
            then k (MState (dec_digit n :: dec_digit (n / 10) :: before) tl
                      (<[1 := Some (pad2 n)]> cs))
            else None)
           (if 10 <=? n
            then k (MState (dec_digit (n / 10) :: before) (dec_digit n :: tl)
                      (<[1 := Some [dec_digit (n / 10)]]> cs))
            else None).
Proof.
  intros H. unfold directive_regex. rewrite group_step.
  cbn [group_of pad2 app]. rewrite day_alternatives by exact H.
  unfold set_cap. cbn [pre rest caps].
  rewrite (span_of _ _ [dec_digit (n / 10); dec_digit n]) by reflexivity.
  rewrite (span_of _ _ [dec_digit (n / 10)]) by reflexivity.
  reflexivity.
Qed.

(** [%m] on two digits. *)
Lemma month_directive k before cs n tl :
  n < 100 ->
  mtch [re_I] (directive_regex Dm) k (MState before (pad2 n ++ tl) cs)
  = orelse (if between 1 12 n
            then k (MState (dec_digit n :: dec_digit (n / 10) :: before) tl
                      (<[2 := Some (pad2 n)]> cs))
            else None)
           (if 10 <=? n
            then k (MState (dec_digit (n / 10) :: before) (dec_digit n :: tl)
                      (<[2 := Some [dec_digit (n / 10)]]> cs))
            else None).
Proof.
  intros H. unfold directive_regex. rewrite group_step.
  cbn [group_of pad2 app]. rewrite month_alternatives by exact H.
  unfold set_cap. cbn [pre rest caps].
  rewrite (span_of _ _ [dec_digit (n / 10); dec_digit n]) by reflexivity.
  rewrite (span_of _ _ [dec_digit (n / 10)]) by reflexivity.
  reflexivity.
Qed.

(** [%y] on two digits. *)
Lemma year2_directive k before cs n tl :
  mtch [re_I] (directive_regex Dy) k (MState before (pad2 n ++ tl) cs)
  = k (MState (dec_digit n :: dec_digit (n / 10) :: before) tl
         (<[4 := Some (pad2 n)]> cs)).
Proof.
  unfold directive_regex. rewrite group_step.
  cbn [group_of pad2 app seq_ mtch digit]. unfold eat. cbn [rest pre caps].
  rewrite !digit_match. unfold set_cap. cbn [pre rest caps].
  rewrite (span_of _ _ [dec_digit (n / 10); dec_digit n]) by reflexivity.
  reflexivity.
Qed.

(** [%Y] wants four digits. *)
Lemma year4_short k before cs a b :
  mtch [re_I] (directive_regex DY) k (MState before [dec_digit a; dec_digit b] cs)
  = None.
Proof.
  unfold directive_regex. rewrite group_step.
  cbn [group_of seq_ mtch digit]. unfold eat. cbn [rest pre caps].
  rewrite !digit_match. reflexivity.
Qed.

Lemma year4_slash k before cs a b tl :
  mtch [re_I] (directive_regex DY) k
    (MState before (dec_digit a :: dec_digit b :: "/"%char :: tl) cs) = None.
Proof.
  unfold directive_regex. rewrite group_step.
  cbn [group_of seq_ mtch digit]. unfold eat. cbn [rest pre caps].
  rewrite !digit_match. reflexivity.
Qed.

Lemma slash_digit (n : nat) : lit_match [re_I] "/" (dec_digit n) = false.
Proof.
  unfold dec_digit. pose proof (Nat.mod_upper_bound n 10) as Hk.
  set (k := n mod 10) in *. clearbody k.
  do 10 (destruct k as [|k]; [vm_compute; reflexivity|]). lia.
Qed.

Lemma hyphen_digit (n : nat) : lit_match [re_I] "-" (dec_digit n) = false.
Proof.
  unfold dec_digit. pose proof (Nat.mod_upper_bound n 10) as Hk.
  set (k := n mod 10) in *. clearbody k.
  do 10 (destruct k as [|k]; [vm_compute; reflexivity|]). lia.
Qed.

Lemma orelse_none (a : option mstate) : orelse a None = a.
Proof. destruct a; reflexivity. Qed.

Lemma if_same {A} (b : bool) (x : A) : (if b then x else x) = x.
Proof. destruct b; reflexivity. Qed.

#[local] Ltac literal_step :=
  cbn [mtch]; unfold eat; cbn [rest pre caps];
  rewrite ?slash_digit, ?hyphen_digit;
  change (lit_match [re_I] "/" "/") with true;
  change (lit_match [re_I] "-" "/") with false;
  cbv iota.

Lemma short_date_not_dmY yy m d :
  d < 100 -> m < 100 ->
  strptime (short_date yy m d) (t "%d/%m/%Y") = None.
Proof.
  intros Hd Hm. unfold strptime.
  change (parse_format (t "%d/%m/%Y"))
    with (Some [Dir Dd; Chr "/"%char; Dir Dm; Chr "/"%char; Dir DY]).
  cbv iota beta. unfold match_, match_here.
  cbn [format_regex map seq_ pat flags andb].
  unfold short_date. cbn [t list_ascii_of_string app].
  match goal with
  | |- match match ?x with _ => _ end with _ => _ end = _ =>
      replace x with (@None mstate); [reflexivity|symmetry]
  end.
  cbn [mtch]. rewrite day_directive by exact Hd.
  literal_step. rewrite if_same, orelse_none.
  destruct (between 1 31 d); [|reflexivity].
  change (pad2 m ++ "/"%char :: pad2 yy) with (pad2 m ++ ("/"%char :: pad2 yy)).
  rewrite month_directive by exact Hm.
  literal_step. rewrite if_same, orelse_none.
  destruct (between 1 12 m); [|reflexivity].
  unfold pad2. apply year4_short.
Qed.


#[local] Ltac start_strptime f :=
  unfold strptime;
  match goal with
  | |- context [parse_format ?fmt] => change (parse_format fmt) with (Some f)
  end;
  cbv iota beta; unfold match_, match_here;
  cbn [format_regex map seq_ pat flags andb].

#[local] Ltac no_match :=
  match goal with
  | |- match match ?x with _ => _ end with _ => _ end = _ =>
      replace x with (@None mstate); [reflexivity|symmetry]
  end.

Lemma short_date_not_hyphens yy m d :
  d < 100 ->
  strptime (short_date yy m d) (t "%d-%m-%Y") = None.
Proof.
  intros Hd.
  start_strptime [Dir Dd; Chr "-"%char; Dir Dm; Chr "-"%char; Dir DY].
  unfold short_date. cbn [t list_ascii_of_string app]. no_match.
  cbn [mtch]. rewrite day_directive by exact Hd.
  literal_step. rewrite !if_same. reflexivity.
Qed.

Lemma short_date_dmy yy m d :
  yy < 100 -> valid_date (pivot yy) m d = true ->
  strptime (short_date yy m d) (t "%d/%m/%y") = Some (Date (pivot yy) m d).
Proof.
  intros Hyy Hv. destruct (valid_date_bounds _ _ _ Hv) as (_ & Hm & Hd).
  start_strptime [Dir Dd; Chr "/"%char; Dir Dm; Chr "/"%char; Dir Dy].
  change (replicate _ None) with [@None str; None; None; None; None].
  match goal with
  | |- match match ?x with _ => _ end with _ => _ end = _ =>
      replace x with (Some (MState (rev (short_date yy m d)) []
                    [None; Some (pad2 d); Some (pad2 m); None; Some (pad2 yy)]))
  end.
  - cbn [group0 group m_from m_to caps group_of lookup list_lookup].
    match goal with
    | |- context [negb ?b] => change b with true
    end.
    cbn [negb]. rewrite !py_int_pad2 by lia.
    unfold mk_datetime. fold (pivot yy). rewrite Hv. reflexivity.
  - symmetry. unfold short_date. cbn [t list_ascii_of_string app].
    cbn [mtch]. rewrite day_directive by lia.
    replace (between 1 31 d) with true
      by (symmetry; unfold between; apply andb_true_iff; split; apply Nat.leb_le; lia).
    literal_step.
    change (pad2 m ++ "/"%char :: pad2 yy) with (pad2 m ++ ("/"%char :: pad2 yy)).
    rewrite month_directive by lia.
    replace (between 1 12 m) with true
      by (symmetry; unfold between; apply andb_true_iff; split; apply Nat.leb_le; lia).
    literal_step.
    change (pad2 yy) with (pad2 yy ++ []) at 1.
    rewrite year2_directive. reflexivity.
Qed.

Lemma short_date_clean yy m d :
  replace_hyphen (str_strip (short_date yy m d)) = short_date yy m d.
Proof.
  rewrite str_strip_clear.
  - unfold short_date, pad2, replace_hyphen. cbn [app map t list_ascii_of_string].
    rewrite !(proj1 (proj2 (proj2 (dec_digit_facts _)))). reflexivity.
  - apply dec_digit_facts.
  - apply dec_digit_facts.
Qed.

Lemma parse_date_short yy m d :
  yy < 100 -> valid_date (pivot yy) m d = true ->
  parse_date (Some (short_date yy m d)) = Some (canonical (pivot yy) m d).
Proof.
  intros Hyy Hv. destruct (valid_date_bounds _ _ _ Hv) as (_ & Hm & Hd).
  assert (E : short_date yy m d = dec_digit (d / 10) :: tl (short_date yy m d))
    by reflexivity.
  rewrite E. rewrite parse_date_unfold. rewrite <- E. clear E.
  rewrite short_date_clean. unfold parse_clean, read_date, DATE_FORMATS_IN.
  cbn [try_formats].
  rewrite short_date_not_dmY, short_date_not_hyphens by lia.
  rewrite (short_date_dmy yy m d Hyy Hv).
  rewrite strftime_canonical; [reflexivity|exact Hv|].
  unfold pivot. change 1000 with (10 * 100). change 2000 with (20 * 100).
  change 1900 with (19 * 100). destruct (yy <=? 68); lia.
Qed.

Lemma between_true lo hi n : lo <= n <= hi -> between lo hi n = true.
Proof.
  intros H. unfold between. apply andb_true_iff; split; apply Nat.leb_le; lia.
Qed.

Lemma between_above lo hi n : hi < n -> between lo hi n = false.
Proof.
  intros H. unfold between. apply andb_false_iff. right. apply Nat.leb_gt. lia.
Qed.

(** Read day first, the day of MM/DD/YYYY is taken for a month and is
    refused above 12. *)
Lemma month_first_not_day_first y m d last k cs :
  m < 100 -> 12 < d < 100 ->
  mtch [re_I]
    (Cat (directive_regex Dd)
       (Cat (Lit "/") (Cat (directive_regex Dm) (Cat (Lit "/") last))))
    k (MState [] (month_first y m d) cs)
  = None.
Proof.
  intros Hm Hd. unfold month_first. cbn [t list_ascii_of_string app].
  cbn [mtch]. rewrite day_directive by exact Hm.
  literal_step. rewrite if_same, orelse_none.
  destruct (between 1 31 m); [|reflexivity].
  change (pad2 d ++ "/"%char :: pad4 y) with (pad2 d ++ ("/"%char :: pad4 y)).
  rewrite month_directive by lia.
  rewrite between_above by lia.
  literal_step. rewrite if_same. reflexivity.
Qed.

Lemma month_first_fails y m d :
  m < 100 -> 12 < d < 100 ->
  strptime (month_first y m d) (t "%d/%m/%Y") = None
  /\ strptime (month_first y m d) (t "%d-%m-%Y") = None
  /\ strptime (month_first y m d) (t "%d/%m/%y") = None
  /\ strptime (month_first y m d) (t "%Y-%m-%d") = None.
Proof.
  intros Hm Hd. split; [|split; [|split]].
  - start_strptime [Dir Dd; Chr "/"%char; Dir Dm; Chr "/"%char; Dir DY]. no_match.
    apply month_first_not_day_first; assumption.
  - start_strptime [Dir Dd; Chr "-"%char; Dir Dm; Chr "-"%char; Dir DY].
    unfold month_first. cbn [t list_ascii_of_string app]. no_match.
    cbn [mtch]. rewrite day_directive by exact Hm.
    literal_step. rewrite !if_same. reflexivity.
  - start_strptime [Dir Dd; Chr "/"%char; Dir Dm; Chr "/"%char; Dir Dy]. no_match.
    apply month_first_not_day_first; assumption.
  - start_strptime [Dir DY; Chr "-"%char; Dir Dm; Chr "-"%char; Dir Dd].
    unfold month_first. cbn [t list_ascii_of_string app pad2]. no_match.
    cbn [mtch]. apply year4_slash.
Qed.

Lemma month_first_mdY y m d :
  valid_date y m d = true ->
  strptime (month_first y m d) (t "%m/%d/%Y") = Some (Date y m d).
Proof.
  intros Hv. destruct (valid_date_bounds _ _ _ Hv) as (Hy & Hm & Hd).
  start_strptime [Dir Dm; Chr "/"%char; Dir Dd; Chr "/"%char; Dir DY].
  change (replicate _ None) with [@None str; None; None; None].
  match goal with
  | |- match match ?x with _ => _ end with _ => _ end = _ =>
      replace x with (Some (MState (rev (month_first y m d)) []
                    [None; Some (pad2 d); Some (pad2 m); Some (pad4 y)]))
  end.
  - cbn [group0 group m_from m_to caps group_of lookup list_lookup].
    match goal with
    | |- context [negb ?b] => change b with true
    end.
    cbn [negb]. rewrite py_int_pad4, !py_int_pad2 by lia.
    unfold mk_datetime. rewrite Hv. reflexivity.
  - symmetry. unfold month_first. cbn [t list_ascii_of_string app].
    cbn [mtch]. rewrite month_directive by lia.
    rewrite between_true by lia.
    literal_step.
    change (pad2 d ++ "/"%char :: pad4 y) with (pad2 d ++ ("/"%char :: pad4 y)).
    rewrite day_directive by lia.
    rewrite between_true by lia.
    literal_step. rewrite year_group. reflexivity.
Qed.

Lemma month_first_clean y m d :
  replace_hyphen (str_strip (month_first y m d)) = month_first y m d.
Proof.
  rewrite str_strip_clear.
  - unfold month_first, pad2, pad4, replace_hyphen.
    cbn [app map t list_ascii_of_string].
    rewrite !(proj1 (proj2 (proj2 (dec_digit_facts _)))). reflexivity.
  - apply dec_digit_facts.
  - apply dec_digit_facts.
Qed.

Lemma parse_date_month_first_eq y m d :
  valid_date y m d = true -> 1000 <= y -> 12 < d ->
  parse_date (Some (month_first y m d)) = Some (canonical y m d).
Proof.
  intros Hv Hy1000 Hd12. destruct (valid_date_bounds _ _ _ Hv) as (Hy & Hm & Hd).
  assert (E : month_first y m d = dec_digit (m / 10) :: tl (month_first y m d))
    by reflexivity.
  rewrite E, parse_date_unfold, <- E. clear E.
  rewrite month_first_clean. unfold parse_clean, read_date, DATE_FORMATS_IN.
  cbn [try_formats].
  destruct (month_first_fails y m d) as (-> & -> & -> & ->); [lia|lia|].
  rewrite month_first_mdY by exact Hv.
  rewrite strftime_canonical by assumption. reflexivity.
Qed.

End Directives.

(** X13.  a date written DD/MM/YY (or DD-MM-YY) is read with the century
    [strptime] gives to [%y]: years 00 to 68 are 2000 to 2068, years 69 to
    99 are 1969 to 1999, when that makes a calendar date. *)
Theorem parse_date_two_digit_year (yy m d : nat) :
  yy < 100 ->
  valid_date (if yy <=? 68 then yy + 2000 else yy + 1900) m d = true ->
  parse_date (Some (pad2 d ++ t "/" ++ pad2 m ++ t "/" ++ pad2 yy))
  = Some (canonical (if yy <=? 68 then yy + 2000 else yy + 1900) m d)
  /\ parse_date (Some (pad2 d ++ t "-" ++ pad2 m ++ t "-" ++ pad2 yy))
     = Some (canonical (if yy <=? 68 then yy + 2000 else yy + 1900) m d).
Proof.
  intros Hyy Hv.
  change (if yy <=? 68 then yy + 2000 else yy + 1900) with (pivot yy) in *.
  split; [apply parse_date_short; assumption|].
  rewrite <- (parse_date_short yy m d) by assumption.
  set (s := pad2 d ++ t "-" ++ pad2 m ++ t "-" ++ pad2 yy).
  assert (E : s = dec_digit (d / 10) :: tl s) by reflexivity.
  rewrite E, parse_date_unfold, <- E.
  assert (E' : short_date yy m d = dec_digit (d / 10) :: tl (short_date yy m d))
    by reflexivity.
  rewrite E', parse_date_unfold, <- E'. do 2 f_equal.
  rewrite short_date_clean. subst s.
  rewrite str_strip_clear by apply dec_digit_facts.
  unfold short_date, pad2, replace_hyphen. cbn [app map t list_ascii_of_string].
  rewrite !(proj1 (proj2 (proj2 (dec_digit_facts _)))). reflexivity.
Qed.

Lemma parse_date_two_digit_year_witness :
  parse_date (Some (t "12/04/99")) = Some (t "12/04/1999")
  /\ parse_date (Some (t "12-04-99")) = Some (t "12/04/1999").
Proof.
  apply (parse_date_two_digit_year 99 4 12); [lia|reflexivity].
Defined.

(** X14.  a date written MM/DD/YYYY, of the year 1000 or later, whose day is
    above 12 cannot be read day first and is read month first; it comes
    back as DD/MM/YYYY. *)
Theorem parse_date_month_first (y m d : nat) :
  valid_date y m d = true -> 1000 <= y -> 12 < d ->
  parse_date (Some (pad2 m ++ t "/" ++ pad2 d ++ t "/" ++ pad4 y))
  = Some (canonical y m d).
Proof. apply parse_date_month_first_eq. Qed.

Lemma parse_date_month_first_witness :
  parse_date (Some (t "04/25/2023")) = Some (t "25/04/2023").
Proof.
  apply (parse_date_month_first 2023 4 25); [reflexivity| |lia].
  apply Nat.leb_le. vm_compute. reflexivity.
Defined.

Lemma dec_fuel_no_hyphen (fuel n : nat) (acc : str) :
  Forall (fun c => chr_eqb c "-" = false) acc ->
  Forall (fun c => chr_eqb c "-" = false) (dec_fuel fuel n acc).
Proof.
  revert n acc. induction fuel as [|fuel IH]; intros n acc Hacc; [exact Hacc|].
  rewrite dec_fuel_step.
  assert (H : Forall (fun c => chr_eqb c "-" = false) (dec_digit n :: acc))
    by (constructor; [apply dec_digit_facts|exact Hacc]).
  destruct (n <? 10); [exact H|apply IH, H].
Qed.

Lemma strftime_no_hyphen (dt : datetime) :
  Forall (fun c => chr_eqb c "-" = false) (strftime_dmY dt).
Proof.
  unfold strftime_dmY, pad2. cbn [app t list_ascii_of_string].
  repeat (constructor; [first [apply dec_digit_facts|reflexivity]|]).
  apply dec_fuel_no_hyphen. constructor.
Qed.

Lemma replace_hyphen_no_hyphen (s : str) :
  Forall (fun c => chr_eqb c "-" = false) (replace_hyphen s).
Proof.
  unfold replace_hyphen. induction s as [|c s IH]; cbn [map]; constructor; auto.
  destruct (chr_eqb c "-") eqn:E; [reflexivity|exact E].
Qed.

(** X15.  [parse_date] never fails on a string that is not empty: it answers
    a calendar date as [strftime] prints it, or else the string itself,
    stripped and with its hyphens turned into slashes; either way the
    answer holds no hyphen. *)
Theorem parse_date_degrades (raw : str) :
  raw <> [] ->
  exists out,
    parse_date (Some raw) = Some out
    /\ ((exists y m d, valid_date y m d = true
                       /\ out = strftime_dmY (Date y m d))
        \/ out = replace_hyphen (str_strip raw))
    /\ Forall (fun c => chr_eqb c "-" = false) out.
Proof.
  intros Hne. destruct raw as [|c raw]; [congruence|].
  rewrite parse_date_unfold. eexists. split; [reflexivity|].
  destruct (parse_clean_shape (replace_hyphen (str_strip (c :: raw))))
    as [(y & m & d & Hv & _ & E)|[_ E]]; rewrite E.
  - split; [left; eauto|apply strftime_no_hyphen].
  - split; [right; reflexivity|apply replace_hyphen_no_hyphen].
Qed.

Lemma parse_date_degrades_witness :
  exists out,
    parse_date (Some (t " 31-04-2023 ")) = Some out
    /\ ((exists y m d, valid_date y m d = true
                       /\ out = strftime_dmY (Date y m d))
        \/ out = replace_hyphen (str_strip (t " 31-04-2023 ")))
    /\ Forall (fun c => chr_eqb c "-" = false) out.
Proof. apply (parse_date_degrades (t " 31-04-2023 ")). discriminate. Defined.

(* ================================================================== *)
(** * More on the inference pass *)

Lemma infer_flags_blocks (record : ParsedRecord) (text_norm : str) :
  infer_flags record text_norm
  = infer_packing text_norm
      (infer_dangerous text_norm (infer_hazardous text_norm record)).
Proof. reflexivity. Qed.

Lemma truthy_upper (g : option str) :
  truthy (option_map str_upper g) = truthy g.
Proof.
  destruct g as [[|c g]|]; try reflexivity.
  cbn [option_map str_upper flat_map]. unfold chr_upper.
  repeat match goal with
         | |- context [if ?b then _ else _] => destruct b
         end; reflexivity.
Qed.

#[local] Ltac by_truth :=
  repeat (cbn;
          repeat match goal with
                 | H : truthy ?x = _ |- context [truthy ?x] => rewrite H
                 end;
          try match goal with
              | |- context [truthy ?x] => is_var x; destruct (truthy x) eqn:?
              end);
  try reflexivity.

#[local] Ltac open_record r :=
  destruct r as [pn ve qu lo ca sd isd hs dg dgc de pg sr co li rr sw cs bc].

Lemma infer_hazardous_again txt r :
  infer_hazardous txt (infer_hazardous txt r) = infer_hazardous txt r.
Proof.
  unfold infer_hazardous. open_record r.
  destruct (found_I not_hazardous txt), (found_I hazardous txt); by_truth.
Qed.

Lemma infer_dangerous_again txt r :
  infer_dangerous txt (infer_dangerous txt r) = infer_dangerous txt r.
Proof.
  unfold infer_dangerous. open_record r.
  destruct (found_I not_dangerous txt), (found_I dangerous txt); by_truth.
Qed.

Lemma infer_packing_again txt r :
  infer_packing txt (infer_packing txt r) = infer_packing txt r.
Proof.
  unfold infer_packing. open_record r.
  destruct (Re.search packing_group_inferred txt) as [m|]; [|by_truth].
  generalize (option_map str_upper (Re.group 1 m)). intros g. by_truth.
Qed.

Lemma infer_hazardous_dangerous txt r :
  infer_hazardous txt (infer_dangerous txt r)
  = infer_dangerous txt (infer_hazardous txt r).
Proof.
  unfold infer_hazardous, infer_dangerous. open_record r.
  destruct (found_I not_hazardous txt), (found_I hazardous txt),
           (found_I not_dangerous txt), (found_I dangerous txt); by_truth.
Qed.

Lemma infer_hazardous_packing txt r :
  infer_hazardous txt (infer_packing txt r)
  = infer_packing txt (infer_hazardous txt r).
Proof.
  unfold infer_hazardous, infer_packing. open_record r.
  destruct (found_I not_hazardous txt), (found_I hazardous txt),
           (Re.search packing_group_inferred txt); by_truth.
Qed.

Lemma infer_dangerous_packing txt r :
  infer_dangerous txt (infer_packing txt r)
  = infer_packing txt (infer_dangerous txt r).
Proof.
  unfold infer_dangerous, infer_packing. open_record r.
  destruct (found_I not_dangerous txt), (found_I dangerous txt),
           (Re.search packing_group_inferred txt); by_truth.
Qed.

(** X16.  running the inference pass a second time over the same text changes
    nothing more. *)
Theorem infer_flags_idempotent (record : ParsedRecord) (text_norm : str) :
  infer_flags (infer_flags record text_norm) text_norm
  = infer_flags record text_norm.
Proof.
  rewrite !infer_flags_blocks.
  rewrite infer_hazardous_packing, infer_hazardous_dangerous,
    infer_hazardous_again, infer_dangerous_packing, infer_dangerous_again.
  apply infer_packing_again.
Qed.

Lemma infer_flags_class_flag (record : ParsedRecord) (text_norm : str) :
  dangerous_goods_class (infer_flags record text_norm)
  = dangerous_goods_class record
  /\ (truthy (dangerous_goods_class record) = true ->
      truthy (dangerous_good (infer_flags record text_norm)) = true).
Proof.
  rewrite infer_flags_blocks.
  unfold infer_packing, infer_dangerous, infer_hazardous. open_record record.
  destruct (found_I not_hazardous text_norm), (found_I hazardous text_norm),
           (found_I not_dangerous text_norm), (found_I dangerous text_norm),
           (Re.search packing_group_inferred text_norm);
    by_truth; split; try reflexivity; try congruence; by_truth.
Qed.

(** X17.  in the record [extract_fields] returns, the dangerous goods class
    never holds the letters "ification" (in any letter case), and a record
    that has a class that is not empty has a dangerous-good flag that is
    not empty. *)
Theorem extract_fields_class_and_flag (text : str) :
  let r := extract_fields text in
  (forall v, dangerous_goods_class r = Some v ->
             contains (t "ification") (str_lower v) = false)
  /\ (truthy (dangerous_goods_class r) = true ->
      truthy (dangerous_good r) = true).
Proof.
  unfold extract_fields. cbv zeta.
  set (c := find_first (PATTERNS_get "dangerous_goods_class") _).
  clearbody c.
  repeat match goal with
         | |- context [find_first ?p ?txt] =>
             let v := fresh "v" in set (v := find_first p txt); clearbody v
         end.
  repeat match goal with
         | |- context [parse_date ?x] =>
             let v := fresh "v" in set (v := parse_date x); clearbody v
         | |- context [extract_description ?x] =>
             let v := fresh "v" in set (v := extract_description x); clearbody v
         end.
  match goal with
  | |- context [infer_flags ?rec ?txt] =>
      destruct (infer_flags_class_flag rec txt) as [Hc Hf];
      set (inferred := infer_flags rec txt) in *
  end.
  assert (E1 : forall x, dangerous_goods_class (set_risk_rating x inferred)
                         = dangerous_goods_class inferred)
    by (intros x; destruct inferred; reflexivity).
  assert (E2 : forall x, dangerous_good (set_risk_rating x inferred)
                         = dangerous_good inferred)
    by (intros x; destruct inferred; reflexivity).
  rewrite E1, E2, Hc. clear E1 E2 Hc.
  generalize dependent (dangerous_good inferred). intros flag.
  clear inferred.
  assert (G : forall v r,
             dangerous_goods_class (set_dangerous_goods_class v r) = v)
    by (intros ? r; destruct r; reflexivity).
  assert (F : forall a b d r,
             dangerous_goods_class
               (set_description a (set_subsidiary_risks b (set_packing_group d r)))
             = dangerous_goods_class r)
    by (intros ? ? ? r; destruct r; reflexivity).
  rewrite !F, !G.
  destruct (truthy c && contains _ _) eqn:E; rewrite ?G; intros Hf.
  - split; [discriminate|exact Hf].
  - split; [|exact Hf].
    intros w ->. destruct w as [|x w]; [reflexivity|exact E].
Qed.

Lemma extract_fields_class_and_flag_witness :
  let r := extract_fields (t "Dangerous Goods Class: 3") in
  dangerous_goods_class r = Some (t "3")
  /\ contains (t "ification") (str_lower (t "3")) = false
  /\ truthy (dangerous_good r) = true.
Proof.
  cbv zeta.
  destruct (extract_fields_class_and_flag (t "Dangerous Goods Class: 3"))
    as [Hc Hf].
  assert (E : dangerous_goods_class (extract_fields (t "Dangerous Goods Class: 3"))
              = Some (t "3")) by (vm_compute; reflexivity).
  split; [exact E|]. split; [exact (Hc _ E)|].
  apply Hf. rewrite E. reflexivity.
Defined.

(* ================================================================== *)
(** * The packing group the inference pass finds *)

Section Roman.
Import Re.

#[local] Ltac invert H := inversion H; subst; clear H.

Lemma Matches_caps_length fl r s s' :
  Matches fl r s s' -> length (caps s') = length (caps s).
Proof.
  induction 1 as [ |c x xs p cs Hx|x xs p cs Hx|neg items x xs p cs Hx
                   |a b s1 s2 s3 Ha IHa Hb IHb|a b s1 s2 Ha IHa|a b s1 s2 Hb IHb
                   |hi a s|lo hi a s1 s2 s3 Hhi Ha IHa Hr IHr
                   |i a s1 s2 Ha IHa|s|s|s]; unfold set_cap; cbn [caps]; try congruence.
  rewrite length_insert. exact IHa.
Qed.

(** The letters [I] stands for when letter case is ignored are I and i,
    and both are I in upper case. *)
Lemma upper_I (x : ascii) :
  lit_match [re_I] "I" x = true -> chr_upper x = ["I"%char].
Proof.
  intros H.
  assert (A : all_chars (fun x => implb (lit_match [re_I] "I" x)
                                    (str_eqb (chr_upper x) ["I"%char])) = true)
    by (vm_compute; reflexivity).
  apply all_chars_spec with (x := x) in A. rewrite H in A. cbn [implb] in A.
  unfold str_eqb in A. apply bool_decide_eq_true in A. exact A.
Qed.

Lemma roman_span s s' :
  Matches [re_I] (alts [ Rep 1 (Some 3) (Lit "I"); word "II"; word "III" ]) s s' ->
  is_roman (str_upper (span s s')).
Proof.
  cbn [alts word lits t list_ascii_of_string]. intros H.
  repeat match goal with
         | H : true = false |- _ => discriminate H
         | H : Matches _ (Alt _ _) _ _ |- _ => invert H
         | H : Matches _ (Cat _ _) _ _ |- _ => invert H
         | H : Matches _ (Lit _) _ _ |- _ => invert H
         | H : Matches _ (Rep _ _ _) _ _ |- _ =>
             invert H; cbn [Nat.pred dec_hi hi_zero] in *
         end;
    match goal with
    | |- is_roman (str_upper (span (MState _ (?a :: ?b :: ?c :: ?tl) _)
                                   (MState _ ?tl _))) =>
        rewrite (span_of _ _ [a; b; c]) by reflexivity
    | |- is_roman (str_upper (span (MState _ (?a :: ?b :: ?tl) _)
                                   (MState _ ?tl _))) =>
        rewrite (span_of _ _ [a; b]) by reflexivity
    | |- is_roman (str_upper (span (MState _ (?a :: ?tl) _)
                                   (MState _ ?tl _))) =>
        rewrite (span_of _ _ [a]) by reflexivity
    end;
    cbn [str_upper flat_map]; rewrite !upper_I by assumption;
    unfold is_roman; cbn; auto.
Qed.

Lemma packing_group_inferred_roman (text_norm : str) m :
  search packing_group_inferred text_norm = Some m ->
  exists w, group 1 m = Some w /\ is_roman (str_upper w).
Proof.
  unfold search. intros E.
  apply scan_sound in E as (Hm & Hc & _).
  unfold packing_group_inferred in Hm, Hc.
  cbn [pat flags seq_] in Hm. cbn [pat] in Hc.
  do 5 match goal with
       | H : Matches _ (Cat _ _) _ _ |- _ => invert H
       end.
  repeat match goal with
         | H : Matches _ _ _ _ |- _ =>
             lazymatch type of H with
             | Matches _ (roman _) _ _ => fail
             | Matches _ WordB _ _ => fail
             | _ => apply Matches_caps_length in H
             end
         end.
  match goal with
  | H : Matches _ WordB _ _ |- _ => invert H
  end.
  match goal with
  | H : Matches _ (roman 1) _ _ |- _ => unfold roman in H; invert H
  end.
  match goal with
  | H : Matches _ _ ?s1 ?s2 |- _ =>
      pose proof (Matches_caps_length _ _ _ _ H) as Hl;
      apply roman_span in H; exists (span s1 s2); split; [|exact H]
  end.
  unfold group.
  match goal with
  | H : set_cap _ _ _ = m_to m |- _ => rewrite <- H
  end.
  cbn [set_cap caps]. rewrite list_lookup_insert_eq; [reflexivity|].
  repeat match goal with
         | H : length (caps _) = _ |- _ => rewrite H; clear H
         end.
  rewrite Hc, length_replicate. vm_compute. lia.
Qed.

End Roman.
Lemma packing_group_before_last_block (record : ParsedRecord) (text_norm : str) :
  packing_group (infer_dangerous text_norm (infer_hazardous text_norm record))
  = packing_group record.
Proof.
  unfold infer_dangerous, infer_hazardous.
  destruct record; cbn.
  repeat match goal with
         | |- context [if ?b then _ else _] => destruct b; cbn
         end; reflexivity.
Qed.

(** X18.  the packing group the inference pass leaves in a record is the one
    the record had, or one of I, II and III in upper case. *)
Theorem inferred_packing_group_is_roman (record : ParsedRecord)
    (text_norm : str) :
  let r' := infer_flags record text_norm in
  packing_group r' = packing_group record
  \/ exists w, packing_group r' = Some w /\ is_roman w.
Proof.
  cbv zeta.
  change (infer_flags record text_norm)
    with (infer_packing text_norm
            (infer_dangerous text_norm (infer_hazardous text_norm record))).
  rewrite <- (packing_group_before_last_block record text_norm).
  generalize (infer_dangerous text_norm (infer_hazardous text_norm record)).
  intros r. unfold infer_packing.
  destruct (negb (truthy (packing_group r))); [|left; reflexivity].
  destruct (Re.search packing_group_inferred text_norm) as [m|] eqn:E;
    [|left; reflexivity].
  destruct (packing_group_inferred_roman _ _ E) as (w & -> & Hw).
  right. exists (str_upper w). split; [destruct r; reflexivity|exact Hw].
Qed.

(* ================================================================== *)
(** * The lines of a description *)

Lemma seen_spec (s : str) (seen : list str) :
  existsb (str_eqb s) seen = true <-> elem_of s seen.
Proof.
  induction seen as [|x seen IH]; cbn [existsb].
  - split; [discriminate|]. intros H. inversion H.
  - rewrite orb_true_iff, IH, elem_of_cons. unfold str_eqb.
    rewrite bool_decide_eq_true. reflexivity.
Qed.

Lemma dedupe_elem (selected seen : list str) (s : str) :
  elem_of s (dedupe seen selected) <-> elem_of s selected /\ ~ elem_of s seen.
Proof.
  revert seen. induction selected as [|x selected IH]; intros seen; cbn [dedupe].
  - split; [intros H; inversion H|intros [H _]; inversion H].
  - destruct (existsb (str_eqb x) seen) eqn:E.
    + rewrite IH, elem_of_cons. apply seen_spec in E. split.
      * intros [H1 H2]. auto.
      * intros [[->|H1] H2]; [contradiction|auto].
    + assert (Hx : ~ elem_of x seen).
      { intros H. apply seen_spec in H. congruence. }
      rewrite !elem_of_cons, IH, elem_of_cons. split.
      * intros [->|[H1 H2]]; [auto|]. split; [auto|]. tauto.
      * intros [[->|H1] H2]; [auto|].
        destruct (decide (s = x)) as [->|Hne]; [auto|]. right. split; [auto|].
        intros [?|?]; contradiction.
Qed.

Lemma dedupe_NoDup (selected seen : list str) : NoDup (dedupe seen selected).
Proof.
  revert seen. induction selected as [|x selected IH]; intros seen; cbn [dedupe].
  - constructor.
  - destruct (existsb (str_eqb x) seen); [apply IH|].
    constructor; [|apply IH].
    rewrite dedupe_elem, elem_of_cons. intros [_ H]. apply H. left. reflexivity.
Qed.

Lemma dedupe_sublist (selected seen : list str) :
  sublist (dedupe seen selected) selected.
Proof.
  revert seen. induction selected as [|x selected IH]; intros seen; cbn [dedupe].
  - constructor.
  - destruct (existsb (str_eqb x) seen).
    + apply sublist_cons, IH.
    + apply sublist_skip, IH.
Qed.

(** X19.  the loop that drops repeated lines keeps the lines in their order,
    keeps a line exactly when it was among the selected ones, and keeps no
    line twice. *)
Theorem dedupe_keeps_first_occurrences (selected : list str) :
  NoDup (dedupe [] selected)
  /\ sublist (dedupe [] selected) selected
  /\ forall l, elem_of l (dedupe [] selected) <-> elem_of l selected.
Proof.
  split; [apply dedupe_NoDup|]. split; [apply dedupe_sublist|].
  intros l. rewrite dedupe_elem. split; [tauto|]. intros H. split; [exact H|].
  intros H'. inversion H'.
Qed.
